(** * Scribit: cord kinematics, carousel state and motion-program emission

    A shallow embedding of [scribit_svg_to_gcode.py] (the batch converter)
    and [scribit_jog_cli.py] (the interactive jog server), with the
    properties of their specification proved about it.

    Numbers.  A Python [float] is modelled by its value, a rational
    ([Q]).  Where a count, a comparison with a threshold, a choice or a
    parameter is computed, the operations are those of binary64: the
    exact result rounded to the nearest float, ties to even ([round64],
    [fadd], [fsub], [fmul], [fdiv]).  This is so for the whole of
    [move_xy_segmented], for the number of samples of a path and their
    parameters [i / n], and for the distances that [nearest] compares;
    the literal [1e-9] is the float of that decimal.  The remaining
    arithmetic (the mapping onto the wall, the cord lengths and their
    differences, the [.3f] formatting) is on the values themselves.  The
    carousel angles the programs store are sums of the integers of the slot
    table, [360], [-56] and the step choices of the jog CLI (multiples of
    [0.5]), on which binary64 arithmetic is exact; NaN, the infinities and
    overflow are outside the model, and so is the sign of a zero, except
    where a zero is negated and printed ([format_3f_opp]).  [math.hypot]
    is a parameter of the development.  A float used as a dictionary key
    is its canonical rational ([Qc]), so that key equality is numeric
    equality.  Python [int] is [Z].

    Effects.  The carousel state of the converter is threaded explicitly;
    the process state of the jog CLI (carousel angle, current settings, the
    static cache, the table of dynamic programs) is a record [World].
    Locks guard whole operations in the source, so each operation is one
    atomic step here.  MQTT publication and the drawing of the terminal
    screen are outside; the loop of the terminal is run on the list of
    the keys it reads.

    Text.  A [str] is the [string] of its characters, for ASCII text.
    What [svgpathtools] gives (the paths of a file with their attributes,
    the point of a path at a parameter, its length and its bounding box)
    and the builtin [int] on a text of digits are parameters. *)

From Equations Require Import Equations.
From Stdlib Require Import QArith Qcanon Qpower Qround Qabs ZArith List.
From Stdlib Require Import String Ascii.
From Stdlib Require Import Lia Lqa DecimalString.
From stdpp Require Import gmap strings.
Import ListNotations.

Local Open Scope Q_scope.

(* ================================================================= *)
(** ** Python values: exceptions, numbers, strings *)

Inductive exn : Type :=
| ValueError (msg : string)
| KeyError (key : Z)
| IndexError.

Inductive result (A : Type) : Type :=
| Ok (a : A)
| Raise (e : exn).
Arguments Ok {A} a.
Arguments Raise {A} e.

(** [str(e)] for the exceptions that are formatted into a response. *)
Definition str_exn (e : exn) : string :=
  match e with
  | ValueError msg => msg
  | KeyError k => NilZero.string_of_int (Z.to_int k)
  | IndexError => "string index out of range"
  end.

(** The builtin [max(a, b)]: [b] when [b > a], else the first argument. *)
Definition py_max (a b : Q) : Q := if Qlt_le_dec a b then b else a.

(** The builtin [min(a, b)]: [b] when [b < a], else the first argument. *)
Definition py_min (a b : Q) : Q := if Qlt_le_dec b a then b else a.

(** [range(lo, hi)]. *)
Definition range (lo hi : Z) : list Z :=
  map (fun k => (lo + Z.of_nat k)%Z) (seq 0 (Z.to_nat (hi - lo))).

(** [f"{n}"] for an [int]. *)
Definition format_int (n : Z) : string := NilZero.string_of_int (Z.to_int n).

(** Rounding to the nearest integer, ties to even: the rounding of the
    float formatter. *)
Definition round_half_even (q : Q) : Z :=
  let f := Qfloor q in
  match Qcompare (q - inject_Z f) (1 # 2) with
  | Lt => f
  | Gt => (f + 1)%Z
  | Eq => if Z.even f then f else (f + 1)%Z
  end.

(** Binary64.  [pow2 e] is [2^e]; [exponent53 a] is the exponent of the
    unit in the last place of a positive number written with 53 bits:
    [2^(e+52) <= a < 2^(e+53)]. *)
Definition pow2 (e : Z) : Q := 2 ^ e.

Definition exponent53 (a : Q) : Z :=
  let k := (Z.log2 (Qnum a) - Z.log2 (Zpos (Qden a)) - 53)%Z in
  if Qle_bool (pow2 (k + 53)) a then (k + 1)%Z else k.

(** The binary64 number nearest to a positive number, ties to the even
    significand, with gradual underflow (no exponent below [-1074]). *)
Definition round64_pos (a : Q) : Q :=
  let e := Z.max (exponent53 a) (-1074) in
  inject_Z (round_half_even (a / pow2 e)) * pow2 e.

(** The binary64 number nearest to a rational, in lowest terms.  (A
    result beyond the largest float, which Python gives as an infinity
    or as [OverflowError], is outside the model.) *)
Definition round64 (q : Q) : Q :=
  Qred match Qnum q with
       | 0%Z => 0
       | Zpos _ => round64_pos q
       | Zneg _ => - round64_pos (- q)
       end.

(** The float operations [a + b], [a - b], [a * b] and [a / b]: the
    exact result, rounded.  The quotient [i / n] of two [int] is the
    rounded quotient as well. *)
Definition fadd (a b : Q) : Q := round64 (a + b).
Definition fsub (a b : Q) : Q := round64 (a - b).
Definition fmul (a b : Q) : Q := round64 (a * b).
Definition fdiv (a b : Q) : Q := round64 (a / b).

(** The float literal [1e-9]. *)
Definition float_1e_9 : Q := round64 (1 # 1000000000).

Definition digit (d : Z) : ascii := ascii_of_nat (48 + Z.to_nat d).

(** The three decimals of a number of thousandths. *)
Definition pad3 (m : Z) : string :=
  String (digit (m / 100 mod 10))
    (String (digit (m / 10 mod 10))
       (String (digit (m mod 10)) EmptyString)).

(** [f"{q:.3f}"]: sign, integer part, point, three decimals. *)
Definition format_3f (q : Q) : string :=
  let m := round_half_even (Qabs q * 1000) in
  ((if Qlt_le_dec q 0 then "-" else "")
     +:+ format_int (m / 1000) +:+ "." +:+ pad3 (m mod 1000))%string.

(** [f"{-q:.3f}"]: the negation of the float zero is the float [-0.0],
    which prints with its sign.  (Where this is used [q] is a difference
    of cord lengths or a multiple of the positive step, so that a zero
    [q] is the float [+0.0].) *)
Definition format_3f_opp (q : Q) : string :=
  if Qeq_bool q 0 then "-0.000"%string else format_3f (- q).

(** [f"{q:g}"], on the values it is applied to: integers of fewer than
    seven digits, which [g] prints without a fraction. *)
Definition format_g (q : Q) : string := format_int (Qfloor q).

Definition nl : string := String (ascii_of_nat 10) EmptyString.

(** ["\n".join(lines) + "\n"]. *)
Definition join_lines (lines : list string) : string :=
  (String.concat nl lines +:+ nl)%string.

(** [s.startswith(p)] and [s.endswith(p)]. *)
Definition startswith (s p : string) : bool := String.prefix p s.

Definition endswith (s p : string) : bool :=
  String.eqb (String.substring (String.length s - String.length p)
                (String.length p) s) p
  && (String.length p <=? String.length s)%nat.

(** Text is modelled by its ASCII characters.  [c.isspace()] holds of
    the tab, the line feed, the vertical tab, the form feed, the carriage
    return, the four separators [0x1c] to [0x1f] and the space; the
    classes [\s] and [\d] of [re] are [isspace] and the ten digits. *)
Definition isspace (c : ascii) : bool :=
  let n := nat_of_ascii c in
  ((9 <=? n) && (n <=? 13) || (28 <=? n) && (n <=? 32))%nat.

Definition isdigit (c : ascii) : bool :=
  let n := nat_of_ascii c in
  ((48 <=? n) && (n <=? 57))%nat.

(** [s.lower()]. *)
Definition lower_char (c : ascii) : ascii :=
  let n := nat_of_ascii c in
  if ((65 <=? n) && (n <=? 90))%nat then ascii_of_nat (n + 32) else c.

Fixpoint lower (s : string) : string :=
  match s with
  | EmptyString => EmptyString
  | String c s' => String (lower_char c) (lower s')
  end.

(** [s.lstrip()], [s.rstrip()] and [s.strip()]. *)
Fixpoint lstrip (s : string) : string :=
  match s with
  | EmptyString => EmptyString
  | String c s' => if isspace c then lstrip s' else s
  end.

Fixpoint rstrip (s : string) : string :=
  match s with
  | EmptyString => EmptyString
  | String c s' =>
      match rstrip s' with
      | EmptyString => if isspace c then EmptyString else String c EmptyString
      | r => String c r
      end
  end.

Definition strip (s : string) : string := rstrip (lstrip s).

(** The longest prefix of characters of a class, and what follows it:
    a greedy [\s*] or [\d*]. *)
Fixpoint span (f : ascii -> bool) (s : string) : string * string :=
  match s with
  | EmptyString => (EmptyString, EmptyString)
  | String c s' =>
      if f c then let '(a, b) := span f s' in (String c a, b)
      else (EmptyString, s)
  end.

(** The value of a string of decimal digits. *)
Definition digits_value (ds : string) : Z :=
  fold_left (fun acc c => (10 * acc + (Z.of_nat (nat_of_ascii c) - 48))%Z)
    (list_ascii_of_string ds) 0%Z.

(** [f"{n:02x}"] for [0 <= n <= 255]. *)
Definition hex_digit (d : Z) : ascii :=
  if (d <? 10)%Z then ascii_of_nat (48 + Z.to_nat d)
  else ascii_of_nat (87 + Z.to_nat d).

Definition format_02x (n : Z) : string :=
  String (hex_digit (n / 16)) (String (hex_digit (n mod 16)) EmptyString).

(** [s.split("/")[-1]]: what follows the last slash. *)
Fixpoint last_segment (s : string) : string :=
  match s with
  | EmptyString => EmptyString
  | String c s' =>
      if existsb (Ascii.eqb "/"%char) (list_ascii_of_string s')
      then last_segment s'
      else if Ascii.eqb c "/"%char then s' else s
  end.

(** [s.replace(pat, "")] for a non-empty [pat]: occurrences are removed
    from left to right, without overlap; [skip] counts the characters of
    the occurrence being removed. *)
Fixpoint str_remove (pat : string) (skip : nat) (s : string) : string :=
  match s with
  | EmptyString => EmptyString
  | String c s' =>
      match skip with
      | S k => str_remove pat k s'
      | O => if String.prefix pat s
             then str_remove pat (String.length pat - 1) s'
             else String c (str_remove pat 0 s')
      end
  end.

(** [int(c)] for one character. *)
Definition int_of_char (c : ascii) : option Z :=
  let n := nat_of_ascii c in
  if ((48 <=? n) && (n <=? 57))%nat then Some (Z.of_nat (n - 48)) else None.

(* ================================================================= *)
(** ** The CCW-only loop, shared by both programs

    [while target < current_z: target += 360.0].  The number of turns
    still to add is the termination measure. *)

Definition turns_left (target current_z : Q) : nat :=
  Z.to_nat (Qceiling ((current_z - target) / 360)).

Equations? ccw_loop (target current_z : Q) : Q
  by wf (turns_left target current_z) lt :=
  ccw_loop target current_z with Qlt_le_dec target current_z => {
    | left _ => ccw_loop (target + 360) current_z;
    | right _ => target }.
Proof.
  (* One turn more leaves one turn less to add. *)
  unfold turns_left.
  set (r := (current_z - target) / 360).
  assert (E : (current_z - (target + 360)) / 360 == r - 1)
    by (unfold r; field).
  rewrite (Qceiling_comp _ _ E).
  assert (P : 0 < r) by (unfold r; apply Qlt_shift_div_l; lra).
  pose proof (Qle_ceiling r) as Hr.
  pose proof (Qceiling_lt (r - 1)) as Hr1.
  assert (H0 : inject_Z 0 < inject_Z (Qceiling r))
    by (eapply Qlt_le_trans; [exact P | exact Hr]).
  assert (H1 : inject_Z (Qceiling (r - 1) - 1) < inject_Z (Qceiling r - 1)).
  { unfold Z.sub at 2. rewrite inject_Z_plus, inject_Z_opp.
    change (inject_Z 1) with 1. lra. }
  rewrite <- Zlt_Qlt in H0, H1. lia.
Qed.

(* ================================================================= *)
(** ** [scribit_svg_to_gcode.py] *)

Module SvgToGcode.

(** Scribit default distance between nails. *)
Definition D_MM_DEFAULT : Z := 1860.

(** Pen slot Z degrees: the dictionary [{1: 89, 2: 161, 3: 233, 4: 305}]. *)
Definition PEN_SLOTS_Z : gmap Z Z :=
  list_to_map [(1, 89); (2, 161); (3, 233); (4, 305)]%Z.

(** Z reference after homing (G77). *)
Definition Z_AFTER_G77 : Q := - (56).

(** The commanded carousel Z, [None] before homing. *)
Record CarouselState : Type := { z : option Q }.

Definition ccw_only_target (current_z : option Q) (slot_z : Q) : Q :=
  match current_z with
  | None => slot_z
  | Some current_z => ccw_loop slot_z current_z
  end.

Definition gcode_header : list string := ["G21"; "G91"; "M17"]%string.

(** A function that reads and writes the carousel state and may raise:
    the state comes back with the result, also when it raises. *)
Definition Emit (A : Type) : Type :=
  CarouselState -> result A * CarouselState.

Definition gcode_home_carousel : Emit (list string) := fun st =>
  (Ok ["G21"; "G90"; "M17"; "G77";
       "G92 Z" +:+ format_g Z_AFTER_G77; "G91"]%string,
   {| z := Some Z_AFTER_G77 |}).

Definition gcode_pen_select_ccw (pen f_z : Z) : Emit (list string) := fun st =>
  match PEN_SLOTS_Z !! pen with
  | None =>
      (Raise (ValueError ("pen must be 1..4, got " +:+ format_int pen)), st)
  | Some slot_z =>
      let slot := inject_Z slot_z in
      let target := ccw_only_target (z st) slot in
      (Ok ["G90";
           "G1 Z" +:+ format_3f target +:+ " F" +:+ format_int f_z;
           "G91"]%string,
       {| z := Some target |})
  end.

Definition gcode_pen_down : list string := ["G101"; "G101"; "G101"]%string.

Definition gcode_pen_up (pen f_z : Z) : Emit (list string) :=
  gcode_pen_select_ccw pen f_z.

Definition gcode_dwell (seconds : Q) : list string :=
  let s := py_max 0 seconds in
  ["G4 S" +:+ format_3f s]%string.

(** A curve of [svgpathtools]: its point at a parameter in [[0, 1]] (a
    complex number, here the pair of its real and imaginary parts) and its
    length. *)
Record Path : Type := { point : Q -> Q * Q; length_svg : Q }.

Definition sample_path_uniform_t (path : Path) (n : Z) : list (Q * Q) :=
  let n := Z.max 1 n in
  map (fun i => point path (fdiv (inject_Z i) (inject_Z n)))
    (range 0 (n + 1)).

Record SvgToWallMapper : Type :=
  { u_center : Q; v_center : Q; scale : Q; wall_cx : Q; wall_cy : Q }.

Definition map_uv (self : SvgToWallMapper) (u v : Q) : Q * Q :=
  let x := (u - u_center self) * scale self + wall_cx self in
  let y := (v - v_center self) * scale self + wall_cy self in
  (x, y).

(** The number of samples that [main] asks for a path:
    [max(1, int(math.ceil(length_wall / max(1e-9, args.step_mm))))]. *)
Definition sample_count (length_svg scale step_mm : Q) : Z :=
  let length_wall := fmul length_svg scale in
  Z.max 1 (Qceiling (fdiv length_wall (py_max float_1e_9 step_mm))).

Section Kinematics.

(** [math.hypot]. *)
Variable hypot : Q -> Q -> Q.

Definition xy_to_lr (x_mm y_mm D_mm : Q) : Q * Q :=
  let L := hypot x_mm y_mm in
  let R := hypot (D_mm - x_mm) y_mm in
  (L, R).

Definition wall_xy_to_lr_delta_g1 (cur_xy next_xy : Q * Q) (D_mm : Q)
    (feed : Z) : string * (Q * Q) :=
  let '(x0, y0) := cur_xy in
  let '(x1, y1) := next_xy in
  let '(L0, R0) := xy_to_lr x0 y0 D_mm in
  let '(L1, R1) := xy_to_lr x1 y1 D_mm in
  let dL := L1 - L0 in
  let dR := R1 - R0 in
  (("G1 X" +:+ format_3f dL +:+ " Y" +:+ format_3f_opp dR
      +:+ " F" +:+ format_int feed)%string,
   (x1, y1)).

(** One turn of the loop [for i in range(1, n + 1)] of
    [move_xy_segmented], on the pair [(lines, xy)]. *)
Definition segment_step (x0 y0 dx dy D_mm : Q) (feed n : Z)
    (acc : list string * (Q * Q)) (i : Z) : list string * (Q * Q) :=
  let '(lines, xy) := acc in
  let t := fdiv (inject_Z i) (inject_Z n) in
  let mid := (fadd x0 (fmul dx t), fadd y0 (fmul dy t)) in
  let '(line, xy) := wall_xy_to_lr_delta_g1 xy mid D_mm feed in
  (lines ++ [line], xy).

Definition move_xy_segmented (cur_xy target_xy : Q * Q) (D_mm : Q)
    (feed : Z) (max_step_mm : Q) : list string * (Q * Q) :=
  let '(x0, y0) := cur_xy in
  let '(x1, y1) := target_xy in
  let dx := fsub x1 x0 in
  let dy := fsub y1 y0 in
  let dist := hypot dx dy in
  if Qle_bool dist float_1e_9 then ([], cur_xy)
  else if Qle_bool max_step_mm 0 then
    let '(line, new_xy) :=
      wall_xy_to_lr_delta_g1 cur_xy target_xy D_mm feed in
    ([line], new_xy)
  else
    let n := Z.max 1 (Qceiling (fdiv dist max_step_mm)) in
    fold_left (segment_step x0 y0 dx dy D_mm feed n)
      (range 1 (n + 1)) ([], cur_xy).

(** The drawing loop of [main] over the points after the first:
    [for xy in poly_wall[1:]: line, cur_xy = wall_xy_to_lr_delta_g1(...)]. *)
Definition draw_step (D_mm : Q) (feed : Z)
    (acc : list string * (Q * Q)) (xy : Q * Q) : list string * (Q * Q) :=
  let '(lines, cur_xy) := acc in
  let '(line, cur_xy) := wall_xy_to_lr_delta_g1 cur_xy xy D_mm feed in
  (lines ++ [line], cur_xy).

Definition draw_polyline (cur_xy : Q * Q) (pts : list (Q * Q)) (D_mm : Q)
    (feed : Z) : list string * (Q * Q) :=
  fold_left (draw_step D_mm feed) pts ([], cur_xy).

End Kinematics.

(** The wall polyline that [main] draws for a path:
    [pts = sample_path_uniform_t(path, n)] mapped through [mapper.map_uv]. *)
Definition poly_wall (mapper : SvgToWallMapper) (path : Path) (step_mm : Q)
    : list (Q * Q) :=
  let n := sample_count (length_svg path) (scale mapper) step_mm in
  let pts := sample_path_uniform_t path n in
  map (fun pt => map_uv mapper (fst pt) (snd pt)) pts.

(** *** Colours, pens and the bounding box *)

Definition clamp_int (v lo hi : Z) : Z := Z.max lo (Z.min hi v).

Definition clamp_float (v lo hi : Q) : Q := py_max lo (py_min hi v).

(** *** Colours *)

(** [\s*(\d+)\s*] at the start of [s]: the digits of the group and what
    follows the match.  The classes are disjoint from each other and from
    the comma and the parenthesis that follow in the pattern, so the
    greedy match is the only one. *)
Definition re_number (s : string) : option (string * string) :=
  let '(ds, rest) := span isdigit (lstrip s) in
  match ds with
  | EmptyString => None
  | _ => Some (ds, lstrip rest)
  end.

(** [re.match(r"rgb\(\s*(\d+)\s*,\s*(\d+)\s*,\s*(\d+)\s*\)", s)]: the
    three groups. *)
Definition re_match_rgb (s : string) : option (string * string * string) :=
  match s with
  | String "r" (String "g" (String "b" (String "(" s))) =>
      match re_number s with
      | Some (r, String "," s) =>
          match re_number s with
          | Some (g, String "," s) =>
              match re_number s with
              | Some (b, String ")" _) => Some (r, g, b)
              | _ => None
              end
          | _ => None
          end
      | _ => None
      end
  | _ => None
  end.

Section Colours.

(** The builtin [int] on a string of decimal digits: their value, or
    the [ValueError] of an interpreter that limits the number of digits. *)
Variable py_int : string -> result Z.

Definition parse_color (s : option string) : result (option string) :=
  match s with
  | None => Ok None
  | Some EmptyString => Ok None
  | Some s =>
      let s := lower (strip s) in
      if String.eqb s "none" || String.eqb s "transparent" then Ok None
      else if startswith s "#" then
        match s with
        | String _ (String r (String g (String b EmptyString))) =>
            Ok (Some (String "#" (String r (String r (String g (String g
                       (String b (String b EmptyString))))))))
        | _ => Ok (Some s)
        end
      else
        match re_match_rgb s with
        | Some (r, g, b) =>
            match py_int r with
            | Raise e => Raise e
            | Ok r =>
                match py_int g with
                | Raise e => Raise e
                | Ok g =>
                    match py_int b with
                    | Raise e => Raise e
                    | Ok b =>
                        let r := clamp_int r 0 255 in
                        let g := clamp_int g 0 255 in
                        let b := clamp_int b 0 255 in
                        Ok (Some ("#" +:+ format_02x r +:+ format_02x g
                                    +:+ format_02x b)%string)
                    end
                end
            end
        | None => Ok (Some s)
        end
  end.

End Colours.

(** The end of a run of [main]: it returns, it exits through
    [SystemExit], or an exception escapes. *)
Inductive outcome (A : Type) : Type :=
| Finished (a : A)
| SystemExit (msg : string)
| Uncaught (e : exn).
Arguments Finished {A} a.
Arguments SystemExit {A} msg.
Arguments Uncaught {A} e.

(** A float that may be infinite: the accumulators of
    [compute_svg_bbox] start at [float("inf")] and [float("-inf")]. *)
Inductive xfloat : Type :=
| NegInf
| Fin (q : Q)
| PosInf.

(** [min(a, b)] and [max(a, b)] for an accumulator [a] and a finite [b]:
    [b] when it is strictly smaller (greater), else [a]. *)
Definition xmin (a : xfloat) (b : Q) : xfloat :=
  match a with
  | PosInf => Fin b
  | Fin a' => Fin (py_min a' b)
  | NegInf => NegInf
  end.

Definition xmax (a : xfloat) (b : Q) : xfloat :=
  match a with
  | NegInf => Fin b
  | Fin a' => Fin (py_max a' b)
  | PosInf => PosInf
  end.

(** A [for] loop whose body may raise. *)
Fixpoint for_each {A S : Type} (body : S -> A -> result S) (items : list A)
    (s : S) : result S :=
  match items with
  | [] => Ok s
  | a :: items =>
      match body s a with
      | Ok s => for_each body items s
      | Raise e => Raise e
      end
  end.

Section Loading.

(** [parse_color] normalises a colour attribute ([None] for a missing,
    [none] or [transparent] one); it may raise. *)
Variable parse_color : option string -> result (option string).

(** [p.bbox()] of [svgpathtools]: [(xmin, xmax, ymin, ymax)]. *)
Variable bbox : Path -> Q * Q * Q * Q.

(** The state of the loop of [load_drawable_paths]. *)
Record Loaded : Type :=
  { color_to_pen : gmap string Z;
    next_pen : Z;
    drawable : list (Path * Z) }.

(** The colour that a turn of the loop draws a path with: its stroke,
    black when it has neither stroke nor fill, and [None] ([continue])
    when it has a fill and no stroke. *)
Definition stroke_of (a : gmap string string) : result (option string) :=
  match parse_color (a !! "stroke"%string) with
  | Raise e => Raise e
  | Ok (Some stroke) => Ok (Some stroke)
  | Ok None =>
      match parse_color (a !! "fill"%string) with
      | Raise e => Raise e
      | Ok None => Ok (Some "#000000"%string)
      | Ok (Some _) => Ok None
      end
  end.

(** One turn of the loop, on a path and its attributes. *)
Definition load_step (default_pen : Z) (acc : Loaded)
    (item : Path * gmap string string) : result Loaded :=
  let '(p, a) := item in
  match stroke_of a with
  | Raise e => Raise e
  | Ok None => Ok acc
  | Ok (Some stroke) =>
      let '(c2p, np) :=
        if decide (color_to_pen acc !! stroke = None /\ (next_pen acc <= 4)%Z)
        then (<[stroke := next_pen acc]> (color_to_pen acc),
              (next_pen acc + 1)%Z)
        else (color_to_pen acc, next_pen acc) in
      let pen := default default_pen (c2p !! stroke) in
      Ok {| color_to_pen := c2p; next_pen := np;
            drawable := drawable acc ++ [(p, pen)] |}
  end.

(** [load_drawable_paths] on the paths and attributes read from the
    file ([zip(paths, attrs)]). *)
Definition load_drawable_paths (items : list (Path * gmap string string))
    (default_pen : Z) : result (list (Path * Z) * gmap string Z) :=
  match
    for_each (load_step default_pen) items
      {| color_to_pen := ∅; next_pen := 1; drawable := [] |}
  with
  | Raise e => Raise e
  | Ok final => Ok (drawable final, color_to_pen final)
  end.

(** One turn of the loop of [compute_svg_bbox]. *)
Definition bbox_step (acc : xfloat * xfloat * xfloat * xfloat)
    (item : Path * Z) : xfloat * xfloat * xfloat * xfloat :=
  let '(x_min, x_max, y_min, y_max) := acc in
  let '(bx0, bx1, by0, by1) := bbox (fst item) in
  (xmin x_min bx0, xmax x_max bx1, xmin y_min by0, xmax y_max by1).

Definition compute_svg_bbox (drawable : list (Path * Z))
    : outcome (xfloat * xfloat * xfloat * xfloat) :=
  let r := fold_left bbox_step drawable (PosInf, NegInf, PosInf, NegInf) in
  match drawable with
  | [] => SystemExit "No drawable paths."
  | _ :: _ => Finished r
  end.

End Loading.

(** *** The two programs of [main] *)

Record Args : Type :=
  { svg : string;
    D_mm : Q;
    fit_frac : Q;
    step_mm : Q;
    travel_step_mm : Q;
    f_travel : Z;
    f_draw : Z;
    f_z : Z;
    dot_dwell_s : Q;
    bbox_pen : Z;
    default_pen : Z;
    home_carousel : bool;
    out_bbox : string;
    out_draw : string }.

(** A program under construction: the lines so far, the carousel state
    and the wall position. *)
Record Prog : Type :=
  { g_lines : list string; g_st : CarouselState; g_xy : Q * Q }.

(** [g += emitter(..., st)]. *)
Definition emit (e : Emit (list string)) (p : Prog) : result Prog :=
  match e (g_st p) with
  | (Ok ls, st) =>
      Ok {| g_lines := g_lines p ++ ls; g_st := st; g_xy := g_xy p |}
  | (Raise ex, _) => Raise ex
  end.

(** [g += lines]. *)
Definition add_lines (ls : list string) (p : Prog) : Prog :=
  {| g_lines := g_lines p ++ ls; g_st := g_st p; g_xy := g_xy p |}.

(** The start of both programs: the header and, unless disabled, the
    homing of the carousel; the wall position is the wall centre. *)
Definition start_program (home : bool) (wall_cx wall_cy : Q)
    : result Prog :=
  let p := {| g_lines := gcode_header; g_st := {| z := None |};
              g_xy := (wall_cx, wall_cy) |} in
  if home then emit gcode_home_carousel p else Ok p.

Section Programs.

Variable hypot : Q -> Q -> Q.

(** Travel with the pen up: [lines, cur_xy = move_xy_segmented(...)];
    [g += lines]. *)
Definition travel (args : Args) (target : Q * Q) (p : Prog) : Prog :=
  let '(ls, xy) :=
    move_xy_segmented hypot (g_xy p) target (D_mm args) (f_travel args)
      (travel_step_mm args) in
  {| g_lines := g_lines p ++ ls; g_st := g_st p; g_xy := xy |}.

(** One turn of the loop over the corners of the bounding box. *)
Definition dot_step (args : Args) (pen : Z) (p : Prog) (xy : Q * Q)
    : result Prog :=
  let p := travel args xy p in
  let p := add_lines gcode_pen_down p in
  let p := add_lines (gcode_dwell (dot_dwell_s args)) p in
  emit (gcode_pen_up pen (f_z args)) p.

(** Part (1) of [main]: the dots at the corners of the bounding box. *)
Definition bbox_program (args : Args) (mapper : SvgToWallMapper)
    (x_min x_max y_min y_max : Q) : result Prog :=
  let bbox_corners_wall :=
    [map_uv mapper x_min y_min; map_uv mapper x_max y_min;
     map_uv mapper x_max y_max; map_uv mapper x_min y_max] in
  let pen := bbox_pen args in
  match start_program (home_carousel args) (wall_cx mapper)
          (wall_cy mapper) with
  | Raise e => Raise e
  | Ok p =>
      match emit (gcode_pen_select_ccw pen (f_z args)) p with
      | Raise e => Raise e
      | Ok p => for_each (dot_step args pen) bbox_corners_wall p
      end
  end.

(** One turn of the loop over the drawable paths. *)
Definition path_step (args : Args) (mapper : SvgToWallMapper) (p : Prog)
    (item : Path * Z) : result Prog :=
  let '(path, pen) := item in
  let poly := poly_wall mapper path (step_mm args) in
  match emit (gcode_pen_select_ccw pen (f_z args)) p with
  | Raise e => Raise e
  | Ok p =>
      match poly with
      | [] => Raise IndexError
      | first :: rest =>
          let p := travel args first p in
          let p := add_lines gcode_pen_down p in
          let '(ls, xy) :=
            draw_polyline hypot (g_xy p) rest (D_mm args) (f_draw args) in
          let p := {| g_lines := g_lines p ++ ls; g_st := g_st p;
                      g_xy := xy |} in
          emit (gcode_pen_up pen (f_z args)) p
      end
  end.

(** Part (2) of [main]: the drawing. *)
Definition draw_program (args : Args) (mapper : SvgToWallMapper)
    (drawable : list (Path * Z)) : result Prog :=
  match start_program (home_carousel args) (wall_cx mapper)
          (wall_cy mapper) with
  | Raise e => Raise e
  | Ok p => for_each (path_step args mapper) drawable p
  end.

Variable parse_color : option string -> result (option string).
Variable bbox : Path -> Q * Q * Q * Q.


End Programs.

End SvgToGcode.

(* ================================================================= *)
(** ** [scribit_jog_cli.py] *)

Module JogCli.

(** Motor-space jog mapping: [X = dL], [Y = -dR]. *)
Definition MOTOR_CMDS : gmap string (Z * Z) :=
  list_to_map
    [("BOTH_IN", (-1, -1)); ("BOTH_OUT", (1, 1));
     ("L_IN", (-1, 0)); ("L_OUT", (1, 0));
     ("R_IN", (0, -1)); ("R_OUT", (0, 1));
     ("LEFTISH", (-1, 1)); ("RIGHTISH", (1, -1))]%string%Z.

Definition CAROUSEL_CMDS : gset string := {[ "CAR_CCW"; "CAR_CW" ]}%string.

(** Pen slot Z positions. *)
Definition PEN_SLOT_Z : gmap Z Z :=
  list_to_map [(1, 89); (2, 161); (3, 233); (4, 305)]%Z.

Definition PEN_CMDS : gset string :=
  {[ "P1_UP"; "P2_UP"; "P3_UP"; "P4_UP";
     "P1_DOWN"; "P2_DOWN"; "P3_DOWN"; "P4_DOWN" ]}%string.

Definition SPECIAL_CMDS : gset string :=
  {[ "G77"%string ]} ∪ CAROUSEL_CMDS ∪ PEN_CMDS.

(** The frozen dataclass [Key(step: float, feed: int)], compared and
    hashed by value. *)
Record Key : Type := { step : Qc; feed : Z }.

#[global] Instance Key_eq_dec : EqDecision Key.
Proof. solve_decision. Defined.

#[global] Instance Key_countable : Countable Key.
Proof.
  refine (inj_countable' (fun k => (step k, feed k))
            (fun p => {| step := fst p; feed := snd p |}) _).
  intros []. reflexivity.
Defined.

Definition _build_gcode (key : Key) (cmd : string) : result string :=
  match MOTOR_CMDS !! cmd with
  | Some (sx, sy) =>
      let dL := inject_Z sx * step key in
      let dR := inject_Z sy * step key in
      Ok (join_lines
            ["G21"; "G91"; "M17";
             "G1 X" +:+ format_3f dL +:+ " Y" +:+ format_3f_opp dR
               +:+ " F" +:+ format_int (feed key)]%string)
  | None =>
      if decide (cmd ∈ CAROUSEL_CMDS) then
        let dz : Q := if decide (cmd = "CAR_CCW"%string)
                      then step key else - step key in
        Ok (join_lines
              ["G21"; "G91"; "M17";
               "G1 Z" +:+ format_3f dz +:+ " F"
                 +:+ format_int (feed key)]%string)
      else if decide (cmd = "G77"%string) then
        Ok (join_lines ["G21"; "G90"; "M17"; "G77"; "G92 Z-56"]%string)
      else Raise (ValueError ("unknown cmd " +:+ cmd))
  end.

(** The cache: the dictionary [_cache], and the log of the calls of
    [_build_gcode] made through it (most recent first), which stands for
    the invocation counter a test would attach to the builder. *)
Record Cache : Type :=
  { _cache : gmap (Key * string) string;
    build_log : list (Key * string) }.

Definition empty_cache : Cache := {| _cache := ∅; build_log := [] |}.

Definition get_gcode (self : Cache) (key : Key) (cmd : string)
    : result string * Cache :=
  let k := (key, cmd) in
  match _cache self !! k with
  | Some gcode => (Ok gcode, self)
  | None =>
      match _build_gcode key cmd with
      | Ok gcode =>
          (Ok gcode,
           {| _cache := <[k := gcode]> (_cache self);
              build_log := k :: build_log self |})
      | Raise e =>
          (Raise e,
           {| _cache := _cache self; build_log := k :: build_log self |})
      end
  end.

(** The state of the process: [App._z], the dictionary [CURRENT],
    the global [CACHE] and [Handler._dyn_gcode]. *)
Record World : Type :=
  { _z : option Q;
    CURRENT : Key;
    CACHE : Cache;
    _dyn_gcode : gmap string string }.

(** Process start: [CURRENT = {"step": 2.0, "feed": 900}], nothing
    homed, nothing cached, nothing published. *)
Definition initial_world : World :=
  {| _z := None;
     CURRENT := {| step := Q2Qc 2; feed := 900 |};
     CACHE := empty_cache;
     _dyn_gcode := ∅ |}.

Definition _z_set (z : option Q) (w : World) : World :=
  {| _z := z; CURRENT := CURRENT w; CACHE := CACHE w;
     _dyn_gcode := _dyn_gcode w |}.

Definition set_cache (c : Cache) (w : World) : World :=
  {| _z := _z w; CURRENT := CURRENT w; CACHE := c;
     _dyn_gcode := _dyn_gcode w |}.

Definition set_dynamic_gcode (cmd gcode : string) (w : World) : World :=
  {| _z := _z w; CURRENT := CURRENT w; CACHE := CACHE w;
     _dyn_gcode := <[cmd := gcode]> (_dyn_gcode w) |}.

(** [apply_settings] of the UI: the step and feed choices. *)
Definition apply_settings (step0 : Qc) (feed0 : Z) (w : World) : World :=
  {| _z := _z w; CURRENT := {| step := step0; feed := feed0 |};
     CACHE := CACHE w; _dyn_gcode := _dyn_gcode w |}.

Definition _ccw_only_target (current_z : option Q) (slot_z : Q) : Q :=
  match current_z with
  | None => slot_z
  | Some current_z => ccw_loop slot_z current_z
  end.

Definition build_pen_gcode (pen : Z) (is_down : bool) (fz : Z) (w : World)
    : result string * World :=
  match PEN_SLOT_Z !! pen with
  | None => (Raise (KeyError pen), w)
  | Some slot =>
      let cur := _z w in
      let target := _ccw_only_target cur (inject_Z slot) in
      let lines :=
        ["G21"; "G90"; "M17";
         "G1 Z" +:+ format_3f target +:+ " F" +:+ format_int fz]%string in
      let lines :=
        if is_down then lines ++ ["G101"; "G101"; "G101"]%string
        else lines in
      (Ok (join_lines lines), _z_set (Some target) w)
  end.

Definition build_g77_gcode (w : World) : string * World :=
  let lines := ["G21"; "G90"; "M17"; "G77"; "G92 Z-56"]%string in
  (join_lines lines, _z_set (Some (- (56))) w).

(** [publish_cmd], up to the point where the program text is in place;
    what follows in the source hands the URL to the robot over MQTT. *)
Definition publish_cmd (cmd : string) (w : World) : result unit * World :=
  let key := {| step := step (CURRENT w); feed := feed (CURRENT w) |} in
  if decide (cmd ∈ PEN_CMDS) then
    match String.get 1 cmd with
    | None => (Raise IndexError, w)
    | Some c =>
        match int_of_char c with
        | None => (Raise (ValueError "invalid literal for int()"), w)
        | Some pen =>
            let is_down := endswith cmd "DOWN" in
            match build_pen_gcode pen is_down 2000 w with
            | (Ok gcode, w) => (Ok tt, set_dynamic_gcode cmd gcode w)
            | (Raise e, w) => (Raise e, w)
            end
        end
    end
  else if decide (cmd = "G77"%string) then
    let '(gcode, w) := build_g77_gcode w in
    (Ok tt, set_dynamic_gcode cmd gcode w)
  else
    match get_gcode (CACHE w) key cmd with
    | (Raise e, c) => (Raise e, set_cache c w)
    | (Ok _, c) =>
        let w := set_cache c w in
        if decide (cmd ∈ CAROUSEL_CMDS) then
          let dz : Q := if decide (cmd = "CAR_CCW"%string)
                        then step key else - step key in
          match _z w with
          | Some cur => (Ok tt, _z_set (Some (cur + dz)) w)
          | None => (Ok tt, w)
          end
        else (Ok tt, w)
    end.

(** An HTTP response: status code and body. *)
Record Response : Type := { status : Z; body : string }.

(** The body of the [try] of [do_GET], for the command named by the path:
    the dynamic table first, then the cache; an exception becomes a 400. *)
Definition serve_gcode (cmd : string) (w : World) : Response * World :=
  match _dyn_gcode w !! cmd with
  | Some gcode => ({| status := 200; body := gcode |}, w)
  | None =>
      let key := {| step := step (CURRENT w); feed := feed (CURRENT w) |} in
      match get_gcode (CACHE w) key cmd with
      | (Ok gcode, c) => ({| status := 200; body := gcode |}, set_cache c w)
      | (Raise e, c) =>
          ({| status := 400;
              body := "bad request: " +:+ str_exn e +:+ nl |},
           set_cache c w)
      end
  end.

(** [do_GET] on the path of the request URL. *)
Definition do_GET (p : string) (w : World) : Response * World :=
  if decide (p = "/health"%string) then
    ({| status := 200; body := "ok" +:+ nl |}, w)
  else if startswith p "/g/" && endswith p ".gcode" then
    let cmd := str_remove ".gcode" 0 (last_segment p) in
    serve_gcode cmd w
  else ({| status := 404; body := "not found" +:+ nl |}, w).

(** What the interactive loop and the HTTP server do to the process
    state: a key press publishes a command or changes the settings, a
    request is served. *)
Inductive Event : Type :=
| Publish (cmd : string)
| Settings (step0 : Qc) (feed0 : Z)
| Get (p : string).

Definition step_world (w : World) (ev : Event) : World :=
  match ev with
  | Publish cmd => snd (publish_cmd cmd w)
  | Settings s f => apply_settings s f w
  | Get p => snd (do_GET p w)
  end.

Definition run (w : World) (evs : list Event) : World :=
  fold_left step_world evs w.

(** The URL that [publish_cmd] hands to the robot, its path, and the
    payload of the print message ([URL;suffix]). *)
Definition url_path (cmd : string) : string := "/g/" +:+ cmd +:+ ".gcode".

Definition url (host_ip cmd : string) : string :=
  "http://" +:+ host_ip +:+ url_path cmd.

Definition payload (host_ip suffix cmd : string) : string :=
  url host_ip cmd +:+ ";" +:+ suffix.

(** *** The terminal loop, [run_curses] *)

Definition step_choices : list Qc :=
  map Q2Qc [1 # 2; 1; 2; 5; 10; 30; 50; 72; 90; 100; 200].

Definition feed_choices : list Z := [600; 900; 1200; 1800; 2400; 3000]%Z.

(** [min(choices, key=...)] after its first element: a later choice
    replaces the best one only when its key is strictly smaller. *)
Fixpoint min_from {A : Type} (key : A -> Q) (best : A) (rest : list A) : A :=
  match rest with
  | [] => best
  | c :: rest =>
      if Qlt_le_dec (key c) (key best) then min_from key c rest
      else min_from key best rest
  end.

(** [min(choices, key=...)], which raises on an empty sequence. *)
Definition py_min_by {A : Type} (key : A -> Q) (choices : list A)
    : result A :=
  match choices with
  | [] => Raise (ValueError "min() arg is an empty sequence")
  | c :: rest => Ok (min_from key c rest)
  end.

(** [nearest(val, choices)] on the steps (floats) and on the feeds
    (integers): [min(choices, key=lambda c: abs(c - val))]. *)
Definition nearest_step (val : Q) (choices : list Qc) : result Qc :=
  py_min_by (fun c : Qc => Qabs (fsub c val)) choices.

Definition nearest_feed (val : Z) (choices : list Z) : result Z :=
  py_min_by (fun c : Z => inject_Z (Z.abs (c - val))) choices.

(** [choices.index(x)]: the first position of [x], [ValueError] if there
    is none. *)
Fixpoint index_from {A : Type} `{EqDecision A} (x : A) (l : list A)
    (i : nat) : result nat :=
  match l with
  | [] => Raise (ValueError "x not in list")
  | y :: l => if decide (y = x) then Ok i else index_from x l (S i)
  end.

Definition index {A : Type} `{EqDecision A} (x : A) (l : list A)
    : result nat :=
  index_from x l 0.

(** The variables of the loop ([step], [feed]) and the process state. *)
Record Ui : Type := { ui_step : Qc; ui_feed : Z; ui_world : World }.

(** The closure [apply_settings] of [run_curses]. *)
Definition ui_apply_settings (u : Ui) : Ui :=
  {| ui_step := ui_step u; ui_feed := ui_feed u;
     ui_world := apply_settings (ui_step u) (ui_feed u) (ui_world u) |}.

(** The start of [run_curses]: the nearest choices, applied. *)
Definition ui_start (step0 : Q) (feed0 : Z) (w : World) : result Ui :=
  match nearest_step step0 step_choices with
  | Raise e => Raise e
  | Ok s =>
      match nearest_feed feed0 feed_choices with
      | Raise e => Raise e
      | Ok f =>
          Ok (ui_apply_settings {| ui_step := s; ui_feed := f; ui_world := w |})
      end
  end.

Definition step_down (u : Ui) : result Ui :=
  match index (ui_step u) step_choices with
  | Raise e => Raise e
  | Ok i =>
      if (0 <? i)%nat then
        match step_choices !! (i - 1)%nat with
        | None => Raise IndexError
        | Some s =>
            Ok (ui_apply_settings
                  {| ui_step := s; ui_feed := ui_feed u;
                     ui_world := ui_world u |})
        end
      else Ok u
  end.

Definition step_up (u : Ui) : result Ui :=
  match index (ui_step u) step_choices with
  | Raise e => Raise e
  | Ok i =>
      if (i <? length step_choices - 1)%nat then
        match step_choices !! (i + 1)%nat with
        | None => Raise IndexError
        | Some s =>
            Ok (ui_apply_settings
                  {| ui_step := s; ui_feed := ui_feed u;
                     ui_world := ui_world u |})
        end
      else Ok u
  end.

Definition feed_down (u : Ui) : result Ui :=
  match index (ui_feed u) feed_choices with
  | Raise e => Raise e
  | Ok i =>
      if (0 <? i)%nat then
        match feed_choices !! (i - 1)%nat with
        | None => Raise IndexError
        | Some f =>
            Ok (ui_apply_settings
                  {| ui_step := ui_step u; ui_feed := f;
                     ui_world := ui_world u |})
        end
      else Ok u
  end.

Definition feed_up (u : Ui) : result Ui :=
  match index (ui_feed u) feed_choices with
  | Raise e => Raise e
  | Ok i =>
      if (i <? length feed_choices - 1)%nat then
        match feed_choices !! (i + 1)%nat with
        | None => Raise IndexError
        | Some f =>
            Ok (ui_apply_settings
                  {| ui_step := ui_step u; ui_feed := f;
                     ui_world := ui_world u |})
        end
      else Ok u
  end.

(** [ord(c)]. *)
Definition ord (c : ascii) : Z := Z.of_nat (nat_of_ascii c).

(** The closure [publish] of [run_curses]: an exception of
    [publish_cmd] leaves the loop. *)
Definition ui_publish (cmd : string) (u : Ui) : result (option Ui) :=
  match publish_cmd cmd (ui_world u) with
  | (Ok _, w) =>
      Ok (Some {| ui_step := ui_step u; ui_feed := ui_feed u;
                  ui_world := w |})
  | (Raise e, _) => Raise e
  end.

Definition ui_keep (r : result Ui) : result (option Ui) :=
  match r with Ok u => Ok (Some u) | Raise e => Raise e end.

Section Keys.

(** The key codes of [curses] for the arrows. *)
Variables KEY_UP KEY_DOWN KEY_LEFT KEY_RIGHT : Z.

(** One turn of the [while True] of [loop] on the key [ch]: the state
    after it, or [None] when the loop returns. *)
Definition on_key (ch : Z) (u : Ui) : result (option Ui) :=
  if decide (ch = KEY_UP) then ui_publish "BOTH_IN" u
  else if decide (ch = KEY_DOWN) then ui_publish "BOTH_OUT" u
  else if decide (ch = KEY_LEFT) then ui_publish "LEFTISH" u
  else if decide (ch = KEY_RIGHT) then ui_publish "RIGHTISH" u
  else if decide (ch = ord "w" \/ ch = ord "W") then ui_publish "BOTH_IN" u
  else if decide (ch = ord "s" \/ ch = ord "S") then ui_publish "BOTH_OUT" u
  else if decide (ch = ord "a" \/ ch = ord "A") then ui_publish "LEFTISH" u
  else if decide (ch = ord "d" \/ ch = ord "D") then ui_publish "RIGHTISH" u
  else if decide (ch = ord "q" \/ ch = ord "Q") then ui_publish "L_IN" u
  else if decide (ch = ord "e" \/ ch = ord "E") then ui_publish "L_OUT" u
  else if decide (ch = ord "z" \/ ch = ord "Z") then ui_publish "R_IN" u
  else if decide (ch = ord "c" \/ ch = ord "C") then ui_publish "R_OUT" u
  else if decide (ch = ord "j" \/ ch = ord "J") then ui_publish "CAR_CCW" u
  else if decide (ch = ord "k" \/ ch = ord "K") then ui_publish "CAR_CW" u
  else if decide (ch = ord "1") then ui_publish "P1_DOWN" u
  else if decide (ch = ord "2") then ui_publish "P2_DOWN" u
  else if decide (ch = ord "3") then ui_publish "P3_DOWN" u
  else if decide (ch = ord "4") then ui_publish "P4_DOWN" u
  else if decide (ch = ord "!") then ui_publish "P1_UP" u
  else if decide (ch = ord "@") then ui_publish "P2_UP" u
  else if decide (ch = ord "#") then ui_publish "P3_UP" u
  else if decide (ch = ord "$") then ui_publish "P4_UP" u
  else if decide (ch = ord "H") then ui_publish "G77" u
  else if decide (ch = ord "[") then ui_keep (step_down u)
  else if decide (ch = ord "]") then ui_keep (step_up u)
  else if decide (ch = ord "-") then ui_keep (feed_down u)
  else if decide (ch = ord "=") then ui_keep (feed_up u)
  else if decide (ch = ord "x" \/ ch = ord "X") then Ok (Some u)
  else if decide (ch = 27%Z \/ ch = 7%Z) then Ok None
  else Ok (Some u).

(** The loop on the keys pressed: it ends when a key makes it return,
    when an exception leaves it, or here when the keys run out. *)
Fixpoint loop (keys : list Z) (u : Ui) : result (option Ui) :=
  match keys with
  | [] => Ok (Some u)
  | ch :: keys =>
      match on_key ch u with
      | Ok (Some u) => loop keys u
      | Ok None => Ok None
      | Raise e => Raise e
      end
  end.

End Keys.

End JogCli.

(* ================================================================= *)
(** ** Sessions

    The converter calls its emitters one after the other on one
    [CarouselState]; a session is the list of these calls. *)

Inductive CarouselOp : Type :=
| OpHome
| OpSelect (pen f_z : Z)
| OpPenUp (pen f_z : Z).

Definition apply_op (st : SvgToGcode.CarouselState) (op : CarouselOp)
    : SvgToGcode.CarouselState :=
  match op with
  | OpHome => snd (SvgToGcode.gcode_home_carousel st)
  | OpSelect pen f_z => snd (SvgToGcode.gcode_pen_select_ccw pen f_z st)
  | OpPenUp pen f_z => snd (SvgToGcode.gcode_pen_up pen f_z st)
  end.

Definition run_ops (st : SvgToGcode.CarouselState) (ops : list CarouselOp)
    : SvgToGcode.CarouselState :=
  fold_left apply_op ops st.

Definition is_select (op : CarouselOp) : Prop :=
  match op with OpHome => False | _ => True end.

(** An instance of [math.hypot] to run the model on: the square root of
    [x*x + y*y] rounded down to a multiple of [2^-52]. *)
Definition hypot_dyadic (x y : Q) : Q :=
  let s := Qred (x * x + y * y) in
  Qmake (Z.sqrt (Qnum s * Zpos (Qden s) * 2 ^ 104)) (Qden s * 2 ^ 52).

(** [text.splitlines()]. *)
Fixpoint splitlines_aux (cur : string) (s : string) : list string :=
  match s with
  | EmptyString => if decide (cur = EmptyString) then [] else [cur]
  | String c s' =>
      if Ascii.eqb c (ascii_of_nat 10) then cur :: splitlines_aux EmptyString s'
      else splitlines_aux (cur +:+ String c EmptyString) s'
  end.

Definition splitlines (s : string) : list string :=
  splitlines_aux EmptyString s.

(* ================================================================= *)
(** ** The vocabulary of the properties *)

(** The block as the specification describes it: possibly after a
    preamble, the switch to absolute positioning, one move line to
    [target] at [feed], the switch back to incremental positioning, and
    for a pen-down the three pulses. *)
Definition pen_select_block (is_down : bool) (lines : list string) : Prop :=
  exists (pre : list string) (target : Q) (feed : Z),
    lines
    = pre
      ++ ["G90";
          "G1 Z" +:+ format_3f target +:+ " F" +:+ format_int feed;
          "G91"]%string
      ++ (if is_down then ["G101"; "G101"; "G101"]%string else []).

(** The count of the specification: [max(1, ceil(lengthWall / step_mm))]. *)
Definition spec_sample_count (length_wall step_mm : Q) : Z :=
  Z.max 1 (Qceiling (length_wall / step_mm)).

(** The parameter values of a sample of [n] steps. *)
Definition sample_params (n : Z) : list Q :=
  map (fun i => fdiv (inject_Z i) (inject_Z n)) (range 0 (n + 1)).

(** The points the loop of [move_xy_segmented] visits: [i/n] of the
    way from the start to the target, for [i = 1 .. n], each operation
    being the float operation. *)
Definition segment_point (x0 y0 x1 y1 : Q) (n i : Z) : Q * Q :=
  let t := fdiv (inject_Z i) (inject_Z n) in
  (fadd x0 (fmul (fsub x1 x0) t), fadd y0 (fmul (fsub y1 y0) t)).

Definition segment_points (x0 y0 x1 y1 : Q) (n : Z) : list (Q * Q) :=
  map (segment_point x0 y0 x1 y1 n) (range 1 (n + 1)).


(** The commands [_build_gcode] has a branch for. *)
Definition buildable (cmd : string) : Prop :=
  cmd ∈ dom JogCli.MOTOR_CMDS \/ cmd ∈ JogCli.CAROUSEL_CMDS
  \/ cmd = "G77"%string.

(** How many times the builder was entered for a key of the cache. *)
Definition build_count (k : JogCli.Key * string) (c : JogCli.Cache) : nat :=
  length (filter (fun k' => k' = k) (JogCli.build_log c)).

(** What every reachable cache satisfies: an entry holds the text the
    builder gives for its key, and a key the builder succeeds on has been
    built once if it is in the cache and never otherwise. *)
Definition cache_inv (c : JogCli.Cache) : Prop :=
  forall k : JogCli.Key * string,
    (forall g, JogCli._cache c !! k = Some g ->
               JogCli._build_gcode (fst k) (snd k) = Ok g)
    /\ ((exists g, JogCli._build_gcode (fst k) (snd k) = Ok g) ->
        build_count k c
        = match JogCli._cache c !! k with Some _ => 1%nat | None => 0%nat end).

(** The closed set of command identifiers: the motor jogs and
    [SPECIAL_CMDS] (home, the carousel jogs, the pen commands). *)
Definition COMMAND_IDS : gset string :=
  dom JogCli.MOTOR_CMDS ∪ JogCli.SPECIAL_CMDS.

(** The dynamic command identifiers: the pen commands and home. *)
Definition is_dynamic (cmd : string) : Prop :=
  cmd ∈ JogCli.PEN_CMDS \/ cmd = "G77"%string.

(** The text of the home program of the jog CLI. *)
Definition home_text : string :=
  join_lines ["G21"; "G90"; "M17"; "G77"; "G92 Z-56"]%string.

(** [Key(step=float(CURRENT["step"]), feed=int(CURRENT["feed"]))]. *)
Definition current_key (w : JogCli.World) : JogCli.Key :=
  {| JogCli.step := JogCli.step (JogCli.CURRENT w);
     JogCli.feed := JogCli.feed (JogCli.CURRENT w) |}.

(** The dynamic table only ever holds dynamic commands, and under
    [G77] the home text. *)
Definition dyn_inv (w : JogCli.World) : Prop :=
  forall cmd g,
    JogCli._dyn_gcode w !! cmd = Some g ->
    is_dynamic cmd /\ (cmd = "G77"%string -> g = home_text).

(** A character that is neither a slash nor a dot. *)
Definition plain_char (c : ascii) : Prop := c <> "/"%char /\ c <> "."%char.

Definition plain (s : string) : Prop :=
  Forall plain_char (list_ascii_of_string s).

(** The settings of the loop are choices, and the process uses them. *)
Definition ui_inv (u : JogCli.Ui) : Prop :=
  In (JogCli.ui_step u) JogCli.step_choices
  /\ In (JogCli.ui_feed u) JogCli.feed_choices
  /\ JogCli.CURRENT (JogCli.ui_world u)
     = {| JogCli.step := JogCli.ui_step u; JogCli.feed := JogCli.ui_feed u |}.

(** What the loop of [load_drawable_paths] keeps true of the colour map
    and the next free pen. *)
Definition pens_inv (acc : SvgToGcode.Loaded) : Prop :=
  (1 <= SvgToGcode.next_pen acc <= 5)%Z
  /\ (forall c p, SvgToGcode.color_to_pen acc !! c = Some p ->
                  (1 <= p < SvgToGcode.next_pen acc)%Z)
  /\ (forall p, (1 <= p < SvgToGcode.next_pen acc)%Z ->
                exists c, SvgToGcode.color_to_pen acc !! c = Some p)
  /\ (forall c1 c2 p, SvgToGcode.color_to_pen acc !! c1 = Some p ->
                      SvgToGcode.color_to_pen acc !! c2 = Some p ->
                      c1 = c2).

(** The entry of [drawable] for a path, with the pen read off a colour
    map. *)
Definition entry_of (parse_color : option string -> result (option string))
    (default_pen : Z) (c2p : gmap string Z)
    (item : SvgToGcode.Path * gmap string string)
    : list (SvgToGcode.Path * Z) :=
  match SvgToGcode.stroke_of parse_color (snd item) with
  | Ok (Some stroke) => [(fst item, default default_pen (c2p !! stroke))]
  | _ => []
  end.


(** Arguments for the examples: the defaults of the parser but for the
    steps. *)
Definition demo_args : SvgToGcode.Args :=
  {| SvgToGcode.svg := "in.svg"; SvgToGcode.D_mm := 1860;
     SvgToGcode.fit_frac := 7 # 10; SvgToGcode.step_mm := 400;
     SvgToGcode.travel_step_mm := 500; SvgToGcode.f_travel := 600;
     SvgToGcode.f_draw := 300; SvgToGcode.f_z := 600;
     SvgToGcode.dot_dwell_s := 1 # 5; SvgToGcode.bbox_pen := 1;
     SvgToGcode.default_pen := 1; SvgToGcode.home_carousel := true;
     SvgToGcode.out_bbox := "bbox_dots.gcode";
     SvgToGcode.out_draw := "drawing.gcode" |}.

(** The mapper that [main] builds from the bounding box. *)
Definition main_mapper (args : SvgToGcode.Args) (x_min x_max y_min y_max : Q)
    : SvgToGcode.SvgToWallMapper :=
  let target := SvgToGcode.fit_frac args * SvgToGcode.D_mm args in
  {| SvgToGcode.u_center := (x_min + x_max) / 2;
     SvgToGcode.v_center := (y_min + y_max) / 2;
     SvgToGcode.scale :=
       py_min (target / (x_max - x_min)) (target / (y_max - y_min));
     SvgToGcode.wall_cx := SvgToGcode.D_mm args / 2;
     SvgToGcode.wall_cy := SvgToGcode.D_mm args / 2 |}.

(** The three lines of a pen select or pen up to the angle [target]. *)
Definition select_lines (target : Q) (f_z : Z) : list string :=
  ["G90"; "G1 Z" +:+ format_3f target +:+ " F" +:+ format_int f_z;
   "G91"]%string.

(** A move of the two motors at a feed rate. *)
Definition xy_move_line (feed : Z) (line : string) : Prop :=
  exists dL dR : Q,
    line = ("G1 X" +:+ format_3f dL +:+ " Y" +:+ format_3f_opp dR
              +:+ " F" +:+ format_int feed)%string.

(** The positioning mode of the firmware: [G90] makes coordinates
    absolute, [G91] makes them increments. *)
Inductive mode : Type := Absolute | Incremental.

Definition mode_after (m : option mode) (line : string) : option mode :=
  if String.eqb line "G90" then Some Absolute
  else if String.eqb line "G91" then Some Incremental
  else m.

(** The motor moves of the programs are increments of the two string
    lengths, and their carousel moves are absolute angles: a line [G1 X...]
    is right in incremental mode only, a line [G1 Z...] in absolute mode
    only. *)
Definition line_ok (m : option mode) (line : string) : bool :=
  if String.prefix "G1 X" line then
    match m with Some Incremental => true | _ => false end
  else if String.prefix "G1 Z" line then
    match m with Some Absolute => true | _ => false end
  else true.

Fixpoint modes_respected (m : option mode) (lines : list string) : bool :=
  match lines with
  | [] => true
  | line :: lines =>
      line_ok m line && modes_respected (mode_after m line) lines
  end.

Definition final_mode (m : option mode) (lines : list string)
    : option mode :=
  fold_left mode_after lines m.

(** A program that respects the modes from an unknown mode on and ends
    in incremental mode. *)
Definition well_moded (lines : list string) : Prop :=
  modes_respected None lines = true
  /\ final_mode None lines = Some Incremental.

(** Lines that respect the modes from incremental mode on and end in
    it. *)
Definition block_ok (lines : list string) : Prop :=
  modes_respected (Some Incremental) lines = true
  /\ final_mode (Some Incremental) lines = Some Incremental.

(** [p2] continues [p1]: more lines, and a carousel that has not turned
    back. *)
Definition continues (p1 p2 : SvgToGcode.Prog) : Prop :=
  (exists more, SvgToGcode.g_lines p2 = SvgToGcode.g_lines p1 ++ more)
  /\ match SvgToGcode.z (SvgToGcode.g_st p1) with
     | None => True
     | Some a =>
         exists b, SvgToGcode.z (SvgToGcode.g_st p2) = Some b /\ a <= b
     end.

(** The step of a program: it continues, and stays well moded. *)
Definition advances (p1 p2 : SvgToGcode.Prog) : Prop :=
  continues p1 p2
  /\ (well_moded (SvgToGcode.g_lines p1) ->
      well_moded (SvgToGcode.g_lines p2)).

(** A path for the examples: the segment from [(0, 0)] to [(30, 40)]. *)
Definition demo_path : SvgToGcode.Path :=
  {| SvgToGcode.point := fun t => (30 * t, 40 * t);
     SvgToGcode.length_svg := 50 |}.

(** A text of blanks, a text of digits that is not empty, and a number
    between blanks, as [\s*(\d+)\s*] reads it. *)
Definition blanks (p : string) : Prop :=
  forallb isspace (list_ascii_of_string p) = true.

Definition digits (d : string) : Prop :=
  d <> EmptyString /\ forallb isdigit (list_ascii_of_string d) = true.

Definition padded_number (t d : string) : Prop :=
  exists p q, blanks p /\ blanks q /\ digits d /\ t = (p +:+ d +:+ q)%string.

(* ================================================================= *)
(** ** Ceilings *)

Lemma Qceiling_pos (q : Q) : 0 < q -> (1 <= Qceiling q)%Z.
Proof.
  intros Hq. pose proof (Qle_ceiling q) as Hc.
  assert (H : inject_Z 0 < inject_Z (Qceiling q))
    by (eapply Qlt_le_trans; [exact Hq | exact Hc]).
  rewrite <- Zlt_Qlt in H. lia.
Qed.

Lemma inject_Z_pred (z : Z) : inject_Z (z - 1) == inject_Z z - 1.
Proof.
  unfold Z.sub. rewrite inject_Z_plus, inject_Z_opp. reflexivity.
Qed.

Lemma inject_Z_succ (z : Z) : inject_Z (z + 1) == inject_Z z + 1.
Proof. rewrite inject_Z_plus. reflexivity. Qed.

(* ================================================================= *)
(** ** The CCW-only target *)

Lemma ccw_loop_step (target current_z : Q) :
  ccw_loop target current_z =
  if Qlt_le_dec target current_z then ccw_loop (target + 360) current_z
  else target.
Proof.
  rewrite ccw_loop_equation_1.
  destruct (Qlt_le_dec target current_z); reflexivity.
Qed.

(** The loop stops on the first multiple of a turn that reaches the
    current angle. *)
Lemma ccw_loop_least (target current_z : Q) :
  exists k : nat,
    ccw_loop target current_z == target + 360 * inject_Z (Z.of_nat k)
    /\ current_z <= ccw_loop target current_z
    /\ forall j : Z, (0 <= j)%Z -> current_z <= target + 360 * inject_Z j ->
                     (Z.of_nat k <= j)%Z.
Proof.
  funelim (ccw_loop target current_z).
  - match goal with
    | IH : exists _ : nat, _ |- _ => destruct IH as (k & Hk & Hge & Hmin)
    end.
    exists (S k). split; [| split].
    + rewrite Hk, Nat2Z.inj_succ. unfold Z.succ.
      rewrite inject_Z_succ. ring.
    + exact Hge.
    + intros j Hj Hreach.
      assert (Hj1 : (1 <= j)%Z).
      { destruct (Z.eq_dec j 0%Z) as [-> | Hne]; [| lia].
        change (inject_Z 0) with 0 in Hreach. lra. }
      assert (Hpred : (Z.of_nat k <= j - 1)%Z).
      { apply Hmin; [lia |]. rewrite inject_Z_pred. lra. }
      lia.
  - exists 0%nat. split; [| split].
    + change (inject_Z (Z.of_nat 0)) with 0. ring.
    + assumption.
    + intros j Hj _. exact Hj.
Qed.

Lemma ccw_loop_ge (target current_z : Q) :
  current_z <= ccw_loop target current_z.
Proof. destruct (ccw_loop_least target current_z) as (k & _ & H & _). exact H. Qed.

(** A pen select of the converter stores its target, for a pen of the
    table; for another pen it raises and leaves the state alone. *)
Lemma select_state (pen f_z : Z) (st : SvgToGcode.CarouselState) :
  snd (SvgToGcode.gcode_pen_select_ccw pen f_z st)
  = match SvgToGcode.PEN_SLOTS_Z !! pen with
    | Some base =>
        {| SvgToGcode.z :=
             Some (SvgToGcode.ccw_only_target (SvgToGcode.z st)
                     (inject_Z base)) |}
    | None => st
    end.
Proof.
  unfold SvgToGcode.gcode_pen_select_ccw.
  destruct (SvgToGcode.PEN_SLOTS_Z !! pen); reflexivity.
Qed.

Lemma apply_op_known (op : CarouselOp) (st : SvgToGcode.CarouselState)
    (c : Q) :
  SvgToGcode.z st = Some c ->
  exists c', SvgToGcode.z (apply_op st op) = Some c'
             /\ (is_select op -> c <= c').
Proof.
  intros Hc. destruct op as [| pen f_z | pen f_z]; simpl.
  - eexists. split; [reflexivity | intros []].
  - rewrite select_state.
    destruct (SvgToGcode.PEN_SLOTS_Z !! pen) as [base |]; simpl.
    + rewrite Hc. simpl. eexists. split; [reflexivity |].
      intros _. apply ccw_loop_ge.
    + exists c. split; [exact Hc | intros _; lra].
  - unfold SvgToGcode.gcode_pen_up. rewrite select_state.
    destruct (SvgToGcode.PEN_SLOTS_Z !! pen) as [base |]; simpl.
    + rewrite Hc. simpl. eexists. split; [reflexivity |].
      intros _. apply ccw_loop_ge.
    + exists c. split; [exact Hc | intros _; lra].
Qed.

Lemma run_ops_known (ops : list CarouselOp) :
  forall (st : SvgToGcode.CarouselState) (c : Q),
    SvgToGcode.z st = Some c ->
    exists c', SvgToGcode.z (run_ops st ops) = Some c'
               /\ (Forall is_select ops -> c <= c').
Proof.
  induction ops as [| op ops IH]; intros st c Hc; simpl.
  - exists c. split; [exact Hc | intros _; lra].
  - destruct (apply_op_known op st c Hc) as (c1 & Hc1 & Hle1).
    destruct (IH _ _ Hc1) as (c2 & Hc2 & Hle2).
    exists c2. split; [exact Hc2 |].
    intros Hall. inversion Hall; subst.
    eapply Qle_trans; [apply Hle1 | apply Hle2]; assumption.
Qed.

(** *** The jog CLI's pen commands *)

Lemma pen_cmd_cases (cmd : string) :
  cmd ∈ JogCli.PEN_CMDS ->
  cmd = "P1_UP"%string \/ cmd = "P2_UP"%string \/ cmd = "P3_UP"%string
  \/ cmd = "P4_UP"%string \/ cmd = "P1_DOWN"%string \/ cmd = "P2_DOWN"%string
  \/ cmd = "P3_DOWN"%string \/ cmd = "P4_DOWN"%string.
Proof.
  unfold JogCli.PEN_CMDS.
  rewrite !elem_of_union, !elem_of_singleton. tauto.
Qed.

Lemma pen_cmd_in (cmd : string) :
  cmd = "P1_UP"%string \/ cmd = "P2_UP"%string \/ cmd = "P3_UP"%string
  \/ cmd = "P4_UP"%string \/ cmd = "P1_DOWN"%string \/ cmd = "P2_DOWN"%string
  \/ cmd = "P3_DOWN"%string \/ cmd = "P4_DOWN"%string ->
  cmd ∈ JogCli.PEN_CMDS.
Proof.
  unfold JogCli.PEN_CMDS.
  rewrite !elem_of_union, !elem_of_singleton. tauto.
Qed.

Lemma build_pen_gcode_slot (pen base : Z) (is_down : bool) (fz : Z)
    (w : JogCli.World) :
  JogCli.PEN_SLOT_Z !! pen = Some base ->
  JogCli.build_pen_gcode pen is_down fz w
  = (let target := JogCli._ccw_only_target (JogCli._z w) (inject_Z base) in
     (Ok (join_lines
            (["G21"; "G90"; "M17";
              "G1 Z" +:+ format_3f target +:+ " F" +:+ format_int fz]%string
             ++ (if is_down then ["G101"; "G101"; "G101"]%string else []))),
      JogCli._z_set (Some target) w)).
Proof.
  intros Hslot. unfold JogCli.build_pen_gcode. rewrite Hslot.
  destruct is_down; simpl; rewrite ?app_nil_r; reflexivity.
Qed.

(** A published pen command is parsed into a pen of the table and goes
    through [build_pen_gcode]; its text lands in the dynamic table. *)
Lemma publish_pen (cmd : string) (w : JogCli.World) :
  cmd ∈ JogCli.PEN_CMDS ->
  exists (pen base : Z) (is_down : bool) (gcode : string),
    JogCli.PEN_SLOT_Z !! pen = Some base
    /\ JogCli.build_pen_gcode pen is_down 2000 w
       = (Ok gcode,
          JogCli._z_set
            (Some (JogCli._ccw_only_target (JogCli._z w) (inject_Z base))) w)
    /\ JogCli.publish_cmd cmd w
       = (Ok tt,
          JogCli.set_dynamic_gcode cmd gcode
            (JogCli._z_set
               (Some (JogCli._ccw_only_target (JogCli._z w) (inject_Z base)))
               w)).
Proof.
  intros Hin.
  assert (Hgen : forall (pen base : Z) (is_down : bool),
             JogCli.PEN_SLOT_Z !! pen = Some base ->
             String.get 1 cmd = Some (ascii_of_nat (48 + Z.to_nat pen)) ->
             int_of_char (ascii_of_nat (48 + Z.to_nat pen)) = Some pen ->
             endswith cmd "DOWN" = is_down ->
             exists (pen base : Z) (is_down : bool) (gcode : string),
               JogCli.PEN_SLOT_Z !! pen = Some base
               /\ JogCli.build_pen_gcode pen is_down 2000 w
                  = (Ok gcode,
                     JogCli._z_set
                       (Some (JogCli._ccw_only_target (JogCli._z w)
                                (inject_Z base))) w)
               /\ JogCli.publish_cmd cmd w
                  = (Ok tt,
                     JogCli.set_dynamic_gcode cmd gcode
                       (JogCli._z_set
                          (Some (JogCli._ccw_only_target (JogCli._z w)
                                   (inject_Z base))) w))).
  { intros pen base is_down Hslot Hget Hint Hdown.
    exists pen, base, is_down. eexists.
    split; [exact Hslot |].
    split; [apply build_pen_gcode_slot; exact Hslot |].
    unfold JogCli.publish_cmd.
    destruct (decide (cmd ∈ JogCli.PEN_CMDS)); [| contradiction].
    rewrite Hget, Hint, Hdown.
    rewrite (build_pen_gcode_slot pen base is_down 2000 w Hslot).
    reflexivity. }
  apply pen_cmd_cases in Hin.
  destruct Hin as [-> | [-> | [-> | [-> | [-> | [-> | [-> | ->]]]]]]].
  - apply (Hgen 1%Z 89%Z false); reflexivity.
  - apply (Hgen 2%Z 161%Z false); reflexivity.
  - apply (Hgen 3%Z 233%Z false); reflexivity.
  - apply (Hgen 4%Z 305%Z false); reflexivity.
  - apply (Hgen 1%Z 89%Z true); reflexivity.
  - apply (Hgen 2%Z 161%Z true); reflexivity.
  - apply (Hgen 3%Z 233%Z true); reflexivity.
  - apply (Hgen 4%Z 305%Z true); reflexivity.
Qed.

Lemma G77_not_pen : "G77"%string ∉ JogCli.PEN_CMDS.
Proof.
  intros H. apply pen_cmd_cases in H.
  repeat (destruct H as [H | H]; [discriminate H |]). discriminate H.
Qed.

Lemma carousel_not_pen (cmd : string) :
  cmd ∈ JogCli.CAROUSEL_CMDS -> cmd ∉ JogCli.PEN_CMDS.
Proof.
  unfold JogCli.CAROUSEL_CMDS. rewrite elem_of_union, !elem_of_singleton.
  intros [-> | ->] H; apply pen_cmd_cases in H;
    repeat (destruct H as [H | H]; [discriminate H |]); discriminate H.
Qed.

(** Serving a request and changing the settings never touch the angle;
    neither does the cache. *)
Lemma serve_gcode_z (cmd : string) (w : JogCli.World) :
  JogCli._z (snd (JogCli.serve_gcode cmd w)) = JogCli._z w.
Proof.
  unfold JogCli.serve_gcode.
  destruct (JogCli._dyn_gcode w !! cmd); [reflexivity |].
  destruct (JogCli.get_gcode _ _ _) as [[g | e] c]; reflexivity.
Qed.

Lemma do_GET_z (p : string) (w : JogCli.World) :
  JogCli._z (snd (JogCli.do_GET p w)) = JogCli._z w.
Proof.
  unfold JogCli.do_GET.
  destruct (decide (p = "/health"%string)); [reflexivity |].
  destruct (startswith p "/g/" && endswith p ".gcode");
    [apply serve_gcode_z | reflexivity].
Qed.

(** Once known, the angle stays known, whatever happens next. *)
Lemma publish_cmd_known (cmd : string) (w : JogCli.World) (c : Q) :
  JogCli._z w = Some c ->
  exists c', JogCli._z (snd (JogCli.publish_cmd cmd w)) = Some c'
             /\ (cmd ∈ JogCli.PEN_CMDS -> c <= c').
Proof.
  intros Hc.
  destruct (decide (cmd ∈ JogCli.PEN_CMDS)) as [Hpen | Hpen].
  - destruct (publish_pen cmd w Hpen) as (pen & base & d & g & _ & _ & ->).
    simpl. rewrite Hc. simpl. eexists. split; [reflexivity |].
    intros _. apply ccw_loop_ge.
  - unfold JogCli.publish_cmd.
    destruct (decide (cmd ∈ JogCli.PEN_CMDS)); [contradiction |].
    destruct (decide (cmd = "G77"%string)).
    + simpl. eexists. split; [reflexivity | intros H; contradiction].
    + destruct (JogCli.get_gcode _ _ _) as [[g | e] cache]; simpl.
      * destruct (decide (cmd ∈ JogCli.CAROUSEL_CMDS)); simpl.
        -- rewrite Hc. simpl. eexists.
           split; [reflexivity | intros H; contradiction].
        -- exists c. split; [exact Hc | intros H; contradiction].
      * exists c. split; [exact Hc | intros H; contradiction].
Qed.

Lemma step_world_known (ev : JogCli.Event) (w : JogCli.World) (c : Q) :
  JogCli._z w = Some c ->
  exists c', JogCli._z (JogCli.step_world w ev) = Some c'.
Proof.
  intros Hc. destruct ev as [cmd | s f | p]; simpl.
  - destruct (publish_cmd_known cmd w c Hc) as (c' & H & _). eauto.
  - eauto.
  - rewrite do_GET_z. eauto.
Qed.

Lemma run_known (evs : list JogCli.Event) :
  forall (w : JogCli.World) (c : Q),
    JogCli._z w = Some c -> exists c', JogCli._z (JogCli.run w evs) = Some c'.
Proof.
  induction evs as [| ev evs IH]; intros w c Hc; simpl.
  - eauto.
  - destruct (step_world_known ev w c Hc) as (c1 & Hc1). eapply IH, Hc1.
Qed.

Lemma run_pens_monotone (cmds : list string) :
  forall (w : JogCli.World) (c : Q),
    Forall (fun cmd => cmd ∈ JogCli.PEN_CMDS) cmds ->
    JogCli._z w = Some c ->
    exists c', JogCli._z (JogCli.run w (map JogCli.Publish cmds)) = Some c'
               /\ c <= c'.
Proof.
  induction cmds as [| cmd cmds IH]; intros w c Hall Hc; simpl.
  - exists c. split; [exact Hc | lra].
  - inversion Hall as [| ? ? Hcmd Hrest]; subst.
    destruct (publish_cmd_known cmd w c Hc) as (c1 & Hc1 & Hle1).
    destruct (IH _ _ Hrest Hc1) as (c2 & Hc2 & Hle2).
    exists c2. split; [exact Hc2 |].
    eapply Qle_trans; [apply Hle1; exact Hcmd | exact Hle2].
Qed.

Lemma pen_slot_table (pen : Z) :
  (1 <= pen <= 4)%Z
  <-> exists base : Z, SvgToGcode.PEN_SLOTS_Z !! pen = Some base.
Proof.
  split.
  - intros Hpen.
    assert (Hcases : pen = 1%Z \/ pen = 2%Z \/ pen = 3%Z \/ pen = 4%Z) by lia.
    destruct Hcases as [-> | [-> | [-> | ->]]]; eexists; reflexivity.
  - intros [base H]. unfold SvgToGcode.PEN_SLOTS_Z in H.
    cbn [list_to_map foldr fst snd] in H.
    destruct (decide (1 <= pen <= 4)%Z) as [Hin | Hout]; [exact Hin |].
    rewrite !lookup_insert_ne, lookup_empty in H by lia. discriminate.
Qed.

Lemma ccw_only_target_slot (pen base : Z) (current : Q) :
  SvgToGcode.PEN_SLOTS_Z !! pen = Some base ->
  let target := SvgToGcode.ccw_only_target (Some current) (inject_Z base) in
  (exists k : Z,
      (0 <= k)%Z
      /\ target == inject_Z base + 360 * inject_Z k
      /\ forall j : Z, (0 <= j)%Z ->
                       current <= inject_Z base + 360 * inject_Z j ->
                       (k <= j)%Z)
  /\ current <= target
  /\ (forall (f_z : Z) (st : SvgToGcode.CarouselState),
         SvgToGcode.z st = Some current ->
         snd (SvgToGcode.gcode_pen_select_ccw pen f_z st)
         = {| SvgToGcode.z := Some target |})
  /\ JogCli._ccw_only_target (Some current) (inject_Z base) = target
  /\ (forall (is_down : bool) (fz : Z) (w : JogCli.World),
         JogCli._z w = Some current ->
         JogCli._z (snd (JogCli.build_pen_gcode pen is_down fz w))
         = Some target).
Proof.
  intros Hslot target.
  destruct (ccw_loop_least (inject_Z base) current) as (k & Hk & Hge & Hmin).
  repeat split.
  - exists (Z.of_nat k). split; [lia |]. split; [exact Hk | exact Hmin].
  - exact Hge.
  - intros f_z st Hst. rewrite select_state, Hslot, Hst. reflexivity.
  - intros is_down fz w Hw.
    rewrite (build_pen_gcode_slot pen base is_down fz w Hslot).
    simpl. rewrite Hw. reflexivity.
Qed.

(** C1: for a pen slot in 1..4, with table angle [base], and a known
    angle [current], the target is [base + 360*k] for the least
    non-negative integer [k] that reaches [current] (so it is congruent
    to [base] modulo 360 and not below [current]); both programs store it
    as the new angle; and over any sequence of pen selects from a known
    angle the stored angle never decreases. *)
Theorem ccw_only_target_least_turn (pen : Z) (current : Q) :
  (1 <= pen <= 4)%Z ->
  exists base : Z,
    SvgToGcode.PEN_SLOTS_Z !! pen = Some base
    /\ JogCli.PEN_SLOT_Z !! pen = Some base
    /\ let target :=
         SvgToGcode.ccw_only_target (Some current) (inject_Z base) in
       (exists k : Z,
           (0 <= k)%Z
           /\ target == inject_Z base + 360 * inject_Z k
           /\ forall j : Z, (0 <= j)%Z ->
                            current <= inject_Z base + 360 * inject_Z j ->
                            (k <= j)%Z)
       /\ current <= target
       /\ (forall (f_z : Z) (st : SvgToGcode.CarouselState),
              SvgToGcode.z st = Some current ->
              snd (SvgToGcode.gcode_pen_select_ccw pen f_z st)
              = {| SvgToGcode.z := Some target |})
       /\ JogCli._ccw_only_target (Some current) (inject_Z base) = target
       /\ (forall (is_down : bool) (fz : Z) (w : JogCli.World),
              JogCli._z w = Some current ->
              JogCli._z (snd (JogCli.build_pen_gcode pen is_down fz w))
              = Some target)
       /\ (forall (ops : list CarouselOp) (st : SvgToGcode.CarouselState),
              Forall is_select ops ->
              SvgToGcode.z st = Some current ->
              exists c', SvgToGcode.z (run_ops st ops) = Some c'
                         /\ current <= c')
       /\ (forall (cmds : list string) (w : JogCli.World),
              Forall (fun cmd => cmd ∈ JogCli.PEN_CMDS) cmds ->
              JogCli._z w = Some current ->
              exists c', JogCli._z (JogCli.run w (map JogCli.Publish cmds))
                         = Some c'
                         /\ current <= c').
Proof.
  intros Hpen. apply pen_slot_table in Hpen. destruct Hpen as [base Hslot].
  exists base. split; [exact Hslot |]. split; [exact Hslot |].
  intros target.
  destruct (ccw_only_target_slot pen base current Hslot)
    as (Hleast & Hge & Hsvg & Hsame & Hjog).
  split; [exact Hleast |]. split; [exact Hge |]. split; [exact Hsvg |].
  split; [exact Hsame |]. split; [exact Hjog |]. split.
  - intros ops st Hall Hst.
    destruct (run_ops_known ops st current Hst) as (c' & Hc' & Hle).
    exists c'. split; [exact Hc' | apply Hle, Hall].
  - intros cmds w Hall Hw. apply run_pens_monotone; assumption.
Qed.

(** Scenario C: from 120 degrees, pen 1 (slot 89) is reached at 449. *)
Lemma ccw_only_target_least_turn_witness :
  exists base : Z,
    SvgToGcode.PEN_SLOTS_Z !! 1%Z = Some base
    /\ 120 <= SvgToGcode.ccw_only_target (Some 120) (inject_Z base)
    /\ snd (SvgToGcode.gcode_pen_select_ccw 1 600
              {| SvgToGcode.z := Some 120 |})
       = {| SvgToGcode.z :=
              Some (SvgToGcode.ccw_only_target (Some 120) (inject_Z base)) |}
    /\ SvgToGcode.ccw_only_target (Some 120) (inject_Z 89) = 449.
Proof.
  destruct (ccw_only_target_least_turn 1 120 ltac:(lia))
    as (base & Hslot & _ & H).
  cbv zeta in H. destruct H as (_ & Hge & Hst & _).
  exists base. split; [exact Hslot |]. split; [exact Hge |].
  split; [exact (Hst 600%Z {| SvgToGcode.z := Some 120 |} eq_refl) |].
  reflexivity.
Defined.

(** C10: a pen select stores its target also when the angle was unknown:
    the fallback returns the slot angle and the state becomes that angle;
    from then on the angle is known, whatever the session does next. *)
Theorem pen_select_makes_angle_known (pen base : Z) :
  SvgToGcode.PEN_SLOTS_Z !! pen = Some base ->
  (forall (f_z : Z) (st : SvgToGcode.CarouselState),
      snd (SvgToGcode.gcode_pen_select_ccw pen f_z st)
      = {| SvgToGcode.z :=
             Some (SvgToGcode.ccw_only_target (SvgToGcode.z st)
                     (inject_Z base)) |}
      /\ (SvgToGcode.z st = None ->
          SvgToGcode.gcode_pen_select_ccw pen f_z st
          = (Ok ["G90";
                 "G1 Z" +:+ format_3f (inject_Z base) +:+ " F"
                   +:+ format_int f_z;
                 "G91"]%string,
             {| SvgToGcode.z := Some (inject_Z base) |}))
      /\ forall ops : list CarouselOp,
          exists c : Q,
            SvgToGcode.z
              (run_ops (snd (SvgToGcode.gcode_pen_select_ccw pen f_z st)) ops)
            = Some c)
  /\ (forall (is_down : bool) (fz : Z) (w : JogCli.World),
         JogCli._z (snd (JogCli.build_pen_gcode pen is_down fz w))
         = Some (JogCli._ccw_only_target (JogCli._z w) (inject_Z base))
         /\ (JogCli._z w = None ->
             JogCli._z (snd (JogCli.build_pen_gcode pen is_down fz w))
             = Some (inject_Z base))
         /\ forall evs : list JogCli.Event,
             exists c : Q,
               JogCli._z
                 (JogCli.run (snd (JogCli.build_pen_gcode pen is_down fz w))
                    evs)
               = Some c)
  /\ (forall (cmd : string) (w : JogCli.World) (evs : list JogCli.Event),
         cmd ∈ JogCli.PEN_CMDS ->
         exists c : Q,
           JogCli._z (JogCli.run w (JogCli.Publish cmd :: evs)) = Some c).
Proof.
  intros Hslot. split; [| split].
  - intros f_z st.
    assert (Hsnd : snd (SvgToGcode.gcode_pen_select_ccw pen f_z st)
                   = {| SvgToGcode.z :=
                          Some (SvgToGcode.ccw_only_target (SvgToGcode.z st)
                                  (inject_Z base)) |})
      by (rewrite select_state, Hslot; reflexivity).
    split; [exact Hsnd |]. split.
    + intros Hnone. unfold SvgToGcode.gcode_pen_select_ccw.
      rewrite Hslot, Hnone. reflexivity.
    + intros ops. rewrite Hsnd.
      set (t := SvgToGcode.ccw_only_target (SvgToGcode.z st) (inject_Z base)).
      destruct (run_ops_known ops {| SvgToGcode.z := Some t |} t eq_refl)
        as (c & Hc & _).
      exists c. exact Hc.
  - intros is_down fz w.
    rewrite (build_pen_gcode_slot pen base is_down fz w Hslot). simpl.
    split; [reflexivity |]. split.
    + intros ->. reflexivity.
    + intros evs.
      apply (run_known evs _ (JogCli._ccw_only_target (JogCli._z w)
                                (inject_Z base))).
      reflexivity.
  - intros cmd w evs Hpen. simpl.
    destruct (publish_pen cmd w Hpen) as (p & b & d & g & _ & _ & ->).
    apply (run_known evs _ (JogCli._ccw_only_target (JogCli._z w)
                              (inject_Z b))).
    reflexivity.
Qed.

(** A fresh converter session: selecting pen 2 before any homing leaves
    the carousel state at the slot angle 161. *)
Lemma pen_select_makes_angle_known_witness :
  SvgToGcode.gcode_pen_select_ccw 2 600 {| SvgToGcode.z := None |}
  = (Ok ["G90"; "G1 Z161.000 F600"; "G91"]%string,
     {| SvgToGcode.z := Some 161 |})
  /\ JogCli._z (snd (JogCli.build_pen_gcode 2 true 2000 JogCli.initial_world))
     = Some 161.
Proof.
  destruct (pen_select_makes_angle_known 2 161 eq_refl) as (Hsvg & Hjog & _).
  split.
  - destruct (Hsvg 600%Z {| SvgToGcode.z := None |}) as (_ & H & _).
    exact (H eq_refl).
  - destruct (Hjog true 2000%Z JogCli.initial_world) as (_ & H & _).
    exact (H eq_refl).
Defined.

(* ================================================================= *)
(** ** The pen-select block *)

(** The jog CLI's pen-up block on a fresh process has no line that
    switches back to incremental positioning. *)
Lemma pen_block_without_G91 :
  let lines := ["G21"; "G90"; "M17"; "G1 Z89.000 F2000"]%string in
  fst (JogCli.build_pen_gcode 1 false 2000 JogCli.initial_world)
  = Ok (join_lines lines)
  /\ splitlines (join_lines lines) = lines
  /\ ~ pen_select_block false lines.
Proof.
  split; [reflexivity |]. split; [reflexivity |].
  intros (pre & target & feed & Heq).
  assert (Hin : In "G91"%string
                  ["G21"; "G90"; "M17"; "G1 Z89.000 F2000"]%string).
  { rewrite Heq. apply in_or_app. right. simpl. auto. }
  simpl in Hin. intuition discriminate.
Qed.

(** C4 (as amended): in the converter a pen-select block is exactly
    [G90], one move line to the computed target at the feed [f_z], [G91],
    and the pen-down is the separate block of exactly three [G101]; in the
    jog CLI the block is [G21], [G90], [M17], one move line to the
    computed target at the feed [fz], followed by exactly three [G101]
    for a pen-down and by nothing for a pen-up, with no switch back to
    incremental positioning. *)
Theorem pen_select_block_lines (pen base : Z) :
  SvgToGcode.PEN_SLOTS_Z !! pen = Some base ->
  (forall (f_z : Z) (st : SvgToGcode.CarouselState),
      let target :=
        SvgToGcode.ccw_only_target (SvgToGcode.z st) (inject_Z base) in
      fst (SvgToGcode.gcode_pen_select_ccw pen f_z st)
      = Ok ["G90";
            "G1 Z" +:+ format_3f target +:+ " F" +:+ format_int f_z;
            "G91"]%string
      /\ pen_select_block false
           ["G90";
            "G1 Z" +:+ format_3f target +:+ " F" +:+ format_int f_z;
            "G91"]%string
      /\ SvgToGcode.gcode_pen_up pen f_z st
         = SvgToGcode.gcode_pen_select_ccw pen f_z st)
  /\ SvgToGcode.gcode_pen_down = ["G101"; "G101"; "G101"]%string
  /\ (forall (is_down : bool) (fz : Z) (w : JogCli.World),
         let target :=
           JogCli._ccw_only_target (JogCli._z w) (inject_Z base) in
         fst (JogCli.build_pen_gcode pen is_down fz w)
         = Ok (join_lines
                 (["G21"; "G90"; "M17";
                   "G1 Z" +:+ format_3f target +:+ " F"
                     +:+ format_int fz]%string
                  ++ (if is_down then ["G101"; "G101"; "G101"]%string
                      else [])))).
Proof.
  intros Hslot. split; [| split].
  - intros f_z st target. split; [| split].
    + unfold SvgToGcode.gcode_pen_select_ccw. rewrite Hslot. reflexivity.
    + exists [], target, f_z. rewrite app_nil_r. reflexivity.
    + reflexivity.
  - reflexivity.
  - intros is_down fz w target.
    rewrite (build_pen_gcode_slot pen base is_down fz w Hslot). reflexivity.
Qed.

(** Scenario B in the converter, and pen 1 down in a fresh jog CLI. *)
Lemma pen_select_block_lines_witness :
  fst (SvgToGcode.gcode_pen_select_ccw 1 600
         {| SvgToGcode.z := Some SvgToGcode.Z_AFTER_G77 |})
  = Ok ["G90"; "G1 Z89.000 F600"; "G91"]%string
  /\ splitlines
       (match fst (JogCli.build_pen_gcode 1 true 2000 JogCli.initial_world)
        with Ok text => text | Raise _ => EmptyString end)
     = ["G21"; "G90"; "M17"; "G1 Z89.000 F2000";
        "G101"; "G101"; "G101"]%string.
Proof.
  destruct (pen_select_block_lines 1 89 eq_refl) as (Hsvg & _ & Hjog).
  split.
  - destruct (Hsvg 600%Z {| SvgToGcode.z := Some SvgToGcode.Z_AFTER_G77 |})
      as (H & _).
    rewrite H. reflexivity.
  - rewrite (Hjog true 2000%Z JogCli.initial_world). reflexivity.
Defined.

(* ================================================================= *)
(** ** Number formatting *)

Lemma round_half_even_comp (p q : Q) :
  p == q -> round_half_even p = round_half_even q.
Proof.
  intros E. unfold round_half_even.
  rewrite (Qfloor_comp _ _ E).
  assert (E' : p - inject_Z (Qfloor q) == q - inject_Z (Qfloor q))
    by (rewrite E; reflexivity).
  rewrite (Qcompare_comp _ _ E' (1 # 2) (1 # 2) (Qeq_refl _)).
  reflexivity.
Qed.

(** The rounded integer is within a half of the number. *)
Lemma round_half_even_near (q : Q) :
  inject_Z (round_half_even q) - (1 # 2) <= q
  /\ q <= inject_Z (round_half_even q) + (1 # 2).
Proof.
  unfold round_half_even.
  pose proof (Qfloor_le q) as Hlo.
  pose proof (Qlt_floor q) as Hhi.
  rewrite inject_Z_succ in Hhi.
  destruct (Qcompare (q - inject_Z (Qfloor q)) (1 # 2)) eqn:Hcmp.
  - apply Qeq_alt in Hcmp.
    destruct (Z.even (Qfloor q)); rewrite ?inject_Z_succ; lra.
  - apply Qlt_alt in Hcmp. lra.
  - apply Qgt_alt in Hcmp. rewrite inject_Z_succ. lra.
Qed.

Lemma round_half_even_nonneg (q : Q) :
  0 <= q -> (0 <= round_half_even q)%Z.
Proof.
  intros Hq. unfold round_half_even.
  assert (Hf : (0 <= Qfloor q)%Z).
  { change 0%Z with (Qfloor (inject_Z 0)). apply Qfloor_resp_le. exact Hq. }
  destruct (Qcompare _ _); [destruct (Z.even _) | |]; lia.
Qed.

(** A number that is not negative prints without a sign, as the integer
    part and the three decimals of its thousandths rounded to nearest. *)
Lemma format_3f_nonneg (q : Q) :
  0 <= q ->
  exists m : Z,
    (0 <= m)%Z
    /\ inject_Z m - (1 # 2) <= q * 1000 /\ q * 1000 <= inject_Z m + (1 # 2)
    /\ format_3f q
       = (format_int (m / 1000) +:+ "." +:+ pad3 (m mod 1000))%string.
Proof.
  intros Hq.
  assert (Habs : Qabs q * 1000 == q * 1000)
    by (rewrite (Qabs_pos q Hq); reflexivity).
  exists (round_half_even (q * 1000)).
  destruct (round_half_even_near (q * 1000)) as [Hlo Hhi].
  split; [apply round_half_even_nonneg; nra |].
  split; [exact Hlo |]. split; [exact Hhi |].
  unfold format_3f. rewrite (round_half_even_comp _ _ Habs).
  destruct (Qlt_le_dec q 0) as [Hneg | _]; [lra | reflexivity].
Qed.


Lemma format_3f_opp_nonzero (q : Q) :
  ~ q == 0 -> format_3f_opp q = format_3f (- q).
Proof.
  intros Hq. unfold format_3f_opp.
  destruct (Qeq_bool q 0) eqn:E; [| reflexivity].
  apply Qeq_bool_iff in E. contradiction.
Qed.

(* ================================================================= *)
(** ** Binary64 rounding *)

Lemma pow2_pos (e : Z) : 0 < pow2 e.
Proof. apply Qpower_0_lt. reflexivity. Qed.

Lemma pow2_plus (a b : Z) : pow2 (a + b) == pow2 a * pow2 b.
Proof. apply Qpower_plus. discriminate. Qed.

Lemma pow2_minus (a b : Z) : pow2 (a - b) == pow2 a / pow2 b.
Proof. apply Qpower_minus. discriminate. Qed.

Lemma pow2_le (a b : Z) : (a <= b)%Z -> pow2 a <= pow2 b.
Proof. intros H. apply Qpower_le_compat_l; [exact H | discriminate]. Qed.

Lemma pow2_lt (a b : Z) : (a < b)%Z -> pow2 a < pow2 b.
Proof. intros H. apply Qpower_lt_compat_l; [exact H | reflexivity]. Qed.

Lemma pow2_lt_inv (a b : Z) : pow2 a < pow2 b -> (a < b)%Z.
Proof. intros H. apply (Qpower_lt_compat_l_inv 2); [exact H | reflexivity]. Qed.

Lemma pow2_inject (n : Z) : (0 <= n)%Z -> inject_Z (2 ^ n) == pow2 n.
Proof. intros H. apply (Zpower_Qpower 2 n H). Qed.

(** An integer times a power of two that is not negative is an
    integer. *)
Lemma pow2_integer (j n : Z) :
  (0 <= n)%Z -> inject_Z j * pow2 n == inject_Z (j * 2 ^ n).
Proof.
  intros H. rewrite inject_Z_mult, (pow2_inject n H). reflexivity.
Qed.

(** Rounding to nearest does not cross an integer. *)
Lemma round_half_even_ge (x : Q) (j : Z) :
  inject_Z j <= x -> (j <= round_half_even x)%Z.
Proof.
  intros H.
  assert (Hf : (j <= Qfloor x)%Z).
  { rewrite <- (Qfloor_Z j). apply Qfloor_resp_le, H. }
  unfold round_half_even.
  destruct (Qcompare _ _); [destruct (Z.even _) | |]; lia.
Qed.

Lemma round_half_even_le (x : Q) (j : Z) :
  x <= inject_Z j -> (round_half_even x <= j)%Z.
Proof.
  intros H.
  assert (Hf : (Qfloor x <= j)%Z).
  { rewrite <- (Qfloor_Z j). apply Qfloor_resp_le, H. }
  pose proof (Qfloor_le x) as Hlo.
  assert (Hstrict : inject_Z (Qfloor x) < x -> (Qfloor x + 1 <= j)%Z).
  { intros Hlt. assert (Hq : inject_Z (Qfloor x) < inject_Z j) by lra.
    rewrite <- Zlt_Qlt in Hq. lia. }
  unfold round_half_even.
  destruct (Qcompare (x - inject_Z (Qfloor x)) (1 # 2)) eqn:Hcmp.
  - apply Qeq_alt in Hcmp. destruct (Z.even _); [lia |].
    apply Hstrict. lra.
  - lia.
  - apply Qgt_alt in Hcmp. apply Hstrict. lra.
Qed.

Lemma round_half_even_Z (j : Z) : round_half_even (inject_Z j) = j.
Proof.
  apply Z.le_antisymm.
  - apply round_half_even_le, Qle_refl.
  - apply round_half_even_ge, Qle_refl.
Qed.

(** The bracket of the exponent. *)
Lemma exponent53_bracket (a : Q) :
  0 < a ->
  pow2 (exponent53 a + 52) <= a /\ a < pow2 (exponent53 a + 53).
Proof.
  intros Ha. destruct a as [n d].
  assert (Hn : (0 < n)%Z).
  { unfold Qlt in Ha. cbn in Ha. lia. }
  unfold exponent53. cbn [Qnum Qden].
  set (ln := Z.log2 n). set (ld := Z.log2 (Z.pos d)).
  set (k := (ln - ld - 53)%Z).
  destruct (Z.log2_spec n Hn) as [Hn1 Hn2]. fold ln in Hn1, Hn2.
  destruct (Z.log2_spec (Z.pos d) ltac:(lia)) as [Hd1 Hd2].
  fold ld in Hd1, Hd2.
  assert (Hln : (0 <= ln)%Z) by apply Z.log2_nonneg.
  assert (Hld : (0 <= ld)%Z) by apply Z.log2_nonneg.
  assert (Qn1 : pow2 ln <= inject_Z n)
    by (rewrite <- (pow2_inject ln Hln), <- Zle_Qle; exact Hn1).
  assert (Qn2 : inject_Z n < pow2 (ln + 1))
    by (rewrite <- (pow2_inject (ln + 1)) by lia; rewrite <- Zlt_Qlt;
        replace (ln + 1)%Z with (Z.succ ln) by lia; exact Hn2).
  assert (Qd1 : pow2 ld <= inject_Z (Z.pos d))
    by (rewrite <- (pow2_inject ld Hld), <- Zle_Qle; exact Hd1).
  assert (Qd2 : inject_Z (Z.pos d) < pow2 (ld + 1))
    by (rewrite <- (pow2_inject (ld + 1)) by lia; rewrite <- Zlt_Qlt;
        replace (ld + 1)%Z with (Z.succ ld) by lia; exact Hd2).
  assert (Ea : n # d == inject_Z n / inject_Z (Z.pos d))
    by apply Qmake_Qdiv.
  assert (Hdpos : 0 < inject_Z (Z.pos d)) by reflexivity.
  pose proof (pow2_pos ld) as Pld. pose proof (pow2_pos (ld + 1)) as Pld1.
  pose proof (pow2_pos ln) as Pln.
  assert (Hlow : pow2 (k + 52) < n # d).
  { rewrite Ea. apply Qlt_shift_div_l; [exact Hdpos |].
    replace (k + 52)%Z with (ln - (ld + 1))%Z by (unfold k; lia).
    rewrite pow2_minus.
    apply Qlt_le_trans with (pow2 ln / pow2 (ld + 1) * pow2 (ld + 1)).
    - apply Qmult_lt_l; [| exact Qd2].
      apply Qlt_shift_div_l; [exact Pld1 | lra].
    - assert (E : pow2 ln / pow2 (ld + 1) * pow2 (ld + 1) == pow2 ln)
        by (field; intros H0; rewrite H0 in Pld1; discriminate).
      rewrite E. exact Qn1. }
  assert (Hhigh : n # d < pow2 (k + 54)).
  { rewrite Ea. apply Qlt_shift_div_r; [exact Hdpos |].
    replace (k + 54)%Z with (ln + 1 - ld)%Z by (unfold k; lia).
    rewrite pow2_minus.
    apply Qlt_le_trans with (pow2 (ln + 1)); [exact Qn2 |].
    assert (E : pow2 (ln + 1) == pow2 (ln + 1) / pow2 ld * pow2 ld)
      by (field; intros H0; rewrite H0 in Pld; discriminate).
    rewrite E at 1. apply Qmult_le_l; [| exact Qd1].
    apply Qlt_shift_div_l; [exact Pld |].
    pose proof (pow2_pos (ln + 1)). lra. }
  destruct (Qle_bool (pow2 (k + 53)) (n # d)) eqn:Hc.
  - apply Qle_bool_iff in Hc.
    replace (k + 1 + 52)%Z with (k + 53)%Z by lia.
    replace (k + 1 + 53)%Z with (k + 54)%Z by lia.
    split; [exact Hc | exact Hhigh].
  - split; [apply Qlt_le_weak, Hlow |].
    apply Qnot_le_lt. intros H. apply Qle_bool_iff in H. congruence.
Qed.

Lemma round64_pos_nonneg (a : Q) : 0 < a -> 0 <= round64_pos a.
Proof.
  intros Ha. unfold round64_pos.
  set (e := Z.max (exponent53 a) (-1074)).
  pose proof (pow2_pos e) as Pe.
  apply Qmult_le_0_compat; [| lra].
  change 0 with (inject_Z 0). rewrite <- Zle_Qle.
  apply round_half_even_ge. change (inject_Z 0) with 0.
  apply Qle_shift_div_l; [exact Pe | lra].
Qed.

(** Below [2^53] the unit in the last place is at most one. *)
Lemma exponent53_small (a : Q) :
  0 < a -> a < pow2 53 -> (Z.max (exponent53 a) (-1074) <= 0)%Z.
Proof.
  intros Ha Hlt. destruct (exponent53_bracket a Ha) as [Hlo _].
  assert (H : pow2 (exponent53 a + 52) < pow2 53) by lra.
  apply pow2_lt_inv in H. lia.
Qed.

(** Rounding does not cross an integer below [2^53]. *)
Lemma round64_pos_ge (a : Q) (j : Z) :
  0 < a -> a < pow2 53 -> inject_Z j <= a -> inject_Z j <= round64_pos a.
Proof.
  intros Ha Hlt Hj. pose proof (exponent53_small a Ha Hlt) as He.
  unfold round64_pos. set (e := Z.max (exponent53 a) (-1074)) in *.
  pose proof (pow2_pos e) as Pe. pose proof (pow2_pos (- e)) as Pe'.
  assert (Einv : pow2 (- e) * pow2 e == 1).
  { rewrite <- pow2_plus. replace (- e + e)%Z with 0%Z by lia. reflexivity. }
  assert (Hm : (j * 2 ^ (- e) <= round_half_even (a / pow2 e))%Z).
  { apply round_half_even_ge. rewrite <- pow2_integer by lia.
    apply Qle_shift_div_l; [exact Pe |].
    rewrite <- Qmult_assoc, Einv, Qmult_1_r. exact Hj. }
  rewrite Zle_Qle, <- pow2_integer in Hm by lia.
  apply Qle_trans with (inject_Z j * pow2 (- e) * pow2 e).
  - rewrite <- Qmult_assoc, Einv, Qmult_1_r. apply Qle_refl.
  - apply Qmult_le_compat_r; [exact Hm | lra].
Qed.

Lemma round64_pos_le (a : Q) (j : Z) :
  0 < a -> a < pow2 53 -> a <= inject_Z j -> round64_pos a <= inject_Z j.
Proof.
  intros Ha Hlt Hj. pose proof (exponent53_small a Ha Hlt) as He.
  unfold round64_pos. set (e := Z.max (exponent53 a) (-1074)) in *.
  pose proof (pow2_pos e) as Pe. pose proof (pow2_pos (- e)) as Pe'.
  assert (Einv : pow2 (- e) * pow2 e == 1).
  { rewrite <- pow2_plus. replace (- e + e)%Z with 0%Z by lia. reflexivity. }
  assert (Hm : (round_half_even (a / pow2 e) <= j * 2 ^ (- e))%Z).
  { apply round_half_even_le. rewrite <- pow2_integer by lia.
    apply Qle_shift_div_r; [exact Pe |].
    rewrite <- Qmult_assoc, Einv, Qmult_1_r. exact Hj. }
  rewrite Zle_Qle, <- pow2_integer in Hm by lia.
  apply Qle_trans with (inject_Z j * pow2 (- e) * pow2 e).
  - apply Qmult_le_compat_r; [exact Hm | lra].
  - rewrite <- Qmult_assoc, Einv, Qmult_1_r. apply Qle_refl.
Qed.

(** The error of the rounding: half a unit in the last place. *)
Lemma round64_pos_error (a : Q) :
  0 < a ->
  Qabs (round64_pos a - a) <= a * pow2 (-53) + pow2 (-1075).
Proof.
  intros Ha. destruct (exponent53_bracket a Ha) as [Hlo _].
  unfold round64_pos. set (e := Z.max (exponent53 a) (-1074)).
  pose proof (pow2_pos e) as Pe.
  destruct (round_half_even_near (a / pow2 e)) as [N1 N2].
  set (m := inject_Z (round_half_even (a / pow2 e))) in *.
  assert (Ea : a / pow2 e * pow2 e == a)
    by (field; intros H0; rewrite H0 in Pe; discriminate).
  assert (B1 : (m - (1 # 2)) * pow2 e <= a).
  { rewrite <- Ea. apply Qmult_le_compat_r; [exact N1 | lra]. }
  assert (B2 : a <= (m + (1 # 2)) * pow2 e).
  { rewrite <- Ea at 1. apply Qmult_le_compat_r; [exact N2 | lra]. }
  assert (Hhalf : (1 # 2) * pow2 e <= a * pow2 (-53) + pow2 (-1075)).
  { assert (E1 : (1 # 2) * pow2 e == pow2 (e - 1)).
    { rewrite pow2_minus. change (pow2 1) with 2. field. }
    rewrite E1. pose proof (pow2_pos (-53)) as P53.
    pose proof (pow2_pos (-1075)) as P1075.
    destruct (Z.max_spec (exponent53 a) (-1074)) as [[Hlt Hmax] | [Hge Hmax]].
    - fold e in Hmax. rewrite Hmax.
      assert (0 <= a * pow2 (-53)) by (apply Qmult_le_0_compat; lra).
      change (-1074 - 1)%Z with (-1075)%Z. lra.
    - fold e in Hmax. rewrite Hmax.
      assert (E2 : pow2 (exponent53 a - 1)
                   == pow2 (exponent53 a + 52) * pow2 (-53)).
      { rewrite <- pow2_plus. apply Qpower_comp; [reflexivity | lia]. }
      rewrite E2.
      assert (pow2 (exponent53 a + 52) * pow2 (-53) <= a * pow2 (-53))
        by (apply Qmult_le_compat_r; lra).
      lra. }
  apply Qabs_case; intros _; lra.
Qed.

(** A number of the format is its own rounding. *)
Lemma round64_pos_exact (M E : Z) :
  (0 < M < 2 ^ 53)%Z -> (-1074 <= E)%Z ->
  round64_pos (inject_Z M * pow2 E) == inject_Z M * pow2 E.
Proof.
  intros HM HE. set (a := inject_Z M * pow2 E).
  pose proof (pow2_pos E) as PE.
  assert (HMq : 0 < inject_Z M)
    by (change 0 with (inject_Z 0); rewrite <- Zlt_Qlt; lia).
  assert (Ha : 0 < a) by (unfold a; apply Qmult_lt_0_compat; lra).
  destruct (exponent53_bracket a Ha) as [Hlo _].
  assert (He0 : (exponent53 a <= E)%Z).
  { assert (H : pow2 (exponent53 a + 52) < pow2 (E + 53)).
    { eapply Qle_lt_trans; [exact Hlo |]. unfold a.
      rewrite pow2_plus, (Qmult_comm (pow2 E)).
      apply Qmult_lt_compat_r; [exact PE |].
      rewrite <- (pow2_inject 53) by lia. rewrite <- Zlt_Qlt. lia. }
    apply pow2_lt_inv in H. lia. }
  unfold round64_pos. fold a. set (e := Z.max (exponent53 a) (-1074)).
  assert (He : (e <= E)%Z) by (unfold e; lia).
  pose proof (pow2_pos e) as Pe.
  assert (Eq : a / pow2 e == inject_Z (M * 2 ^ (E - e))).
  { rewrite <- pow2_integer by lia. unfold a. rewrite pow2_minus.
    field. intros H0. rewrite H0 in Pe. discriminate. }
  rewrite (round_half_even_comp _ _ Eq), round_half_even_Z.
  rewrite <- pow2_integer by lia. rewrite pow2_minus. unfold a.
  field. intros H0. rewrite H0 in Pe. discriminate.
Qed.

(** The exponent and the rounding of a positive number depend on its
    value only. *)
Lemma exponent53_comp (a b : Q) :
  0 < a -> a == b -> exponent53 a = exponent53 b.
Proof.
  intros Ha E. assert (Hb : 0 < b) by (rewrite <- E; exact Ha).
  destruct (exponent53_bracket a Ha) as [A1 A2].
  destruct (exponent53_bracket b Hb) as [B1 B2].
  assert (H1 : (exponent53 a + 52 < exponent53 b + 53)%Z)
    by (apply pow2_lt_inv; lra).
  assert (H2 : (exponent53 b + 52 < exponent53 a + 53)%Z)
    by (apply pow2_lt_inv; lra).
  lia.
Qed.

Lemma round64_pos_comp (a b : Q) :
  0 < a -> a == b -> round64_pos a == round64_pos b.
Proof.
  intros Ha E. unfold round64_pos. rewrite (exponent53_comp a b Ha E).
  set (e := Z.max (exponent53 b) (-1074)).
  assert (E' : a / pow2 e == b / pow2 e) by (rewrite E; reflexivity).
  rewrite (round_half_even_comp _ _ E'). reflexivity.
Qed.

(** The three cases of the rounding. *)
Lemma round64_cases (q : Q) :
  (q == 0 /\ round64 q = 0)
  \/ (0 < q /\ round64 q == round64_pos q)
  \/ (q < 0 /\ 0 < - q /\ round64 q == - round64_pos (- q)).
Proof.
  unfold round64. destruct q as [n d]. cbn [Qnum].
  destruct n as [| n | n].
  - left. split; reflexivity.
  - right; left. split; [reflexivity | apply Qred_correct].
  - right; right. split; [reflexivity |].
    split; [reflexivity | apply Qred_correct].
Qed.

(** A rounded number is stored in lowest terms, so that equal values are
    equal. *)
Lemma round64_canon (q : Q) : Qred (round64 q) = round64 q.
Proof. unfold round64. apply Qred_involutive. Qed.

Lemma round64_eq (p q : Q) : round64 p == round64 q -> round64 p = round64 q.
Proof.
  intros E. rewrite <- (round64_canon p), <- (round64_canon q).
  apply Qred_complete, E.
Qed.

Lemma round64_comp (p q : Q) : p == q -> round64 p = round64 q.
Proof.
  intros E. apply round64_eq.
  destruct (round64_cases p) as [[P0 Rp] | [(Pp & Rp) | (Pn & Pp & Rp)]];
    destruct (round64_cases q) as [[Q0 Rq] | [(Qp & Rq) | (Qn & Qp & Rq)]];
    try lra.
  - rewrite Rp, Rq. reflexivity.
  - rewrite Rp, Rq. apply round64_pos_comp; assumption.
  - rewrite Rp, Rq. apply Qopp_comp, round64_pos_comp; [exact Pp |].
    rewrite E. reflexivity.
Qed.

Lemma round64_nonneg (q : Q) : 0 <= q -> 0 <= round64 q.
Proof.
  intros H.
  destruct (round64_cases q) as [[_ ->] | [(Hp & ->) | (Hq & _)]].
  - apply Qle_refl.
  - apply round64_pos_nonneg, Hp.
  - lra.
Qed.

Lemma round64_nonpos (q : Q) : q <= 0 -> round64 q <= 0.
Proof.
  intros H.
  destruct (round64_cases q) as [[_ ->] | [(Hq & _) | (_ & Hp & ->)]].
  - apply Qle_refl.
  - lra.
  - pose proof (round64_pos_nonneg _ Hp). lra.
Qed.

(** Rounding does not cross an integer, for numbers below [2^53] in
    absolute value. *)
Lemma round64_ge (q : Q) (j : Z) :
  Qabs q < pow2 53 -> inject_Z j <= q -> inject_Z j <= round64 q.
Proof.
  intros Hlt Hj.
  destruct (round64_cases q) as [[H0 ->] | [(Hq & ->) | (Hq & Hp & ->)]].
  - rewrite <- H0. exact Hj.
  - apply round64_pos_ge; [exact Hq | | exact Hj].
    rewrite Qabs_pos in Hlt by lra. exact Hlt.
  - assert (Hn : round64_pos (- q) <= inject_Z (- j)).
    { apply round64_pos_le; [exact Hp | |].
      - rewrite Qabs_neg in Hlt by lra. exact Hlt.
      - rewrite inject_Z_opp. lra. }
    rewrite inject_Z_opp in Hn. lra.
Qed.

Lemma round64_le (q : Q) (j : Z) :
  Qabs q < pow2 53 -> q <= inject_Z j -> round64 q <= inject_Z j.
Proof.
  intros Hlt Hj.
  destruct (round64_cases q) as [[H0 ->] | [(Hq & ->) | (Hq & Hp & ->)]].
  - rewrite <- H0. exact Hj.
  - apply round64_pos_le; [exact Hq | | exact Hj].
    rewrite Qabs_pos in Hlt by lra. exact Hlt.
  - assert (Hn : inject_Z (- j) <= round64_pos (- q)).
    { apply round64_pos_ge; [exact Hp | |].
      - rewrite Qabs_neg in Hlt by lra. exact Hlt.
      - rewrite inject_Z_opp. lra. }
    rewrite inject_Z_opp in Hn. lra.
Qed.

(** The ceiling of a rounded number is the ceiling of the number or one
    less. *)
Lemma Qceiling_round64 (q : Q) :
  Qabs q < pow2 53 ->
  (Qceiling q - 1 <= Qceiling (round64 q) <= Qceiling q)%Z.
Proof.
  intros Hlt. split.
  - assert (H : inject_Z (Qceiling q - 1) <= round64 q).
    { apply round64_ge; [exact Hlt |]. apply Qlt_le_weak, Qceiling_lt. }
    apply Qceiling_resp_le in H. rewrite Qceiling_Z in H. exact H.
  - assert (H : round64 q <= inject_Z (Qceiling q))
      by (apply round64_le; [exact Hlt | apply Qle_ceiling]).
    apply Qceiling_resp_le in H. rewrite Qceiling_Z in H. exact H.
Qed.

(** The error of a rounding: half a unit in the last place. *)
Lemma round64_error (q : Q) :
  Qabs (round64 q - q) <= Qabs q * pow2 (-53) + pow2 (-1075).
Proof.
  pose proof (pow2_pos (-53)) as P53. pose proof (pow2_pos (-1075)) as P1075.
  destruct (round64_cases q) as [[H0 ->] | [(Hq & ->) | (Hq & Hp & ->)]].
  - rewrite H0. change (Qabs (0 - 0)) with 0. change (Qabs 0) with 0. lra.
  - pose proof (round64_pos_error _ Hq) as H.
    rewrite (Qabs_pos q) by lra. exact H.
  - pose proof (round64_pos_error _ Hp) as H.
    rewrite (Qabs_neg q) by lra.
    set (r := round64_pos (- q)) in *. clearbody r.
    assert (Es : - r - q == - (r - - q)) by ring.
    rewrite Es, Qabs_opp. exact H.
Qed.

(** The numbers of the format (a significand below [2^53], an exponent
    from [-1074]) are their own rounding. *)
Lemma round64_exact (q : Q) (M E : Z) :
  (Z.abs M <= 2 ^ 53)%Z -> (-1074 <= E)%Z ->
  q == inject_Z M * pow2 E -> round64 q == q.
Proof.
  assert (Hstrict : forall q M E, (Z.abs M < 2 ^ 53)%Z -> (-1074 <= E)%Z ->
             q == inject_Z M * pow2 E -> round64 q == q).
  { clear. intros q M E HM HE Hq. pose proof (pow2_pos E) as PE.
    destruct (round64_cases q) as [[H0 ->] | [(Hpos & ->) | (Hneg & Hp & ->)]].
    - rewrite H0. reflexivity.
    - assert (HMpos : (0 < M)%Z).
      { destruct (Z.lt_trichotomy M 0) as [Hlt | [-> | Hgt]]; [| | exact Hgt].
        - assert (inject_Z M < 0)
            by (change 0 with (inject_Z 0); rewrite <- Zlt_Qlt; exact Hlt).
          assert (inject_Z M * pow2 E <= 0 * pow2 E)
            by (apply Qmult_le_compat_r; lra). lra.
        - rewrite Hq in Hpos. change (inject_Z 0) with 0 in Hpos. lra. }
      rewrite (round64_pos_comp _ _ Hpos Hq), Hq.
      apply round64_pos_exact; [lia | exact HE].
    - assert (HMneg : (M < 0)%Z).
      { destruct (Z.lt_trichotomy M 0) as [Hlt | [-> | Hgt]]; [exact Hlt | |].
        - rewrite Hq in Hneg. change (inject_Z 0) with 0 in Hneg. lra.
        - assert (0 < inject_Z M)
            by (change 0 with (inject_Z 0); rewrite <- Zlt_Qlt; exact Hgt).
          assert (0 * pow2 E <= inject_Z M * pow2 E)
            by (apply Qmult_le_compat_r; lra). lra. }
      assert (Ea : - q == inject_Z (- M) * pow2 E)
        by (rewrite Hq, inject_Z_opp; ring).
      rewrite (round64_pos_comp _ _ Hp Ea).
      rewrite (round64_pos_exact (- M) E) by (try lia; exact HE).
      rewrite Hq, inject_Z_opp. ring. }
  intros HM HE Hq.
  destruct (Z.eq_dec (Z.abs M) (2 ^ 53)%Z) as [Htop | Hlow];
    [| apply (Hstrict q M E); [lia | exact HE | exact Hq]].
  apply (Hstrict q (M / 2)%Z (E + 1)%Z); [| lia |].
  - assert (M = 2 ^ 53 \/ M = - 2 ^ 53)%Z as [-> | ->] by lia;
      vm_compute; reflexivity.
  - rewrite Hq, pow2_plus.
    assert (EM : inject_Z M == inject_Z (M / 2) * pow2 1).
    { assert (M = 2 ^ 53 \/ M = - 2 ^ 53)%Z as [-> | ->] by lia;
        vm_compute; reflexivity. }
    rewrite EM. ring.
Qed.

(** The rounding of a positive number is a number of the format. *)
Lemma round64_pos_format (a : Q) :
  0 < a ->
  exists M E : Z, (0 <= M <= 2 ^ 53)%Z /\ (-1074 <= E)%Z
                  /\ round64_pos a = inject_Z M * pow2 E.
Proof.
  intros Ha. destruct (exponent53_bracket a Ha) as [_ Hhi].
  unfold round64_pos. set (e := Z.max (exponent53 a) (-1074)).
  exists (round_half_even (a / pow2 e)), e.
  pose proof (pow2_pos e) as Pe.
  split; [| split; [lia | reflexivity]]. split.
  - apply (round_half_even_ge _ 0). apply Qle_shift_div_l; [exact Pe |].
    change (inject_Z 0) with 0. lra.
  - apply round_half_even_le. apply Qle_shift_div_r; [exact Pe |].
    rewrite (pow2_inject 53) by lia. rewrite <- pow2_plus.
    apply Qlt_le_weak. eapply Qlt_le_trans; [exact Hhi |].
    apply pow2_le. lia.
Qed.

(** Rounding twice is rounding once. *)
Lemma round64_idem (q : Q) : round64 (round64 q) = round64 q.
Proof.
  apply round64_eq.
  assert (H : round64 (round64 q) == round64 q); [| rewrite H; reflexivity].
  destruct (round64_cases q) as [[H0 R] | [(Hq & R) | (Hq & Hp & R)]].
  - rewrite R. reflexivity.
  - destruct (round64_pos_format q Hq) as (M & E & HM & HE & Ef).
    apply (round64_exact _ M E); [lia | exact HE |]. rewrite R, Ef. reflexivity.
  - destruct (round64_pos_format (- q) Hp) as (M & E & HM & HE & Ef).
    apply (round64_exact _ (- M) E); [lia | exact HE |].
    rewrite R, Ef, inject_Z_opp. ring.
Qed.

(* ================================================================= *)
(** ** Cord kinematics *)


(* ================================================================= *)
(** ** The dwell block *)

(** C9: the dwell block is the single line [G4 S<s>] where [s] is the
    requested duration clamped below at zero, printed without a sign
    with three decimals; a duration that is not positive gives
    [G4 S0.000], and so does [-0.5]. *)
Theorem gcode_dwell_clamped (seconds : Q) :
  let s := py_max 0 seconds in
  SvgToGcode.gcode_dwell seconds = ["G4 S" +:+ format_3f s]%string
  /\ 0 <= s
  /\ (0 < seconds -> s = seconds)
  /\ (seconds <= 0 ->
      s = 0 /\ SvgToGcode.gcode_dwell seconds = ["G4 S0.000"]%string)
  /\ (exists m : Z,
         (0 <= m)%Z
         /\ inject_Z m - (1 # 2) <= s * 1000
         /\ s * 1000 <= inject_Z m + (1 # 2)
         /\ format_3f s
            = (format_int (m / 1000) +:+ "." +:+ pad3 (m mod 1000))%string)
  /\ SvgToGcode.gcode_dwell (- (1 # 2)) = ["G4 S0.000"]%string.
Proof.
  intros s.
  assert (Hs : 0 <= s).
  { unfold s, py_max. destruct (Qlt_le_dec 0 seconds); lra. }
  split; [reflexivity |]. split; [exact Hs |]. split; [| split; [| split]].
  - intros Hpos. unfold s, py_max.
    destruct (Qlt_le_dec 0 seconds); [reflexivity | lra].
  - intros Hneg.
    assert (E : s = 0).
    { unfold s, py_max. destruct (Qlt_le_dec 0 seconds); [lra | reflexivity]. }
    split; [exact E |].
    unfold SvgToGcode.gcode_dwell. fold s. rewrite E. reflexivity.
  - apply format_3f_nonneg. exact Hs.
  - reflexivity.
Qed.

(** Scenario E, and a positive duration. *)
Lemma gcode_dwell_clamped_witness :
  SvgToGcode.gcode_dwell (- (1 # 2)) = ["G4 S0.000"]%string
  /\ py_max 0 (1 # 5) = 1 # 5
  /\ SvgToGcode.gcode_dwell (1 # 5) = ["G4 S0.200"]%string.
Proof.
  destruct (gcode_dwell_clamped (- (1 # 2))) as (_ & _ & _ & Hneg & _).
  destruct (gcode_dwell_clamped (1 # 5)) as (Hline & _ & Hpos & _).
  split; [apply Hneg; vm_compute; discriminate |].
  split; [apply Hpos; reflexivity |].
  rewrite Hline. reflexivity.
Defined.

(* ================================================================= *)
(** ** The path sampler *)

Lemma range_length (lo hi : Z) : length (range lo hi) = Z.to_nat (hi - lo).
Proof. unfold range. rewrite length_map, length_seq. reflexivity. Qed.

Lemma range_nth (lo hi : Z) (k : nat) :
  (k < Z.to_nat (hi - lo))%nat ->
  nth_error (range lo hi) k = Some (lo + Z.of_nat k)%Z.
Proof.
  intros Hk. unfold range.
  rewrite nth_error_map, nth_error_seq.
  destruct (Nat.ltb_spec k (Z.to_nat (hi - lo))); [reflexivity | lia].
Qed.

Lemma sample_path_params (path : SvgToGcode.Path) (n : Z) :
  SvgToGcode.sample_path_uniform_t path n
  = map (SvgToGcode.point path) (sample_params (Z.max 1 n)).
Proof.
  unfold SvgToGcode.sample_path_uniform_t, sample_params.
  rewrite map_map. reflexivity.
Qed.

Lemma sample_params_length (n : Z) :
  (1 <= n)%Z -> length (sample_params n) = (Z.to_nat n + 1)%nat.
Proof.
  intros Hn. unfold sample_params. rewrite length_map, range_length. lia.
Qed.

Lemma sample_params_nth (n i : Z) :
  (1 <= n)%Z -> (0 <= i <= n)%Z ->
  nth_error (sample_params n) (Z.to_nat i)
  = Some (fdiv (inject_Z i) (inject_Z n)).
Proof.
  intros Hn Hi. unfold sample_params.
  rewrite nth_error_map, range_nth by lia. simpl.
  rewrite Z2Nat.id by lia. reflexivity.
Qed.

Lemma Qdiv_self_Z (n : Z) : (1 <= n)%Z -> inject_Z n / inject_Z n == 1.
Proof.
  intros Hn. apply Qmult_inv_r.
  intros E. apply (inject_Z_injective n 0%Z) in E. lia.
Qed.

(** The first and the last parameter are the floats 0 and 1. *)
Lemma fdiv_0_l (n : Z) : fdiv (inject_Z 0) (inject_Z n) = 0.
Proof.
  unfold fdiv.
  assert (E : inject_Z 0 / inject_Z n == 0)
    by (unfold Qdiv; change (inject_Z 0) with 0; ring).
  rewrite (round64_comp _ _ E). reflexivity.
Qed.

Lemma fdiv_self (n : Z) : (1 <= n)%Z -> fdiv (inject_Z n) (inject_Z n) = 1.
Proof.
  intros Hn. unfold fdiv. rewrite (round64_comp _ _ (Qdiv_self_Z n Hn)).
  vm_compute. reflexivity.
Qed.

(** The float [i / n] is within [2^-52] of the fraction. *)
Lemma fdiv_fraction (n i : Z) :
  (1 <= n)%Z -> (0 <= i <= n)%Z ->
  Qabs (fdiv (inject_Z i) (inject_Z n) - inject_Z i / inject_Z n)
  <= pow2 (-52).
Proof.
  intros Hn Hi. unfold fdiv.
  set (q := inject_Z i / inject_Z n).
  assert (Hnq : 0 < inject_Z n).
  { change 0 with (inject_Z 0). rewrite <- Zlt_Qlt. lia. }
  assert (H0 : 0 <= q).
  { apply Qle_shift_div_l; [exact Hnq |]. rewrite Qmult_0_l.
    change 0 with (inject_Z 0). rewrite <- Zle_Qle. lia. }
  assert (H1 : q <= 1).
  { apply Qle_shift_div_r; [exact Hnq |]. rewrite Qmult_1_l.
    rewrite <- Zle_Qle. lia. }
  pose proof (round64_error q) as He. rewrite (Qabs_pos q) in He by exact H0.
  pose proof (pow2_pos (-53)) as P53.
  assert (Hq53 : q * pow2 (-53) <= 1 * pow2 (-53))
    by (apply Qmult_le_compat_r; lra).
  assert (Hsmall : pow2 (-1075) <= pow2 (-53)) by (apply pow2_le; lia).
  assert (Hsum : pow2 (-53) + pow2 (-53) == pow2 (-52))
    by (vm_compute; reflexivity).
  set (err := Qabs (round64 q - q)) in *. clearbody err.
  set (a := q * pow2 (-53)) in *. clearbody a. lra.
Qed.

Lemma sample_count_ge_1 (length_svg scale step_mm : Q) :
  (1 <= SvgToGcode.sample_count length_svg scale step_mm)%Z.
Proof. unfold SvgToGcode.sample_count. lia. Qed.

(** A path of wall length [2^-29] sampled at the step [2^-31]: the
    specification counts 4 steps, hence 5 points; the program divides by
    [1e-9] instead of the smaller step and returns 3 points. *)
Lemma sample_count_below_clamp :
  let path := {| SvgToGcode.point := fun t => (t * (1 # 536870912), 0);
                 SvgToGcode.length_svg := 1 # 536870912 |} in
  let step_mm := 1 # 2147483648 in
  let n := SvgToGcode.sample_count (SvgToGcode.length_svg path) 1 step_mm in
  (Z.to_nat (spec_sample_count (SvgToGcode.length_svg path * 1) step_mm) + 1
   = 5)%nat
  /\ n = 2%Z
  /\ length (SvgToGcode.sample_path_uniform_t path n) = 3%nat.
Proof.
  cbv zeta. split; [reflexivity |].
  assert (E : SvgToGcode.sample_count (1 # 536870912) 1 (1 # 2147483648)
              = 2%Z) by (vm_compute; reflexivity).
  cbn [SvgToGcode.length_svg]. rewrite E. split; reflexivity.
Qed.

(** A path of wall length [1.1] sampled at the step [0.1] (the floats
    of these decimals): the float quotient is [11.0], so that the program
    makes 11 steps where the quotient of the two values has the ceiling
    12. *)
Lemma sample_count_rounded_quotient :
  let length_wall := round64 (11 # 10) in
  let step_mm := round64 (1 # 10) in
  fdiv length_wall step_mm = 11
  /\ SvgToGcode.sample_count length_wall 1 step_mm = 11%Z
  /\ spec_sample_count length_wall step_mm = 12%Z.
Proof. vm_compute. repeat split; reflexivity. Qed.

(** C7 (as amended): the sampler computes
    [n = max(1, ceil(q))], [q] being the float quotient of [lengthWall]
    by [max(1e-9, step_mm)]; when [step_mm >= 1e-9] this is the quotient
    by [step_mm], and [n] is the [max(1, ceil(lengthWall / step_mm))] of
    the specification or one less (for a quotient below [2^53]).  The
    sampler returns the [n + 1] points of the curve at the floats [i / n],
    [i = 0 .. n], which are within [2^-52] of the fractions and go from 0
    to 1; a curve of length zero gives the two points at the parameters 0
    and 1. *)
Theorem sample_path_count (path : SvgToGcode.Path)
    (mapper : SvgToGcode.SvgToWallMapper) (step_mm : Q) :
  let length_wall :=
    fmul (SvgToGcode.length_svg path) (SvgToGcode.scale mapper) in
  let n := SvgToGcode.sample_count (SvgToGcode.length_svg path)
             (SvgToGcode.scale mapper) step_mm in
  n = Z.max 1 (Qceiling (fdiv length_wall (py_max float_1e_9 step_mm)))
  /\ (float_1e_9 <= step_mm ->
      n = Z.max 1 (Qceiling (fdiv length_wall step_mm)))
  /\ (float_1e_9 <= step_mm -> Qabs (length_wall / step_mm) < pow2 53 ->
      (spec_sample_count length_wall step_mm - 1 <= n
       <= spec_sample_count length_wall step_mm)%Z)
  /\ (exists ts : list Q,
         SvgToGcode.sample_path_uniform_t path n
         = map (SvgToGcode.point path) ts
         /\ length ts = (Z.to_nat n + 1)%nat
         /\ (forall i : Z, (0 <= i <= n)%Z ->
                nth_error ts (Z.to_nat i)
                = Some (fdiv (inject_Z i) (inject_Z n))
                /\ Qabs (fdiv (inject_Z i) (inject_Z n)
                         - inject_Z i / inject_Z n) <= pow2 (-52))
         /\ hd_error ts = Some 0
         /\ nth_error ts (Z.to_nat n) = Some 1)
  /\ length (SvgToGcode.sample_path_uniform_t path n) = (Z.to_nat n + 1)%nat
  /\ length (SvgToGcode.poly_wall mapper path step_mm) = (Z.to_nat n + 1)%nat
  /\ (length_wall == 0 ->
      n = 1%Z
      /\ SvgToGcode.sample_path_uniform_t path n
         = [SvgToGcode.point path 0; SvgToGcode.point path 1]).
Proof.
  intros length_wall n.
  assert (Hn : (1 <= n)%Z) by apply sample_count_ge_1.
  assert (Hmax : Z.max 1 n = n) by lia.
  assert (Hparams : SvgToGcode.sample_path_uniform_t path n
                    = map (SvgToGcode.point path) (sample_params n))
    by (rewrite sample_path_params, Hmax; reflexivity).
  assert (Hlen : length (SvgToGcode.sample_path_uniform_t path n)
                 = (Z.to_nat n + 1)%nat)
    by (rewrite Hparams, length_map; apply sample_params_length, Hn).
  assert (Hstep : float_1e_9 <= step_mm ->
                  n = Z.max 1 (Qceiling (fdiv length_wall step_mm))).
  { intros Hge. unfold n, SvgToGcode.sample_count. fold length_wall.
    do 2 f_equal. unfold fdiv. apply round64_comp.
    unfold py_max. destruct (Qlt_le_dec float_1e_9 step_mm) as [_ | Hle].
    - reflexivity.
    - assert (E : step_mm == float_1e_9) by (apply Qle_antisym; assumption).
      rewrite E. reflexivity. }
  split; [reflexivity |]. split; [exact Hstep |].
  split; [| split; [| split; [| split]]].
  - intros Hge Hlt. rewrite (Hstep Hge). unfold spec_sample_count, fdiv.
    pose proof (Qceiling_round64 _ Hlt). lia.
  - exists (sample_params n).
    split; [exact Hparams |].
    split; [apply sample_params_length, Hn |].
    split; [| split].
    + intros i Hi. split; [apply sample_params_nth; assumption |].
      apply fdiv_fraction; assumption.
    + change (hd_error (sample_params n))
        with (nth_error (sample_params n) (Z.to_nat 0)).
      rewrite sample_params_nth by lia. rewrite fdiv_0_l. reflexivity.
    + rewrite sample_params_nth by lia. rewrite (fdiv_self n Hn).
      reflexivity.
  - exact Hlen.
  - unfold SvgToGcode.poly_wall. rewrite length_map. exact Hlen.
  - intros Hzero.
    assert (E : n = 1%Z).
    { unfold n, SvgToGcode.sample_count. fold length_wall.
      assert (Hq : length_wall / py_max float_1e_9 step_mm == 0)
        by (rewrite Hzero; unfold Qdiv; ring).
      unfold fdiv. rewrite (round64_comp _ _ Hq). reflexivity. }
    split; [exact E |]. rewrite E.
    unfold SvgToGcode.sample_path_uniform_t.
    change (range 0 (Z.max 1 1 + 1)) with [0%Z; 1%Z].
    change (Z.max 1 1) with 1%Z. cbn [map].
    rewrite fdiv_0_l, (fdiv_self 1) by lia. reflexivity.
Qed.

(** A straight stroke of length 5 drawn at scale 2 and sampled every 4 mm
    of wall: 3 steps, 4 points. *)
Lemma sample_path_count_witness :
  SvgToGcode.sample_count 5 2 4 = 3%Z
  /\ spec_sample_count (fmul 5 2) 4 = 3%Z
  /\ length
       (SvgToGcode.poly_wall
          {| SvgToGcode.u_center := 0; SvgToGcode.v_center := 0;
             SvgToGcode.scale := 2; SvgToGcode.wall_cx := 0;
             SvgToGcode.wall_cy := 0 |}
          {| SvgToGcode.point := fun t => (5 * t, 0);
             SvgToGcode.length_svg := 5 |} 4) = 4%nat.
Proof.
  pose proof (sample_path_count
                {| SvgToGcode.point := fun t => (5 * t, 0);
                   SvgToGcode.length_svg := 5 |}
                {| SvgToGcode.u_center := 0; SvgToGcode.v_center := 0;
                   SvgToGcode.scale := 2; SvgToGcode.wall_cx := 0;
                   SvgToGcode.wall_cy := 0 |} 4) as H.
  cbv zeta in H. destruct H as (_ & Hstep & _ & _ & _ & Hlen & _).
  cbn [SvgToGcode.length_svg SvgToGcode.scale] in Hstep, Hlen.
  assert (Hge : float_1e_9 <= 4) by (vm_compute; discriminate).
  assert (E : SvgToGcode.sample_count 5 2 4 = 3%Z)
    by (rewrite (Hstep Hge); vm_compute; reflexivity).
  split; [exact E |]. split; [vm_compute; reflexivity |].
  rewrite Hlen, E. reflexivity.
Defined.

(* ================================================================= *)
(** ** The travel segmenter *)

Lemma last_cons_default {A : Type} (l : list A) :
  forall a d : A, List.last (a :: l) d = List.last l a.
Proof.
  induction l as [| b l IH]; intros a d; [reflexivity |].
  change (List.last (a :: b :: l) d) with (List.last (b :: l) d).
  rewrite !IH. reflexivity.
Qed.

Section Segmenter.

Variable hypot : Q -> Q -> Q.

Lemma segment_fold_draw (x0 y0 dx dy D : Q) (feed n : Z) (idx : list Z) :
  forall acc : list string * (Q * Q),
    fold_left (SvgToGcode.segment_step hypot x0 y0 dx dy D feed n) idx acc
    = fold_left (SvgToGcode.draw_step hypot D feed)
        (map (fun i =>
                (fadd x0 (fmul dx (fdiv (inject_Z i) (inject_Z n))),
                 fadd y0 (fmul dy (fdiv (inject_Z i) (inject_Z n))))) idx)
        acc.
Proof.
  induction idx as [| i idx IH]; intros [lines xy]; simpl; [reflexivity |].
  rewrite <- IH. reflexivity.
Qed.

Lemma draw_fold (D : Q) (feed : Z) (pts : list (Q * Q)) :
  forall (lines : list string) (xy : Q * Q),
    fold_left (SvgToGcode.draw_step hypot D feed) pts (lines, xy)
    = (lines ++ fst (SvgToGcode.draw_polyline hypot xy pts D feed),
       List.last pts xy)
    /\ length (fst (SvgToGcode.draw_polyline hypot xy pts D feed))
       = length pts.
Proof.
  unfold SvgToGcode.draw_polyline.
  induction pts as [| p pts IH]; intros lines xy.
  - simpl. rewrite app_nil_r. split; reflexivity.
  - assert (Hstep : forall ls,
               SvgToGcode.draw_step hypot D feed (ls, xy) p
               = (ls ++ [fst (SvgToGcode.wall_xy_to_lr_delta_g1 hypot xy p
                                D feed)], p)).
    { intros ls. destruct xy as [a b], p as [c d]. reflexivity. }
    cbn [fold_left]. rewrite !Hstep.
    destruct (IH (lines ++ [fst (SvgToGcode.wall_xy_to_lr_delta_g1 hypot xy
                                   p D feed)]) p) as [E1 L1].
    destruct (IH ([] ++ [fst (SvgToGcode.wall_xy_to_lr_delta_g1 hypot xy
                                p D feed)]) p) as [E2 L2].
    rewrite E1, E2. cbn [fst].
    rewrite last_cons_default. split.
    + rewrite <- !app_assoc. reflexivity.
    + rewrite !length_app, L1. simpl. lia.
Qed.

Lemma segment_points_last (x0 y0 x1 y1 : Q) (n : Z) :
  (1 <= n)%Z ->
  List.last (segment_points x0 y0 x1 y1 n) (x0, y0)
  = segment_point x0 y0 x1 y1 n n.
Proof.
  intros Hn. unfold segment_points, range.
  replace (Z.to_nat (n + 1 - 1)) with (S (Z.to_nat (n - 1))) by lia.
  rewrite seq_S, !map_app. simpl. rewrite last_last.
  replace (1 + Z.of_nat (Z.to_nat (n - 1)))%Z with n by lia.
  reflexivity.
Qed.

End Segmenter.

Lemma range_In (lo hi i : Z) : In i (range lo hi) -> (lo <= i < hi)%Z.
Proof.
  unfold range. rewrite in_map_iff. intros (k & <- & Hk).
  apply in_seq in Hk. lia.
Qed.

Lemma float_1e_9_pos : 0 < float_1e_9.
Proof. vm_compute. reflexivity. Qed.

(** The float [1e-9] is [0x1.12e0be826d695p-30], a little more than
    [10^-9]. *)
Lemma float_1e_9_value :
  float_1e_9 == inject_Z 4835703278458517 * pow2 (-82)
  /\ (1 # 1000000000) < float_1e_9.
Proof. split; vm_compute; reflexivity. Qed.

(** A float times the float 1 is the float. *)
Lemma fmul_1_r (q : Q) : fmul (round64 q) 1 = round64 q.
Proof.
  unfold fmul. rewrite (round64_comp _ _ (Qmult_1_r (round64 q))).
  apply round64_idem.
Qed.

(** The float [x0 + (x1 - x0)] is [x1] up to the two roundings. *)
Lemma fadd_fsub_error (x0 x1 : Q) :
  Qabs (fadd x0 (fsub x1 x0) - x1)
  <= (Qabs (x0 + fsub x1 x0) + Qabs (x1 - x0)) * pow2 (-53) + pow2 (-1074).
Proof.
  unfold fadd. set (dx := fsub x1 x0).
  pose proof (round64_error (x0 + dx)) as H1.
  pose proof (round64_error (x1 - x0)) as H2. fold (fsub x1 x0) in H2.
  fold dx in H2.
  assert (E : round64 (x0 + dx) - x1
              == (round64 (x0 + dx) - (x0 + dx)) + (dx - (x1 - x0))) by ring.
  rewrite E.
  eapply Qle_trans; [apply Qabs_triangle |].
  assert (Hp : pow2 (-1075) + pow2 (-1075) == pow2 (-1074))
    by (vm_compute; reflexivity).
  set (e1 := Qabs (round64 (x0 + dx) - (x0 + dx))) in *. clearbody e1.
  set (e2 := Qabs (dx - (x1 - x0))) in *. clearbody e2.
  set (a1 := Qabs (x0 + dx)) in *. clearbody a1.
  set (a2 := Qabs (x1 - x0)) in *. clearbody a2.
  set (p53 := pow2 (-53)) in *. clearbody p53.
  set (p5 := pow2 (-1075)) in *. set (p4 := pow2 (-1074)) in *.
  clearbody p5 p4.
  assert (Ed : (a1 + a2) * p53 == a1 * p53 + a2 * p53) by ring.
  rewrite Ed.
  set (b1 := a1 * p53) in *. set (b2 := a2 * p53) in *. clearbody b1 b2.
  lra.
Qed.

(** C5 (as amended): at or below the distance [1e-9] (the float)
    nothing is emitted; above it and with [max_step_mm <= 0] there is the
    single direct move; above it and with [max_step_mm > 0] there are
    exactly [n = max(1, ceil(q))] moves, [q] being the float quotient of
    the distance by [max_step_mm]: [n] is the ceiling of the quotient of
    the two numbers or one less (for a quotient below [2^53]).  The moves
    go through the points [p0 + (p1 - p0) * (i / n)] for [i = 1 .. n],
    each operation being the float operation; the last one, which is the
    position returned, is the float [p0 + (p1 - p0)], the target up to
    the two roundings. *)
Theorem move_xy_segmented_points (hypot : Q -> Q -> Q)
    (x0 y0 x1 y1 D : Q) (feed : Z) (max_step_mm : Q) :
  let dx := fsub x1 x0 in
  let dy := fsub y1 y0 in
  let dist := hypot dx dy in
  let moved :=
    SvgToGcode.move_xy_segmented hypot (x0, y0) (x1, y1) D feed max_step_mm in
  (dist <= float_1e_9 -> moved = ([], (x0, y0)))
  /\ (float_1e_9 < dist -> max_step_mm <= 0 ->
      moved
      = ([fst (SvgToGcode.wall_xy_to_lr_delta_g1 hypot (x0, y0) (x1, y1)
                 D feed)],
         (x1, y1)))
  /\ (float_1e_9 < dist -> 0 < max_step_mm ->
      let n := Z.max 1 (Qceiling (fdiv dist max_step_mm)) in
      let pts := segment_points x0 y0 x1 y1 n in
      (1 <= n)%Z
      /\ (dist / max_step_mm < pow2 53 ->
          (Qceiling (dist / max_step_mm) - 1 <= n
           <= Qceiling (dist / max_step_mm))%Z)
      /\ length pts = Z.to_nat n
      /\ (forall i : Z, (1 <= i <= n)%Z ->
             nth_error pts (Z.to_nat (i - 1))
             = Some (fadd x0 (fmul dx (fdiv (inject_Z i) (inject_Z n))),
                     fadd y0 (fmul dy (fdiv (inject_Z i) (inject_Z n)))))
      /\ List.last pts (x0, y0) = (fadd x0 dx, fadd y0 dy)
      /\ Qabs (fadd x0 dx - x1)
         <= (Qabs (x0 + dx) + Qabs (x1 - x0)) * pow2 (-53) + pow2 (-1074)
      /\ Qabs (fadd y0 dy - y1)
         <= (Qabs (y0 + dy) + Qabs (y1 - y0)) * pow2 (-53) + pow2 (-1074)
      /\ moved
         = (fst (SvgToGcode.draw_polyline hypot (x0, y0) pts D feed),
            List.last pts (x0, y0))
      /\ length (fst moved) = Z.to_nat n).
Proof.
  intros dx dy dist moved.
  unfold moved, SvgToGcode.move_xy_segmented. fold dx dy. fold dist.
  pose proof float_1e_9_pos as Heps.
  split; [| split].
  - intros Hle. apply Qle_bool_iff in Hle. rewrite Hle. reflexivity.
  - intros Hgt Hstep.
    destruct (Qle_bool dist float_1e_9) eqn:Hd;
      [apply Qle_bool_iff in Hd; lra |].
    apply Qle_bool_iff in Hstep. rewrite Hstep. reflexivity.
  - intros Hgt Hstep.
    set (n := Z.max 1 (Qceiling (fdiv dist max_step_mm))).
    set (pts := segment_points x0 y0 x1 y1 n).
    destruct (Qle_bool dist float_1e_9) eqn:Hd;
      [apply Qle_bool_iff in Hd; lra |].
    destruct (Qle_bool max_step_mm 0) eqn:Hs;
      [apply Qle_bool_iff in Hs; lra |].
    assert (Hn : (1 <= n)%Z) by (unfold n; lia).
    assert (Hlen : length pts = Z.to_nat n).
    { unfold pts, segment_points. rewrite length_map, range_length. lia. }
    assert (Hmoved :
              fold_left
                (SvgToGcode.segment_step hypot x0 y0 dx dy D feed n)
                (range 1 (n + 1)) ([], (x0, y0))
              = (fst (SvgToGcode.draw_polyline hypot (x0, y0) pts D feed),
                 List.last pts (x0, y0))).
    { rewrite segment_fold_draw.
      destruct (draw_fold hypot D feed pts [] (x0, y0)) as [E _].
      exact E. }
    split; [exact Hn |]. split; [| split; [| split; [| split]]].
    + intros Hlt.
      assert (Hratio : 0 < dist / max_step_mm)
        by (apply Qlt_shift_div_l; lra).
      assert (Hc : (1 <= Qceiling (dist / max_step_mm))%Z)
        by (apply Qceiling_pos, Hratio).
      assert (Habs : Qabs (dist / max_step_mm) < pow2 53)
        by (rewrite Qabs_pos by lra; exact Hlt).
      pose proof (Qceiling_round64 _ Habs) as Hr. unfold n, fdiv. lia.
    + exact Hlen.
    + intros i Hi. unfold pts, segment_points.
      rewrite nth_error_map, range_nth by lia. simpl.
      replace (1 + Z.of_nat (Z.to_nat (i - 1)))%Z with i by lia.
      reflexivity.
    + unfold pts. rewrite segment_points_last by exact Hn.
      unfold segment_point. rewrite (fdiv_self n Hn).
      fold dx dy. unfold dx, dy, fsub. rewrite !fmul_1_r. reflexivity.
    + split; [apply fadd_fsub_error |]. split; [apply fadd_fsub_error |].
      split; [exact Hmoved |].
      rewrite Hmoved. simpl.
      destruct (draw_fold hypot D feed pts [] (x0, y0)) as [_ L].
      rewrite L. exact Hlen.
Qed.

(** Scenario D: from (0,0) to (12,0) with a maximal step of 5 there are
    three moves, through x = 4, 8 and 12. *)
Lemma move_xy_segmented_points_witness :
  Z.max 1 (Qceiling (fdiv (hypot_dyadic (fsub 12 0) (fsub 0 0)) 5)) = 3%Z
  /\ length
       (fst (SvgToGcode.move_xy_segmented hypot_dyadic (0, 0) (12, 0)
               1860 600 5)) = 3%nat
  /\ segment_points 0 0 12 0 3 = [(4, 0); (8, 0); (12, 0)]
  /\ fst (SvgToGcode.move_xy_segmented hypot_dyadic (0, 0) (12, 0) 1860 600 5)
     = ["G1 X4.000 Y4.000 F600"; "G1 X4.000 Y4.000 F600";
        "G1 X4.000 Y4.000 F600"]%string.
Proof.
  pose proof (move_xy_segmented_points hypot_dyadic 0 0 12 0 1860 600%Z 5)
    as H.
  cbv zeta in H. destruct H as (_ & _ & H).
  assert (Hd : float_1e_9 < hypot_dyadic (fsub 12 0) (fsub 0 0))
    by (vm_compute; reflexivity).
  assert (Hs : 0 < 5) by (vm_compute; reflexivity).
  destruct (H Hd Hs) as (_ & _ & _ & _ & _ & _ & _ & _ & Hlen).
  split; [vm_compute; reflexivity |].
  split; [rewrite Hlen; vm_compute; reflexivity |].
  split; vm_compute; reflexivity.
Defined.

(** From (0,0) to (1.1,0) with a maximal step of 0.1 (the floats of
    these decimals) the float quotient is [11.0]: there are 11 moves,
    where the quotient of the two numbers has the ceiling 12, and 11
    steps of the maximal length do not reach the target.  From (0.3,0) to
    (0.9,0) in one move, the position returned is the float after
    [0.9]. *)
Lemma move_xy_segmented_rounding :
  let x1 := round64 (11 # 10) in
  let step := round64 (1 # 10) in
  let dist := hypot_dyadic (fsub x1 0) (fsub 0 0) in
  let a := round64 (3 # 10) in
  let b := round64 (9 # 10) in
  dist == x1
  /\ Qceiling (dist / step) = 12%Z
  /\ length
       (fst (SvgToGcode.move_xy_segmented hypot_dyadic (0, 0) (x1, 0)
               1860 600 step)) = 11%nat
  /\ inject_Z 11 * step < dist
  /\ snd (SvgToGcode.move_xy_segmented hypot_dyadic (a, 0) (b, 0) 1860 600 1)
     = (Qred (b + pow2 (-53)), 0)
  /\ ~ Qred (b + pow2 (-53)) == b.
Proof.
  vm_compute. repeat split; try reflexivity. discriminate.
Qed.

(* ================================================================= *)
(** ** The discrete-command cache *)

Lemma build_gcode_buildable (key : JogCli.Key) (cmd : string) :
  (buildable cmd -> exists g, JogCli._build_gcode key cmd = Ok g)
  /\ (~ buildable cmd ->
      JogCli._build_gcode key cmd
      = Raise (ValueError ("unknown cmd " +:+ cmd))).
Proof.
  unfold buildable, JogCli._build_gcode.
  destruct (JogCli.MOTOR_CMDS !! cmd) as [[sx sy] |] eqn:Hm.
  - split; [eauto |]. intros Hn. exfalso. apply Hn. left.
    apply elem_of_dom. eauto.
  - apply not_elem_of_dom in Hm.
    destruct (decide (cmd ∈ JogCli.CAROUSEL_CMDS)) as [Hc | Hc].
    + split; [eauto | tauto].
    + destruct (decide (cmd = "G77"%string)) as [Hg | Hg].
      * split; [eauto | tauto].
      * split; [tauto | reflexivity].
Qed.



Lemma get_gcode_stores (c : JogCli.Cache) (key : JogCli.Key) (cmd g : string) :
  fst (JogCli.get_gcode c key cmd) = Ok g ->
  JogCli._cache (snd (JogCli.get_gcode c key cmd)) !! (key, cmd) = Some g.
Proof.
  unfold JogCli.get_gcode.
  destruct (JogCli._cache c !! (key, cmd)) as [g0 |] eqn:Hc.
  - simpl. intros [= <-]. exact Hc.
  - destruct (JogCli._build_gcode key cmd) as [g0 | e]; simpl.
    + intros [= <-]. apply lookup_insert_eq.
    + discriminate.
Qed.

Lemma get_gcode_keeps (c : JogCli.Cache) (key : JogCli.Key) (cmd : string)
    (k : JogCli.Key * string) (g : string) :
  JogCli._cache c !! k = Some g ->
  JogCli._cache (snd (JogCli.get_gcode c key cmd)) !! k = Some g.
Proof.
  intros Hk. unfold JogCli.get_gcode.
  destruct (JogCli._cache c !! (key, cmd)) as [g0 |] eqn:Hc; [exact Hk |].
  destruct (JogCli._build_gcode key cmd) as [g0 | e]; simpl; [| exact Hk].
  rewrite lookup_insert_ne; [exact Hk |].
  intros <-. rewrite Hc in Hk. discriminate.
Qed.

Lemma cache_inv_empty : cache_inv JogCli.empty_cache.
Proof.
  intros k. unfold build_count, JogCli.empty_cache.
  cbn [JogCli._cache JogCli.build_log]. rewrite lookup_empty. split.
  - intros g H. discriminate.
  - intros _. reflexivity.
Qed.

Lemma cache_inv_get (c : JogCli.Cache) (key : JogCli.Key) (cmd : string) :
  cache_inv c -> cache_inv (snd (JogCli.get_gcode c key cmd)).
Proof.
  intros Hinv. unfold JogCli.get_gcode.
  destruct (JogCli._cache c !! (key, cmd)) as [g0 |] eqn:Hc; [exact Hinv |].
  destruct (JogCli._build_gcode key cmd) as [g0 | e] eqn:Hb; simpl.
  - intros k. destruct (Hinv k) as [Hok Hcount].
    unfold build_count. simpl.
    destruct (decide ((key, cmd) = k)) as [<- | Hne].
    + rewrite lookup_insert_eq. split.
      * intros g [= <-]. exact Hb.
      * intros Hex. rewrite filter_cons_True by reflexivity. simpl.
        specialize (Hcount Hex). unfold build_count in Hcount.
        rewrite Hc in Hcount. rewrite Hcount. reflexivity.
    + rewrite lookup_insert_ne by exact Hne. split; [exact Hok |].
      intros Hex. rewrite filter_cons_False by exact Hne.
      apply Hcount, Hex.
  - intros k. destruct (Hinv k) as [Hok Hcount].
    unfold build_count. simpl. split; [exact Hok |].
    intros [g Hg].
    assert (Hne : (key, cmd) <> k).
    { intros <-. simpl in Hg. rewrite Hb in Hg. discriminate. }
    rewrite filter_cons_False by exact Hne.
    apply Hcount. eauto.
Qed.

(** A step of the process leaves the cache alone or is one [get_gcode]. *)
Lemma step_world_cache (w : JogCli.World) (ev : JogCli.Event) :
  JogCli.CACHE (JogCli.step_world w ev) = JogCli.CACHE w
  \/ exists key cmd,
      JogCli.CACHE (JogCli.step_world w ev)
      = snd (JogCli.get_gcode (JogCli.CACHE w) key cmd).
Proof.
  destruct ev as [cmd | s f | p]; simpl.
  - destruct (decide (cmd ∈ JogCli.PEN_CMDS)) as [Hpen | Hpen].
    + destruct (publish_pen cmd w Hpen) as (pen & b & d & g & _ & _ & ->).
      left. reflexivity.
    + unfold JogCli.publish_cmd.
      destruct (decide (cmd ∈ JogCli.PEN_CMDS)); [contradiction |].
      destruct (decide (cmd = "G77"%string)); [left; reflexivity |].
      right.
      exists {| JogCli.step := JogCli.step (JogCli.CURRENT w);
                JogCli.feed := JogCli.feed (JogCli.CURRENT w) |}, cmd.
      destruct (JogCli.get_gcode _ _ _) as [[g | e] c] eqn:Hget; simpl.
      * destruct (decide (cmd ∈ JogCli.CAROUSEL_CMDS)); simpl;
          [destruct (JogCli._z w) |]; reflexivity.
      * reflexivity.
  - left. reflexivity.
  - unfold JogCli.do_GET.
    destruct (decide (p = "/health"%string)); [left; reflexivity |].
    destruct (startswith p "/g/" && endswith p ".gcode");
      [| left; reflexivity].
    unfold JogCli.serve_gcode.
    destruct (JogCli._dyn_gcode w !! _); [left; reflexivity |].
    right.
    exists {| JogCli.step := JogCli.step (JogCli.CURRENT w);
              JogCli.feed := JogCli.feed (JogCli.CURRENT w) |},
      (str_remove ".gcode" 0 (last_segment p)).
    destruct (JogCli.get_gcode _ _ _) as [[g | e] c] eqn:Hget;
      simpl; reflexivity.
Qed.

Lemma run_cache_inv (evs : list JogCli.Event) :
  forall w : JogCli.World,
    cache_inv (JogCli.CACHE w) -> cache_inv (JogCli.CACHE (JogCli.run w evs)).
Proof.
  induction evs as [| ev evs IH]; intros w Hinv; simpl; [exact Hinv |].
  apply IH. destruct (step_world_cache w ev) as [-> | (key & cmd & ->)];
    [exact Hinv | apply cache_inv_get, Hinv].
Qed.




(* ================================================================= *)
(** ** Dynamic commands and unknown commands *)

Lemma pen_not_buildable (cmd : string) :
  cmd ∈ JogCli.PEN_CMDS -> ~ buildable cmd.
Proof.
  intros Hpen [Hm | [Hc | Hg]].
  - apply elem_of_dom in Hm. destruct Hm as [v Hv].
    apply pen_cmd_cases in Hpen.
    destruct Hpen as [-> | [-> | [-> | [-> | [-> | [-> | [-> | ->]]]]]]];
      vm_compute in Hv; discriminate.
  - exact (carousel_not_pen cmd Hc Hpen).
  - subst cmd. exact (G77_not_pen Hpen).
Qed.

Lemma command_ids_split (cmd : string) :
  cmd ∈ COMMAND_IDS <-> buildable cmd \/ cmd ∈ JogCli.PEN_CMDS.
Proof.
  unfold COMMAND_IDS, JogCli.SPECIAL_CMDS, buildable.
  rewrite !elem_of_union, elem_of_singleton. tauto.
Qed.

Lemma serve_gcode_dyn (cmd : string) (w : JogCli.World) :
  JogCli._dyn_gcode (snd (JogCli.serve_gcode cmd w)) = JogCli._dyn_gcode w.
Proof.
  unfold JogCli.serve_gcode.
  destruct (JogCli._dyn_gcode w !! cmd); [reflexivity |].
  destruct (JogCli.get_gcode _ _ _) as [[g | e] c]; reflexivity.
Qed.

Lemma publish_cmd_dyn (cmd : string) (w : JogCli.World) :
  (cmd ∈ JogCli.PEN_CMDS ->
   exists g, JogCli._dyn_gcode (snd (JogCli.publish_cmd cmd w))
             = <[cmd := g]> (JogCli._dyn_gcode w))
  /\ (cmd = "G77"%string ->
      JogCli._dyn_gcode (snd (JogCli.publish_cmd cmd w))
      = <[cmd := home_text]> (JogCli._dyn_gcode w))
  /\ (~ is_dynamic cmd ->
      JogCli._dyn_gcode (snd (JogCli.publish_cmd cmd w))
      = JogCli._dyn_gcode w).
Proof.
  unfold is_dynamic.
  destruct (decide (cmd ∈ JogCli.PEN_CMDS)) as [Hpen | Hpen].
  - destruct (publish_pen cmd w Hpen) as (pen & b & d & g & _ & _ & ->).
    split; [intros _; exists g; reflexivity |].
    split; [| tauto].
    intros ->. exfalso. exact (G77_not_pen Hpen).
  - unfold JogCli.publish_cmd.
    destruct (decide (cmd ∈ JogCli.PEN_CMDS)); [contradiction |].
    destruct (decide (cmd = "G77"%string)).
    + split; [tauto |]. split; [intros _; reflexivity | tauto].
    + split; [tauto |]. split; [tauto |]. intros _.
      destruct (JogCli.get_gcode _ _ _) as [[g | e] c]; simpl;
        [| reflexivity].
      destruct (decide (cmd ∈ JogCli.CAROUSEL_CMDS)); simpl;
        [destruct (JogCli._z w) |]; reflexivity.
Qed.

Lemma step_world_dyn_inv (w : JogCli.World) (ev : JogCli.Event) :
  dyn_inv w -> dyn_inv (JogCli.step_world w ev).
Proof.
  intros Hinv. destruct ev as [cmd | s f | p]; simpl.
  - destruct (publish_cmd_dyn cmd w) as (Hpen & Hhome & Hstat).
    intros cmd' g'. destruct (decide (cmd ∈ JogCli.PEN_CMDS)) as [Hp | Hp];
      [| destruct (decide (cmd = "G77"%string)) as [Hg | Hg]].
    + destruct (Hpen Hp) as [g ->].
      rewrite lookup_insert. case_decide; [| apply Hinv].
      subst cmd'. intros _. split; [left; exact Hp |].
      intros ->. exfalso. exact (G77_not_pen Hp).
    + rewrite (Hhome Hg).
      rewrite lookup_insert. case_decide; [| apply Hinv].
      subst cmd'. intros [= <-]. split; [right; exact Hg | reflexivity].
    + rewrite Hstat; [apply Hinv | unfold is_dynamic; tauto].
  - exact Hinv.
  - unfold JogCli.do_GET.
    destruct (decide (p = "/health"%string)); [exact Hinv |].
    destruct (startswith p "/g/" && endswith p ".gcode"); [| exact Hinv].
    intros cmd' g'. rewrite serve_gcode_dyn. apply Hinv.
Qed.

Lemma run_dyn_inv (evs : list JogCli.Event) :
  forall w : JogCli.World, dyn_inv w -> dyn_inv (JogCli.run w evs).
Proof.
  induction evs as [| ev evs IH]; intros w Hinv; simpl; [exact Hinv |].
  apply IH, step_world_dyn_inv, Hinv.
Qed.

Lemma dyn_inv_initial : dyn_inv JogCli.initial_world.
Proof. intros cmd g H. simpl in H. rewrite lookup_empty in H. discriminate. Qed.

(** What a request gets in a reachable state. *)
Lemma serve_gcode_response (cmd : string) (w : JogCli.World) :
  cache_inv (JogCli.CACHE w) ->
  fst (JogCli.serve_gcode cmd w)
  = match JogCli._dyn_gcode w !! cmd with
    | Some g => {| JogCli.status := 200; JogCli.body := g |}
    | None =>
        match JogCli._build_gcode (current_key w) cmd with
        | Ok g => {| JogCli.status := 200; JogCli.body := g |}
        | Raise e =>
            {| JogCli.status := 400;
               JogCli.body := "bad request: " +:+ str_exn e +:+ nl |}
        end
    end.
Proof.
  intros Hinv. unfold JogCli.serve_gcode. fold (current_key w).
  destruct (JogCli._dyn_gcode w !! cmd); [reflexivity |].
  unfold JogCli.get_gcode.
  destruct (JogCli._cache (JogCli.CACHE w) !! (current_key w, cmd))
    as [g |] eqn:Hc.
  - destruct (Hinv (current_key w, cmd)) as [Hok _].
    simpl in Hok. rewrite (Hok g Hc). reflexivity.
  - destruct (JogCli._build_gcode (current_key w) cmd); reflexivity.
Qed.

(** A request that ends in an error changes nothing but the build log. *)
Lemma serve_gcode_error_state (cmd : string) (w : JogCli.World) :
  JogCli.status (fst (JogCli.serve_gcode cmd w)) = 400%Z ->
  let w' := snd (JogCli.serve_gcode cmd w) in
  JogCli._z w' = JogCli._z w
  /\ JogCli.CURRENT w' = JogCli.CURRENT w
  /\ JogCli._dyn_gcode w' = JogCli._dyn_gcode w
  /\ JogCli._cache (JogCli.CACHE w') = JogCli._cache (JogCli.CACHE w).
Proof.
  unfold JogCli.serve_gcode.
  destruct (JogCli._dyn_gcode w !! cmd); [discriminate |].
  unfold JogCli.get_gcode.
  destruct (JogCli._cache (JogCli.CACHE w) !! _); [discriminate |].
  destruct (JogCli._build_gcode _ cmd); [discriminate |].
  intros _. repeat split; reflexivity.
Qed.

Lemma serve_gcode_fst_ext (cmd : string) (w1 w2 : JogCli.World) :
  JogCli.CURRENT w1 = JogCli.CURRENT w2 ->
  JogCli._dyn_gcode w1 = JogCli._dyn_gcode w2 ->
  JogCli._cache (JogCli.CACHE w1) = JogCli._cache (JogCli.CACHE w2) ->
  fst (JogCli.serve_gcode cmd w1) = fst (JogCli.serve_gcode cmd w2).
Proof.
  intros Hcur Hdyn Hcache. unfold JogCli.serve_gcode, JogCli.get_gcode.
  rewrite Hcur, Hdyn, Hcache.
  destruct (JogCli._dyn_gcode w2 !! cmd); [reflexivity |].
  destruct (JogCli._cache (JogCli.CACHE w2) !! _); [reflexivity |].
  destruct (JogCli._build_gcode _ cmd); reflexivity.
Qed.

Lemma build_gcode_ok_buildable (key : JogCli.Key) (cmd g : string) :
  JogCli._build_gcode key cmd = Ok g -> buildable cmd.
Proof.
  intros Hok.
  destruct (decide (cmd ∈ dom JogCli.MOTOR_CMDS)) as [Hm | Hm];
    [left; exact Hm |].
  destruct (decide (cmd ∈ JogCli.CAROUSEL_CMDS)) as [Hc | Hc];
    [right; left; exact Hc |].
  destruct (decide (cmd = "G77"%string)) as [Hg | Hg];
    [right; right; exact Hg |].
  destruct (build_gcode_buildable key cmd) as [_ Hraise].
  rewrite Hraise in Hok; [discriminate |].
  unfold buildable. tauto.
Qed.

Lemma reachable_inv (evs : list JogCli.Event) :
  cache_inv (JogCli.CACHE (JogCli.run JogCli.initial_world evs))
  /\ dyn_inv (JogCli.run JogCli.initial_world evs).
Proof.
  split.
  - apply run_cache_inv, cache_inv_empty.
  - apply run_dyn_inv, dyn_inv_initial.
Qed.

(** A request for home on a fresh process is answered by the static
    cache: nothing was published, the builder of the cache runs and its
    text is stored under the current key; the carousel state stays
    unknown.  So a dynamic identifier does enter the cache. *)
Lemma home_served_from_cache :
  let key := {| JogCli.step := Q2Qc 2; JogCli.feed := 900 |} in
  let w' := snd (JogCli.do_GET "/g/G77.gcode" JogCli.initial_world) in
  is_dynamic "G77"
  /\ JogCli._dyn_gcode JogCli.initial_world !! "G77"%string = None
  /\ fst (JogCli.do_GET "/g/G77.gcode" JogCli.initial_world)
     = {| JogCli.status := 200; JogCli.body := home_text |}
  /\ JogCli._cache (JogCli.CACHE w') !! (key, "G77"%string) = Some home_text
  /\ JogCli.build_log (JogCli.CACHE w') = [(key, "G77"%string)]
  /\ JogCli._z w' = None
  /\ ~ (forall (evs : list JogCli.Event) (cmd : string) (k : JogCli.Key),
           is_dynamic cmd ->
           JogCli._cache (JogCli.CACHE (JogCli.run JogCli.initial_world evs))
             !! (k, cmd) = None).
Proof.
  cbv zeta. split; [right; reflexivity |].
  split; [reflexivity |]. split; [reflexivity |].
  split; [vm_compute; reflexivity |].
  split; [reflexivity |]. split; [reflexivity |].
  intros H.
  specialize (H [JogCli.Get "/g/G77.gcode"] "G77"%string
                {| JogCli.step := Q2Qc 2; JogCli.feed := 900 |}
                (or_intror eq_refl)).
  vm_compute in H. discriminate.
Qed.

(** C3 (as amended): publishing a pen command or home never consults or
    fills the static cache: the text comes from the stateful emitter, at
    the current carousel angle, and goes to the dynamic table.  A pen
    command never enters the cache, and a request for it returns the text
    last published for it, or fails with a 400 if there is none.  A
    request for home returns the home text: from the dynamic table once
    home has been published, and before that from the static cache, which
    builds and stores it. *)
Theorem dynamic_commands_routing :
  (forall (cmd : string) (w : JogCli.World),
      is_dynamic cmd ->
      JogCli.CACHE (snd (JogCli.publish_cmd cmd w)) = JogCli.CACHE w)
  /\ (forall (cmd : string) (w : JogCli.World),
         cmd ∈ JogCli.PEN_CMDS ->
         exists (pen base : Z) (is_down : bool),
           JogCli.PEN_SLOT_Z !! pen = Some base
           /\ let target :=
                JogCli._ccw_only_target (JogCli._z w) (inject_Z base) in
              let text :=
                join_lines
                  (["G21"; "G90"; "M17";
                    "G1 Z" +:+ format_3f target +:+ " F2000"]%string
                   ++ (if is_down then ["G101"; "G101"; "G101"]%string
                       else [])) in
              fst (JogCli.build_pen_gcode pen is_down 2000 w) = Ok text
              /\ JogCli._dyn_gcode (snd (JogCli.publish_cmd cmd w)) !! cmd
                 = Some text
              /\ JogCli._z (snd (JogCli.publish_cmd cmd w)) = Some target)
  /\ (forall w : JogCli.World,
         JogCli._dyn_gcode (snd (JogCli.publish_cmd "G77" w)) !! "G77"%string
         = Some home_text
         /\ JogCli._z (snd (JogCli.publish_cmd "G77" w)) = Some (- (56)))
  /\ (forall (evs : list JogCli.Event) (cmd : string),
         cmd ∈ JogCli.PEN_CMDS ->
         let w := JogCli.run JogCli.initial_world evs in
         (forall k : JogCli.Key,
             JogCli._cache (JogCli.CACHE w) !! (k, cmd) = None)
         /\ fst (JogCli.serve_gcode cmd w)
            = match JogCli._dyn_gcode w !! cmd with
              | Some g => {| JogCli.status := 200; JogCli.body := g |}
              | None =>
                  {| JogCli.status := 400;
                     JogCli.body :=
                       "bad request: unknown cmd " +:+ cmd +:+ nl |}
              end)
  /\ (forall evs : list JogCli.Event,
         let w := JogCli.run JogCli.initial_world evs in
         fst (JogCli.serve_gcode "G77" w)
         = {| JogCli.status := 200; JogCli.body := home_text |}
         /\ (JogCli._dyn_gcode w !! "G77"%string = None ->
             JogCli._cache (JogCli.CACHE (snd (JogCli.serve_gcode "G77" w)))
               !! (current_key w, "G77"%string) = Some home_text)).
Proof.
  split; [| split; [| split; [| split]]].
  - intros cmd w [Hpen | ->].
    + destruct (publish_pen cmd w Hpen) as (pen & b & d & g & _ & _ & ->).
      reflexivity.
    + reflexivity.
  - intros cmd w Hpen.
    destruct (publish_pen cmd w Hpen)
      as (pen & base & d & g & Hslot & Hbuild & Hpub).
    exists pen, base, d. split; [exact Hslot |]. cbv zeta.
    rewrite (build_pen_gcode_slot pen base d 2000 w Hslot) in Hbuild.
    cbv zeta in Hbuild. injection Hbuild as Hg.
    rewrite Hpub, (build_pen_gcode_slot pen base d 2000 w Hslot).
    cbn [fst snd JogCli.set_dynamic_gcode JogCli._dyn_gcode JogCli._z
         JogCli._z_set].
    rewrite lookup_insert_eq, <- Hg. repeat split; reflexivity.
  - intros w. split; [| reflexivity].
    cbn. apply lookup_insert_eq.
  - intros evs cmd Hpen w.
    destruct (reachable_inv evs) as [Hcache Hdyn]. fold w in Hcache, Hdyn.
    pose proof (pen_not_buildable cmd Hpen) as Hnb.
    split.
    + intros k.
      destruct (JogCli._cache (JogCli.CACHE w) !! (k, cmd)) as [g |] eqn:Hc;
        [| reflexivity].
      destruct (Hcache (k, cmd)) as [Hok _].
      exfalso. apply Hnb. exact (build_gcode_ok_buildable _ _ _ (Hok g Hc)).
    + rewrite (serve_gcode_response cmd w Hcache).
      destruct (JogCli._dyn_gcode w !! cmd); [reflexivity |].
      destruct (build_gcode_buildable (current_key w) cmd) as [_ Hraise].
      rewrite (Hraise Hnb). reflexivity.
  - intros evs w.
    destruct (reachable_inv evs) as [Hcache Hdyn]. fold w in Hcache, Hdyn.
    split.
    + rewrite (serve_gcode_response "G77" w Hcache).
      destruct (JogCli._dyn_gcode w !! "G77"%string) as [g |] eqn:Hd.
      * destruct (Hdyn _ _ Hd) as [_ Hg]. rewrite (Hg eq_refl). reflexivity.
      * reflexivity.
    + intros Hnone. unfold JogCli.serve_gcode. rewrite Hnone.
      fold (current_key w).
      destruct (JogCli.get_gcode (JogCli.CACHE w) (current_key w) "G77")
        as [r c] eqn:Hget.
      assert (Hr : r = Ok home_text).
      { pose proof (serve_gcode_response "G77" w Hcache) as Hresp.
        unfold JogCli.serve_gcode in Hresp. rewrite Hnone in Hresp.
        fold (current_key w) in Hresp. rewrite Hget in Hresp.
        destruct r as [g | e]; simpl in Hresp; [| discriminate].
        injection Hresp as ->. reflexivity. }
      subst r.
      pose proof (get_gcode_stores (JogCli.CACHE w) (current_key w) "G77"
                    home_text) as Hst.
      rewrite Hget in Hst. specialize (Hst eq_refl).
      simpl in Hst. exact Hst.
Qed.

(** The text served for [P1_UP] follows the carousel: after home it
    moves to 89, and once pen 2 has been selected, to 449. *)
Lemma dynamic_commands_routing_witness :
  fst (JogCli.serve_gcode "P1_UP"
         (JogCli.run JogCli.initial_world
            [JogCli.Publish "G77"; JogCli.Publish "P1_UP"]%string))
  = {| JogCli.status := 200;
       JogCli.body :=
         join_lines ["G21"; "G90"; "M17"; "G1 Z89.000 F2000"]%string |}
  /\ fst (JogCli.serve_gcode "P1_UP"
            (JogCli.run JogCli.initial_world
               [JogCli.Publish "G77"; JogCli.Publish "P1_UP";
                JogCli.Publish "P2_UP"; JogCli.Publish "P1_UP"]%string))
     = {| JogCli.status := 200;
          JogCli.body :=
            join_lines ["G21"; "G90"; "M17"; "G1 Z449.000 F2000"]%string |}
  /\ fst (JogCli.serve_gcode "P3_DOWN" JogCli.initial_world)
     = {| JogCli.status := 400;
          JogCli.body := "bad request: unknown cmd P3_DOWN" +:+ nl |}.
Proof.
  destruct dynamic_commands_routing as (_ & _ & _ & Hpen & _).
  assert (H1 : "P1_UP"%string ∈ JogCli.PEN_CMDS)
    by (apply pen_cmd_in; left; reflexivity).
  assert (H3 : "P3_DOWN"%string ∈ JogCli.PEN_CMDS)
    by (apply pen_cmd_in; do 6 right; left; reflexivity).
  split; [| split].
  - destruct (Hpen [JogCli.Publish "G77"; JogCli.Publish "P1_UP"]%string
                "P1_UP"%string H1) as [_ ->].
    vm_compute. reflexivity.
  - destruct (Hpen [JogCli.Publish "G77"; JogCli.Publish "P1_UP";
                    JogCli.Publish "P2_UP"; JogCli.Publish "P1_UP"]%string
                "P1_UP"%string H1) as [_ ->].
    vm_compute. reflexivity.
  - destruct (Hpen [] "P3_DOWN"%string H3) as [_ H].
    etransitivity; [exact H | vm_compute; reflexivity].
Defined.

(** The pen command [P1_UP] belongs to the closed set, and yet the
    builder of the cache raises on it and a request for it on a fresh
    process is answered with the error. *)
Lemma pen_command_unknown_to_builder :
  let key := {| JogCli.step := Q2Qc 2; JogCli.feed := 900 |} in
  "P1_UP"%string ∈ COMMAND_IDS
  /\ JogCli._build_gcode key "P1_UP"
     = Raise (ValueError "unknown cmd P1_UP")
  /\ fst (JogCli.do_GET "/g/P1_UP.gcode" JogCli.initial_world)
     = {| JogCli.status := 400;
          JogCli.body := "bad request: unknown cmd P1_UP" +:+ nl |}
  /\ ~ (forall (k : JogCli.Key) (cmd : string),
           (exists e, JogCli._build_gcode k cmd = Raise e)
           <-> cmd ∉ COMMAND_IDS).
Proof.
  cbv zeta.
  assert (Hin : "P1_UP"%string ∈ COMMAND_IDS).
  { apply command_ids_split. right. apply pen_cmd_in. left. reflexivity. }
  split; [exact Hin |]. split; [reflexivity |]. split; [reflexivity |].
  intros H.
  destruct (H {| JogCli.step := Q2Qc 2; JogCli.feed := 900 |} "P1_UP"%string)
    as [Hraise _].
  apply Hraise; [| exact Hin]. eexists. reflexivity.
Qed.

(** C8 (as amended): the builder behind the cache fails with the
    unknown-command error exactly on the identifiers it has no branch
    for: those outside the closed set, and the pen commands, which are in
    the set but are built elsewhere.  A request fails with status 400
    exactly when its command is outside the closed set or is a pen
    command that has not been published; the error is the body of the
    response, and the process serves every later request as it would
    have without the failed one. *)
Theorem unknown_command_error :
  (forall (key : JogCli.Key) (cmd : string),
      (buildable cmd -> exists g, JogCli._build_gcode key cmd = Ok g)
      /\ (~ buildable cmd ->
          JogCli._build_gcode key cmd
          = Raise (ValueError ("unknown cmd " +:+ cmd))))
  /\ (forall cmd : string,
         buildable cmd <-> cmd ∈ COMMAND_IDS /\ cmd ∉ JogCli.PEN_CMDS)
  /\ (forall (evs : list JogCli.Event) (cmd : string),
         let w := JogCli.run JogCli.initial_world evs in
         let r := fst (JogCli.serve_gcode cmd w) in
         (JogCli.status r = 400%Z
          <-> cmd ∉ COMMAND_IDS
              \/ (cmd ∈ JogCli.PEN_CMDS /\ JogCli._dyn_gcode w !! cmd = None))
         /\ (JogCli.status r = 400%Z ->
             JogCli.body r = "bad request: unknown cmd " +:+ cmd +:+ nl)
         /\ (JogCli.status r = 400%Z \/ JogCli.status r = 200%Z))
  /\ (forall (w : JogCli.World) (cmd : string),
         JogCli.status (fst (JogCli.serve_gcode cmd w)) = 400%Z ->
         let w' := snd (JogCli.serve_gcode cmd w) in
         JogCli._z w' = JogCli._z w
         /\ JogCli.CURRENT w' = JogCli.CURRENT w
         /\ JogCli._dyn_gcode w' = JogCli._dyn_gcode w
         /\ JogCli._cache (JogCli.CACHE w') = JogCli._cache (JogCli.CACHE w)
         /\ forall cmd' : string,
             fst (JogCli.serve_gcode cmd' w') = fst (JogCli.serve_gcode cmd' w)).
Proof.
  split; [exact build_gcode_buildable |]. split; [| split].
  - intros cmd. rewrite command_ids_split. split.
    + intros Hb. split; [left; exact Hb |].
      intros Hpen. exact (pen_not_buildable cmd Hpen Hb).
    + intros [[Hb | Hpen] Hnp]; [exact Hb | contradiction].
  - intros evs cmd w r.
    destruct (reachable_inv evs) as [Hcache Hdyn]. fold w in Hcache, Hdyn.
    pose proof (serve_gcode_response cmd w Hcache) as Hresp. fold r in Hresp.
    destruct (build_gcode_buildable (current_key w) cmd) as [Hok Hraise].
    destruct (JogCli._dyn_gcode w !! cmd) as [g |] eqn:Hd.
    + rewrite Hresp. simpl.
      destruct (Hdyn _ _ Hd) as [Hisdyn _].
      split; [| split; [discriminate | right; reflexivity]].
      split; [discriminate |].
      intros [Hout | [_ Hnone]]; [| discriminate].
      exfalso. apply Hout, command_ids_split.
      destruct Hisdyn as [Hpen | ->]; [right; exact Hpen |].
      left. right. right. reflexivity.
    + destruct (JogCli._build_gcode (current_key w) cmd) as [g | e] eqn:Hb.
      * rewrite Hresp. simpl.
        pose proof (build_gcode_ok_buildable _ _ _ Hb) as Hbuild.
        split; [| split; [discriminate | right; reflexivity]].
        split; [discriminate |].
        intros [Hout | [Hpen _]]; exfalso.
        -- apply Hout, command_ids_split. left. exact Hbuild.
        -- exact (pen_not_buildable cmd Hpen Hbuild).
      * assert (Hnb : ~ buildable cmd).
        { intros Hbd. destruct (Hok Hbd) as [g Hg]. discriminate. }
        pose proof (Hraise Hnb) as He. injection He as ->.
        rewrite Hresp. simpl.
        split; [| split; [intros _; reflexivity | left; reflexivity]].
        split; [| intros _; reflexivity].
        intros _.
        destruct (decide (cmd ∈ JogCli.PEN_CMDS)) as [Hpen | Hpen];
          [right; split; [exact Hpen | reflexivity] |].
        left. intros Hin. apply command_ids_split in Hin. tauto.
  - intros w cmd H400 w'.
    destruct (serve_gcode_error_state cmd w H400) as (Hz & Hcur & Hd & Hc).
    fold w' in Hz, Hcur, Hd, Hc.
    repeat (split; [assumption |]).
    intros cmd'. apply serve_gcode_fst_ext; assumption.
Qed.

(** A request for a command nobody knows is refused, and the jog that is
    requested next is served. *)
Lemma unknown_command_error_witness :
  let r := JogCli.do_GET "/g/SPIN.gcode" JogCli.initial_world in
  fst r = {| JogCli.status := 400;
             JogCli.body := "bad request: unknown cmd SPIN" +:+ nl |}
  /\ JogCli.status (fst (JogCli.serve_gcode "L_OUT" (snd r))) = 200%Z
  /\ JogCli._build_gcode {| JogCli.step := Q2Qc 2; JogCli.feed := 900 |}
       "SPIN"
     = Raise (ValueError "unknown cmd SPIN").
Proof.
  cbv zeta.
  destruct unknown_command_error as (Hbuild & _ & Hserve & Hkeep).
  assert (Hnb : ~ buildable "SPIN").
  { intros [Hm | [Hc | Hg]].
    - apply elem_of_dom in Hm. destruct Hm as [v Hv].
      vm_compute in Hv. discriminate.
    - unfold JogCli.CAROUSEL_CMDS in Hc.
      rewrite elem_of_union, !elem_of_singleton in Hc.
      destruct Hc; discriminate.
    - discriminate. }
  assert (H400 : JogCli.status
                   (fst (JogCli.serve_gcode "SPIN" JogCli.initial_world))
                 = 400%Z).
  { destruct (Hserve [] "SPIN"%string) as [Hiff _]. apply Hiff.
    left. intros Hin. apply command_ids_split in Hin.
    destruct Hin as [Hb | Hpen]; [exact (Hnb Hb) |].
    apply pen_cmd_cases in Hpen.
    repeat (destruct Hpen as [Hpen | Hpen]; [discriminate Hpen |]).
    discriminate Hpen. }
  split; [| split].
  - destruct (Hserve [] "SPIN"%string) as (_ & Hbody & _).
    specialize (Hbody H400). simpl in Hbody.
    change (JogCli.do_GET "/g/SPIN.gcode" JogCli.initial_world)
      with (JogCli.serve_gcode "SPIN" JogCli.initial_world).
    destruct (fst (JogCli.serve_gcode "SPIN" JogCli.initial_world))
      as [st bd]. simpl in *. subst. reflexivity.
  - change (JogCli.do_GET "/g/SPIN.gcode" JogCli.initial_world)
      with (JogCli.serve_gcode "SPIN" JogCli.initial_world).
    destruct (Hkeep JogCli.initial_world "SPIN"%string H400)
      as (_ & _ & _ & _ & Hnext).
    rewrite (Hnext "L_OUT"%string). reflexivity.
  - destruct (Hbuild {| JogCli.step := Q2Qc 2; JogCli.feed := 900 |}
                "SPIN"%string) as [_ Hraise].
    exact (Hraise Hnb).
Defined.

(* ================================================================= *)
(** ** Publishing and fetching *)

Lemma motor_cmd_cases (cmd : string) :
  cmd ∈ dom JogCli.MOTOR_CMDS ->
  cmd = "BOTH_IN"%string \/ cmd = "BOTH_OUT"%string \/ cmd = "L_IN"%string
  \/ cmd = "L_OUT"%string \/ cmd = "R_IN"%string \/ cmd = "R_OUT"%string
  \/ cmd = "LEFTISH"%string \/ cmd = "RIGHTISH"%string.
Proof.
  unfold JogCli.MOTOR_CMDS. rewrite dom_list_to_map_L.
  cbn [fmap list_fmap fst list_to_set foldr].
  rewrite !elem_of_union, !elem_of_singleton, elem_of_empty. tauto.
Qed.

Lemma carousel_cmd_cases (cmd : string) :
  cmd ∈ JogCli.CAROUSEL_CMDS <->
  cmd = "CAR_CCW"%string \/ cmd = "CAR_CW"%string.
Proof.
  unfold JogCli.CAROUSEL_CMDS. rewrite elem_of_union, !elem_of_singleton.
  tauto.
Qed.

Lemma plain_cons (c : ascii) (s : string) :
  plain (String c s) <-> plain_char c /\ plain s.
Proof. unfold plain. simpl. apply Forall_cons_iff. Qed.

Lemma command_ids_plain (cmd : string) : cmd ∈ COMMAND_IDS -> plain cmd.
Proof.
  intros Hin. apply command_ids_split in Hin.
  assert (Hcases :
            (cmd = "BOTH_IN"%string \/ cmd = "BOTH_OUT"%string
             \/ cmd = "L_IN"%string \/ cmd = "L_OUT"%string
             \/ cmd = "R_IN"%string \/ cmd = "R_OUT"%string
             \/ cmd = "LEFTISH"%string \/ cmd = "RIGHTISH"%string)
            \/ (cmd = "CAR_CCW"%string \/ cmd = "CAR_CW"%string)
            \/ cmd = "G77"%string
            \/ (cmd = "P1_UP"%string \/ cmd = "P2_UP"%string
                \/ cmd = "P3_UP"%string \/ cmd = "P4_UP"%string
                \/ cmd = "P1_DOWN"%string \/ cmd = "P2_DOWN"%string
                \/ cmd = "P3_DOWN"%string \/ cmd = "P4_DOWN"%string)).
  { destruct Hin as [[Hm | [Hc | Hg]] | Hp].
    - left. apply motor_cmd_cases, Hm.
    - right. left. apply carousel_cmd_cases, Hc.
    - right. right. left. exact Hg.
    - right. right. right. apply pen_cmd_cases, Hp. }
  assert (Hplain : forall s : string,
             forallb (fun c => negb (Ascii.eqb c "/") && negb (Ascii.eqb c "."))
               (list_ascii_of_string s) = true -> plain s).
  { intros s Hs. unfold plain. apply Forall_forall. intros c Hc.
    apply list_elem_of_In in Hc.
    rewrite forallb_forall in Hs. specialize (Hs c Hc).
    apply andb_prop in Hs. destruct Hs as [H1 H2].
    split; intros ->; discriminate. }
  repeat (destruct Hcases as [Hcases | Hcases]);
    subst cmd; apply Hplain; reflexivity.
Qed.

Lemma no_slash (s : string) :
  plain s -> existsb (Ascii.eqb "/"%char) (list_ascii_of_string s) = false.
Proof.
  induction s as [| c s IH]; [reflexivity |].
  rewrite plain_cons. intros [[Hc _] Hs].
  cbn [String.append list_ascii_of_string existsb].
  rewrite IH by exact Hs.
  destruct (Ascii.eqb_spec "/"%char c) as [<- | _]; [contradiction | reflexivity].
Qed.

Lemma plain_append_gcode (s : string) : plain s ->
  existsb (Ascii.eqb "/"%char) (list_ascii_of_string (s +:+ ".gcode")) = false.
Proof.
  induction s as [| c s IH]; [reflexivity |].
  rewrite plain_cons. intros [[Hc _] Hs].
  change (String c s +:+ ".gcode")%string with (String c (s +:+ ".gcode")).
  cbn [list_ascii_of_string existsb].
  rewrite IH by exact Hs.
  destruct (Ascii.eqb_spec "/"%char c) as [<- | _]; [contradiction | reflexivity].
Qed.

Lemma last_segment_url_path (cmd : string) :
  plain cmd -> last_segment (JogCli.url_path cmd) = (cmd +:+ ".gcode")%string.
Proof.
  intros Hp. unfold JogCli.url_path.
  change ("/g/" +:+ cmd +:+ ".gcode")%string
    with (String "/" (String "g" (String "/" (cmd +:+ ".gcode")))).
  cbn [last_segment list_ascii_of_string existsb].
  rewrite (plain_append_gcode cmd Hp). reflexivity.
Qed.

Lemma str_remove_gcode (cmd : string) :
  plain cmd -> str_remove ".gcode" 0 (cmd +:+ ".gcode") = cmd.
Proof.
  induction cmd as [| c cmd IH]; [reflexivity |].
  rewrite plain_cons. intros [[_ Hc] Hs].
  change (String c cmd +:+ ".gcode")%string
    with (String c (cmd +:+ ".gcode")).
  cbn [str_remove String.prefix].
  destruct (ascii_dec "." c) as [<- | _]; [contradiction |].
  rewrite IH by exact Hs. reflexivity.
Qed.

Lemma length_append_gcode (s : string) :
  String.length (s +:+ ".gcode") = (String.length s + 6)%nat.
Proof.
  induction s as [| c s IH]; [reflexivity |].
  change (String c s +:+ ".gcode")%string with (String c (s +:+ ".gcode")).
  cbn [String.length]. rewrite IH. reflexivity.
Qed.

Lemma substring_append_gcode (s : string) :
  String.substring (String.length s) 6 (s +:+ ".gcode") = ".gcode"%string.
Proof. induction s as [| c s IH]; [reflexivity | exact IH]. Qed.

Lemma endswith_url_path (cmd : string) :
  endswith (JogCli.url_path cmd) ".gcode" = true.
Proof.
  unfold endswith, JogCli.url_path.
  change ("/g/" +:+ cmd +:+ ".gcode")%string
    with (String "/" (String "g" (String "/" (cmd +:+ ".gcode")))).
  cbn [String.length]. rewrite length_append_gcode.
  replace (S (S (S (String.length cmd + 6))) - 6)%nat
    with (S (S (S (String.length cmd)))) by lia.
  cbn [String.substring]. rewrite substring_append_gcode.
  apply andb_true_intro. split; [reflexivity |].
  apply Nat.leb_le. lia.
Qed.

Lemma startswith_url_path (cmd : string) :
  startswith (JogCli.url_path cmd) "/g/" = true.
Proof.
  unfold startswith, JogCli.url_path.
  change ("/g/" +:+ cmd +:+ ".gcode")%string
    with (String "/" (String "g" (String "/" (cmd +:+ ".gcode")))).
  cbn [String.prefix].
  repeat (destruct (ascii_dec _ _); [| congruence]).
  destruct cmd; reflexivity.
Qed.

(** The request for the URL of a command reaches that command. *)
Lemma do_GET_url_path (cmd : string) (w : JogCli.World) :
  plain cmd -> JogCli.do_GET (JogCli.url_path cmd) w = JogCli.serve_gcode cmd w.
Proof.
  intros Hp. unfold JogCli.do_GET.
  destruct (decide (JogCli.url_path cmd = "/health"%string)) as [E | _];
    [discriminate E |].
  rewrite endswith_url_path, startswith_url_path.
  cbn [andb]. rewrite last_segment_url_path, str_remove_gcode by exact Hp.
  reflexivity.
Qed.

Lemma get_gcode_buildable (c : JogCli.Cache) (key : JogCli.Key)
    (cmd : string) :
  buildable cmd -> exists g, fst (JogCli.get_gcode c key cmd) = Ok g.
Proof.
  intros Hb. unfold JogCli.get_gcode.
  destruct (JogCli._cache c !! (key, cmd)); [eauto |].
  destruct (build_gcode_buildable key cmd) as [Hok _].
  destruct (Hok Hb) as [g ->]. eauto.
Qed.

(** Publishing a command of the closed set succeeds and leaves the
    settings alone. *)
Lemma publish_cmd_ok (cmd : string) (w : JogCli.World) :
  cmd ∈ COMMAND_IDS ->
  fst (JogCli.publish_cmd cmd w) = Ok tt
  /\ JogCli.CURRENT (snd (JogCli.publish_cmd cmd w)) = JogCli.CURRENT w.
Proof.
  intros Hin. apply command_ids_split in Hin.
  destruct (decide (cmd ∈ JogCli.PEN_CMDS)) as [Hpen | Hpen].
  - destruct (publish_pen cmd w Hpen) as (pen & b & d & g & _ & _ & ->).
    split; reflexivity.
  - destruct Hin as [Hb | Hp]; [| contradiction].
    unfold JogCli.publish_cmd.
    destruct (decide (cmd ∈ JogCli.PEN_CMDS)); [contradiction |].
    destruct (decide (cmd = "G77"%string)); [split; reflexivity |].
    destruct (get_gcode_buildable (JogCli.CACHE w)
                {| JogCli.step := JogCli.step (JogCli.CURRENT w);
                   JogCli.feed := JogCli.feed (JogCli.CURRENT w) |} cmd Hb)
      as [g Hg].
    destruct (JogCli.get_gcode _ _ _) as [r c]. simpl in Hg. subst r.
    destruct (decide (cmd ∈ JogCli.CAROUSEL_CMDS)); simpl;
      [destruct (JogCli._z w) |]; split; reflexivity.
Qed.

(** Publishing anything else fails in the builder of the cache, before
    any state but the build log is touched. *)
Lemma publish_cmd_unknown (cmd : string) (w : JogCli.World) :
  cache_inv (JogCli.CACHE w) ->
  cmd ∉ COMMAND_IDS ->
  let w' := snd (JogCli.publish_cmd cmd w) in
  fst (JogCli.publish_cmd cmd w) = Raise (ValueError ("unknown cmd " +:+ cmd))
  /\ JogCli._z w' = JogCli._z w
  /\ JogCli.CURRENT w' = JogCli.CURRENT w
  /\ JogCli._dyn_gcode w' = JogCli._dyn_gcode w
  /\ JogCli._cache (JogCli.CACHE w') = JogCli._cache (JogCli.CACHE w).
Proof.
  intros Hinv Hout.
  assert (Hnb : ~ buildable cmd)
    by (intros Hb; apply Hout, command_ids_split; left; exact Hb).
  assert (Hnp : cmd ∉ JogCli.PEN_CMDS)
    by (intros Hp; apply Hout, command_ids_split; right; exact Hp).
  assert (Hng : cmd <> "G77"%string)
    by (intros Hg; apply Hnb; right; right; exact Hg).
  unfold JogCli.publish_cmd.
  destruct (decide (cmd ∈ JogCli.PEN_CMDS)); [contradiction |].
  destruct (decide (cmd = "G77"%string)); [contradiction |].
  unfold JogCli.get_gcode.
  destruct (JogCli._cache (JogCli.CACHE w) !! _) as [g |] eqn:Hc.
  - destruct (Hinv (current_key w, cmd)) as [Hok _].
    exfalso. apply Hnb.
    exact (build_gcode_ok_buildable _ _ _ (Hok g Hc)).
  - destruct (build_gcode_buildable
                {| JogCli.step := JogCli.step (JogCli.CURRENT w);
                   JogCli.feed := JogCli.feed (JogCli.CURRENT w) |} cmd)
      as [_ Hraise].
    rewrite (Hraise Hnb). repeat split; reflexivity.
Qed.

(** X1: in every state the process can reach, publishing a command
    succeeds if and only if the command is in the closed set (motor jogs,
    carousel jogs, pen commands, home); publishing any other command
    raises [ValueError("unknown cmd ...")] and leaves the carousel angle,
    the settings, the dynamic table and the cache entries as they were. *)
Theorem publish_cmd_succeeds_iff_recognized :
  forall (evs : list JogCli.Event) (cmd : string),
    let w := JogCli.run JogCli.initial_world evs in
    let w' := snd (JogCli.publish_cmd cmd w) in
    (cmd ∈ COMMAND_IDS <-> fst (JogCli.publish_cmd cmd w) = Ok tt)
    /\ (cmd ∉ COMMAND_IDS ->
        fst (JogCli.publish_cmd cmd w)
        = Raise (ValueError ("unknown cmd " +:+ cmd))
        /\ JogCli._z w' = JogCli._z w
        /\ JogCli.CURRENT w' = JogCli.CURRENT w
        /\ JogCli._dyn_gcode w' = JogCli._dyn_gcode w
        /\ JogCli._cache (JogCli.CACHE w') = JogCli._cache (JogCli.CACHE w)).
Proof.
  intros evs cmd w w'.
  destruct (reachable_inv evs) as [Hcache _]. fold w in Hcache.
  split.
  - split.
    + intros Hin. apply publish_cmd_ok, Hin.
    + intros Hok. destruct (decide (cmd ∈ COMMAND_IDS)) as [Hin | Hout];
        [exact Hin |].
      destruct (publish_cmd_unknown cmd w Hcache Hout) as [Hr _].
      rewrite Hr in Hok. discriminate.
  - intros Hout. exact (publish_cmd_unknown cmd w Hcache Hout).
Qed.

(** After a key press for [SPIN], which no key has, nothing has moved. *)
Lemma publish_cmd_succeeds_iff_recognized_witness :
  fst (JogCli.publish_cmd "SPIN" JogCli.initial_world)
  = Raise (ValueError "unknown cmd SPIN")
  /\ fst (JogCli.publish_cmd "P2_DOWN" JogCli.initial_world) = Ok tt.
Proof.
  destruct (publish_cmd_succeeds_iff_recognized [] "SPIN"%string)
    as [_ Hout].
  destruct (publish_cmd_succeeds_iff_recognized [] "P2_DOWN"%string)
    as [[Hin _] _].
  split.
  - destruct Hout as [H _]; [| exact H].
    apply (bool_decide_eq_false_1 ("SPIN"%string ∈ COMMAND_IDS)).
    vm_compute. reflexivity.
  - apply Hin, command_ids_split. right. apply pen_cmd_in.
    do 5 right. left. reflexivity.
Defined.

(** X2: a command of the closed set that has just been published is
    served under its URL path [/g/<cmd>.gcode] with status 200: a pen
    command or home with the text the publication put in the dynamic
    table, a jog with the text of the cache builder for the current
    settings. *)
Theorem published_command_is_served (cmd : string) :
  cmd ∈ COMMAND_IDS ->
  forall evs : list JogCli.Event,
    let w := JogCli.run JogCli.initial_world evs in
    let w' := snd (JogCli.publish_cmd cmd w) in
    exists text : string,
      fst (JogCli.do_GET (JogCli.url_path cmd) w')
      = {| JogCli.status := 200; JogCli.body := text |}
      /\ (is_dynamic cmd -> JogCli._dyn_gcode w' !! cmd = Some text)
      /\ (~ is_dynamic cmd ->
          JogCli._build_gcode (current_key w) cmd = Ok text).
Proof.
  intros Hin evs w w'.
  rewrite (do_GET_url_path cmd w' (command_ids_plain cmd Hin)).
  assert (Hreach : w' = JogCli.run JogCli.initial_world
                          (evs ++ [JogCli.Publish cmd])).
  { unfold w', w, JogCli.run. rewrite fold_left_app. reflexivity. }
  destruct (reachable_inv (evs ++ [JogCli.Publish cmd])) as [Hcache Hdyn].
  rewrite <- Hreach in Hcache, Hdyn.
  rewrite (serve_gcode_response cmd w' Hcache).
  destruct (publish_cmd_ok cmd w Hin) as [_ Hcur]. fold w' in Hcur.
  assert (Hkey : current_key w' = current_key w)
    by (unfold current_key; rewrite Hcur; reflexivity).
  destruct (publish_cmd_dyn cmd w) as (Hpen & Hhome & Hstat).
  fold w' in Hpen, Hhome, Hstat.
  destruct (decide (cmd ∈ JogCli.PEN_CMDS)) as [Hp | Hp];
    [| destruct (decide (cmd = "G77"%string)) as [Hg | Hg]].
  - destruct (Hpen Hp) as [g Hg]. rewrite Hg, lookup_insert_eq.
    exists g. split; [reflexivity |].
    split; [intros _; reflexivity |].
    intros Hnd. exfalso. apply Hnd. left. exact Hp.
  - rewrite (Hhome Hg), lookup_insert_eq.
    exists home_text. split; [reflexivity |].
    split; [intros _; reflexivity |].
    intros Hnd. exfalso. apply Hnd. right. exact Hg.
  - assert (Hnd : ~ is_dynamic cmd) by (unfold is_dynamic; tauto).
    destruct (JogCli._dyn_gcode w' !! cmd) as [g |] eqn:Hd.
    + destruct (Hdyn _ _ Hd) as [Hisdyn _]. contradiction.
    + apply command_ids_split in Hin.
      destruct Hin as [Hb | Hpen']; [| contradiction].
      destruct (build_gcode_buildable (current_key w) cmd) as [Hok _].
      destruct (Hok Hb) as [g Hg']. rewrite Hkey, Hg'.
      exists g. split; [reflexivity |].
      split; [intros Hdy; contradiction | intros _; reflexivity].
Qed.

(** Pen 3 down on a freshly homed carousel, then fetched. *)
Lemma published_command_is_served_witness :
  fst (JogCli.do_GET "/g/P3_DOWN.gcode"
         (JogCli.run JogCli.initial_world
            [JogCli.Publish "G77"; JogCli.Publish "P3_DOWN"]%string))
  = {| JogCli.status := 200;
       JogCli.body :=
         join_lines ["G21"; "G90"; "M17"; "G1 Z233.000 F2000";
                     "G101"; "G101"; "G101"]%string |}.
Proof.
  assert (Hin : "P3_DOWN"%string ∈ COMMAND_IDS).
  { apply command_ids_split. right. apply pen_cmd_in.
    do 6 right. left. reflexivity. }
  destruct (published_command_is_served "P3_DOWN"%string Hin
              [JogCli.Publish "G77"]%string) as (text & Hget & Hdyn & _).
  cbv zeta in Hget, Hdyn.
  specialize (Hdyn (or_introl (pen_cmd_in _ ltac:(do 6 right; left; reflexivity)))).
  assert (Htext : text = join_lines ["G21"; "G90"; "M17"; "G1 Z233.000 F2000";
                                     "G101"; "G101"; "G101"]%string).
  { vm_compute in Hdyn. injection Hdyn as <-. reflexivity. }
  rewrite <- Htext. exact Hget.
Defined.

(* ================================================================= *)
(** ** Requests *)

(** X3: a request never touches the carousel angle, the settings or the
    dynamic table, and never removes or changes an entry of the cache;
    its status is 200, 400 or 404, and it is 404 exactly when the path
    is neither [/health] nor of the form [/g/....gcode]. *)
Theorem do_GET_is_read_only (p : string) (w : JogCli.World) :
  let r := fst (JogCli.do_GET p w) in
  let w' := snd (JogCli.do_GET p w) in
  JogCli._z w' = JogCli._z w
  /\ JogCli.CURRENT w' = JogCli.CURRENT w
  /\ JogCli._dyn_gcode w' = JogCli._dyn_gcode w
  /\ (forall (k : JogCli.Key * string) (g : string),
         JogCli._cache (JogCli.CACHE w) !! k = Some g ->
         JogCli._cache (JogCli.CACHE w') !! k = Some g)
  /\ (JogCli.status r = 200%Z \/ JogCli.status r = 400%Z
      \/ JogCli.status r = 404%Z)
  /\ (JogCli.status r = 404%Z
      <-> p <> "/health"%string
          /\ (startswith p "/g/" && endswith p ".gcode") = false).
Proof.
  intros r w'. unfold r, w', JogCli.do_GET.
  destruct (decide (p = "/health"%string)) as [Hh | Hh].
  - simpl. repeat split; try reflexivity; try tauto; try discriminate.
  - destruct (startswith p "/g/" && endswith p ".gcode") eqn:Hg.
    + set (cmd := str_remove ".gcode" 0 (last_segment p)).
      split; [apply serve_gcode_z |].
      assert (Hcur : JogCli.CURRENT (snd (JogCli.serve_gcode cmd w))
                     = JogCli.CURRENT w).
      { unfold JogCli.serve_gcode.
        destruct (JogCli._dyn_gcode w !! cmd); [reflexivity |].
        destruct (JogCli.get_gcode _ _ _) as [[g | e] c]; reflexivity. }
      split; [exact Hcur |]. split; [apply serve_gcode_dyn |].
      assert (Hstatus : JogCli.status (fst (JogCli.serve_gcode cmd w)) = 200%Z
                        \/ JogCli.status (fst (JogCli.serve_gcode cmd w))
                           = 400%Z).
      { unfold JogCli.serve_gcode.
        destruct (JogCli._dyn_gcode w !! cmd); [left; reflexivity |].
        destruct (JogCli.get_gcode _ _ _) as [[g | e] c];
          [left | right]; reflexivity. }
      split; [| split].
      * intros k g Hk. unfold JogCli.serve_gcode.
        destruct (JogCli._dyn_gcode w !! cmd); [exact Hk |].
        pose proof (get_gcode_keeps (JogCli.CACHE w)
                      {| JogCli.step := JogCli.step (JogCli.CURRENT w);
                         JogCli.feed := JogCli.feed (JogCli.CURRENT w) |}
                      cmd k g Hk) as Hkeep.
        destruct (JogCli.get_gcode _ _ _) as [[g' | e] c]; exact Hkeep.
      * tauto.
      * split; [| intros [_ H]; discriminate].
        intros H404. destruct Hstatus as [H | H]; rewrite H in H404;
          discriminate.
    + simpl. repeat split; try reflexivity; try tauto; try assumption.
Qed.

(* ================================================================= *)
(** ** Carousel jogs, turns and repeated selects *)

(** X4: a carousel jog succeeds and adds the step (CCW) or subtracts it
    (CW) when the angle is known, and leaves an unknown angle unknown; a
    CCW jog followed by a CW jog brings a known angle back; and with a
    positive step the CW jog moves the tracked angle backwards: the
    CCW-only rule is not applied to manual jogs. *)
Theorem carousel_jog_tracks_angle (w : JogCli.World) :
  let s : Q := JogCli.step (JogCli.CURRENT w) in
  (forall cmd : string,
      cmd ∈ JogCli.CAROUSEL_CMDS ->
      let dz := if decide (cmd = "CAR_CCW"%string) then s else - s in
      fst (JogCli.publish_cmd cmd w) = Ok tt
      /\ JogCli._z (snd (JogCli.publish_cmd cmd w))
         = match JogCli._z w with
           | Some cur => Some (cur + dz)
           | None => None
           end
      /\ JogCli._dyn_gcode (snd (JogCli.publish_cmd cmd w))
         = JogCli._dyn_gcode w)
  /\ (forall cur : Q,
         JogCli._z w = Some cur ->
         JogCli._z (JogCli.run w [JogCli.Publish "CAR_CCW";
                                  JogCli.Publish "CAR_CW"]%string)
         = Some (cur + s + - s)
         /\ cur + s + - s == cur
         /\ JogCli._z (JogCli.run w [JogCli.Publish "CAR_CW"]%string)
            = Some (cur + - s)
         /\ (0 < s -> cur + - s < cur)).
Proof.
  intros s.
  assert (Hjog : forall cmd w0,
             cmd ∈ JogCli.CAROUSEL_CMDS ->
             JogCli.publish_cmd cmd w0
             = (Ok tt,
                let w1 :=
                  JogCli.set_cache
                    (snd (JogCli.get_gcode (JogCli.CACHE w0)
                            (current_key w0) cmd)) w0 in
                match JogCli._z w0 with
                | Some cur =>
                    JogCli._z_set
                      (Some (cur + (if decide (cmd = "CAR_CCW"%string)
                                    then (JogCli.step (JogCli.CURRENT w0) : Q)
                                    else - JogCli.step (JogCli.CURRENT w0))))
                      w1
                | None => w1
                end)).
  { intros cmd w0 Hc. unfold JogCli.publish_cmd.
    destruct (decide (cmd ∈ JogCli.PEN_CMDS)) as [Hp | _];
      [exfalso; exact (carousel_not_pen cmd Hc Hp) |].
    destruct (decide (cmd = "G77"%string)) as [Hg | _].
    { subst cmd. apply carousel_cmd_cases in Hc.
      destruct Hc; discriminate. }
    fold (current_key w0).
    destruct (get_gcode_buildable (JogCli.CACHE w0) (current_key w0) cmd)
      as [g Hg]; [right; left; exact Hc |].
    destruct (JogCli.get_gcode _ _ _) as [r c]. simpl in Hg. subst r.
    destruct (decide (cmd ∈ JogCli.CAROUSEL_CMDS)); [| contradiction].
    simpl. destruct (JogCli._z w0); reflexivity. }
  split.
  - intros cmd Hc dz. rewrite (Hjog cmd w Hc). cbn [fst snd].
    destruct (JogCli._z w) eqn:Hz; repeat split; try reflexivity.
    exact Hz.
  - intros cur Hcur.
    assert (Hccw : "CAR_CCW"%string ∈ JogCli.CAROUSEL_CMDS)
      by (apply carousel_cmd_cases; left; reflexivity).
    assert (Hcw : "CAR_CW"%string ∈ JogCli.CAROUSEL_CMDS)
      by (apply carousel_cmd_cases; right; reflexivity).
    split; [| split; [ring | split; [| intros Hs; lra]]].
    + cbn [JogCli.run fold_left JogCli.step_world].
      rewrite (Hjog _ w Hccw). cbn [snd]. rewrite Hcur.
      rewrite (Hjog _ _ Hcw). reflexivity.
    + cbn [JogCli.run fold_left JogCli.step_world].
      rewrite (Hjog _ w Hcw). cbn [snd]. rewrite Hcur. reflexivity.
Qed.

(** After home and pen 2, a CW jog of 2 degrees tracks 159. *)
Lemma carousel_jog_tracks_angle_witness :
  JogCli._z (JogCli.run JogCli.initial_world
               [JogCli.Publish "G77"; JogCli.Publish "P2_UP";
                JogCli.Publish "CAR_CW"]%string)
  = Some (161 + - (2)).
Proof.
  pose proof (carousel_jog_tracks_angle
                (JogCli.run JogCli.initial_world
                   [JogCli.Publish "G77"; JogCli.Publish "P2_UP"]%string))
    as H.
  cbv zeta in H. destruct H as [_ H].
  destruct (H 161 eq_refl) as (_ & _ & Hcw & _).
  exact Hcw.
Defined.

Lemma ccw_loop_reached (target current_z : Q) :
  current_z <= target -> ccw_loop target current_z = target.
Proof.
  intros Hle. rewrite ccw_loop_step.
  destruct (Qlt_le_dec target current_z); [lra | reflexivity].
Qed.

Lemma ccw_loop_again (target current_z : Q) :
  ccw_loop target (ccw_loop target current_z) = ccw_loop target current_z.
Proof.
  funelim (ccw_loop target current_z).
  - match goal with
    | IH : ccw_loop (_ + 360) (ccw_loop _ _) = _ |- _ =>
        rename IH into IHloop
    end.
    pose proof (ccw_loop_ge (target + 360) current_z) as Hge.
    rewrite (ccw_loop_step target (ccw_loop (target + 360) current_z)).
    destruct (Qlt_le_dec target (ccw_loop (target + 360) current_z));
      [exact IHloop | lra].
  - apply ccw_loop_reached. lra.
Qed.

(** The slot table: pens 1 to 4, 72 degrees apart from 89. *)
Lemma pen_slot_table_values (pen base : Z) :
  SvgToGcode.PEN_SLOTS_Z !! pen = Some base ->
  (1 <= pen <= 4)%Z /\ base = (89 + 72 * (pen - 1))%Z.
Proof.
  unfold SvgToGcode.PEN_SLOTS_Z. cbn [list_to_map foldr fst snd].
  repeat (rewrite lookup_insert; case_decide;
          [intros [= <-]; subst pen; lia |]).
  rewrite lookup_empty. discriminate.
Qed.

(** X5: a pen select from a known angle never adds more than it must:
    when the slot angle is not behind the current angle the target is
    the slot angle itself, and otherwise the target lies less than one
    full turn ahead of the current angle.  In particular after homing
    (angle -56) every pen of the table is reached at its table angle. *)
Theorem ccw_only_target_within_one_turn (current slot_z : Q) :
  let target := SvgToGcode.ccw_only_target (Some current) slot_z in
  (current <= slot_z -> target = slot_z)
  /\ (slot_z < current -> current <= target /\ target < current + 360)
  /\ JogCli._ccw_only_target (Some current) slot_z = target
  /\ (forall pen base : Z,
         SvgToGcode.PEN_SLOTS_Z !! pen = Some base ->
         forall (f_z : Z) (st : SvgToGcode.CarouselState),
           let homed := snd (SvgToGcode.gcode_home_carousel st) in
           SvgToGcode.gcode_pen_select_ccw pen f_z homed
           = (Ok ["G90";
                  "G1 Z" +:+ format_3f (inject_Z base) +:+ " F"
                    +:+ format_int f_z;
                  "G91"]%string,
              {| SvgToGcode.z := Some (inject_Z base) |})).
Proof.
  intros target.
  change target with (ccw_loop slot_z current). clear target.
  split; [| split; [| split]].
  - intros Hle. apply ccw_loop_reached, Hle.
  - intros Hlt.
    destruct (ccw_loop_least slot_z current) as (k & Hk & Hge & Hmin).
    split; [exact Hge |].
    destruct k as [| k].
    + change (inject_Z (Z.of_nat 0)) with 0 in Hk. lra.
    + destruct (Qlt_le_dec (ccw_loop slot_z current) (current + 360))
        as [Hin | Hout];
        [exact Hin |].
      exfalso.
      assert (Hreach : current <= slot_z + 360 * inject_Z (Z.of_nat k)).
      { rewrite Nat2Z.inj_succ in Hk. unfold Z.succ in Hk.
        rewrite inject_Z_succ in Hk. lra. }
      specialize (Hmin (Z.of_nat k) ltac:(lia) Hreach). lia.
  - reflexivity.
  - intros pen base Hslot f_z st homed.
    unfold SvgToGcode.gcode_pen_select_ccw. rewrite Hslot.
    assert (Ht : SvgToGcode.ccw_only_target (SvgToGcode.z homed)
                   (inject_Z base) = inject_Z base).
    { apply ccw_loop_reached.
      apply pen_slot_table_values in Hslot.
      unfold SvgToGcode.Z_AFTER_G77.
      change (- (56)) with (inject_Z (-56)). rewrite <- Zle_Qle. lia. }
    rewrite Ht. reflexivity.
Qed.

(** X6: selecting the pen the carousel already stands at moves nothing:
    in the converter the pen-up that follows a select of the same pen
    emits the same lines and leaves the same state, and in the jog CLI a
    second build for the same pen returns the same text and state. *)
Theorem reselect_same_pen_is_still (pen base : Z) :
  SvgToGcode.PEN_SLOTS_Z !! pen = Some base ->
  (forall (f_z : Z) (st : SvgToGcode.CarouselState),
      let selected := SvgToGcode.gcode_pen_select_ccw pen f_z st in
      SvgToGcode.gcode_pen_up pen f_z (snd selected) = selected)
  /\ (forall (is_down : bool) (fz : Z) (w : JogCli.World),
         let built := JogCli.build_pen_gcode pen is_down fz w in
         JogCli.build_pen_gcode pen is_down fz (snd built) = built).
Proof.
  intros Hslot.
  assert (Hagain : forall z : option Q,
             SvgToGcode.ccw_only_target
               (Some (SvgToGcode.ccw_only_target z (inject_Z base)))
               (inject_Z base)
             = SvgToGcode.ccw_only_target z (inject_Z base)).
  { intros [c |]; simpl.
    - apply ccw_loop_again.
    - apply ccw_loop_reached. lra. }
  split.
  - intros f_z st selected. unfold selected, SvgToGcode.gcode_pen_up.
    unfold SvgToGcode.gcode_pen_select_ccw. rewrite Hslot.
    cbn [snd SvgToGcode.z]. rewrite Hagain. reflexivity.
  - intros is_down fz w built. unfold built.
    rewrite !(build_pen_gcode_slot pen base is_down fz _ Hslot).
    cbn [snd JogCli._z JogCli._z_set]. unfold JogCli._ccw_only_target.
    fold (SvgToGcode.ccw_only_target (JogCli._z w) (inject_Z base)).
    fold (SvgToGcode.ccw_only_target
            (Some (SvgToGcode.ccw_only_target (JogCli._z w) (inject_Z base)))
            (inject_Z base)).
    rewrite Hagain. reflexivity.
Qed.

(** Pen 1 from 120 degrees goes to 449; the pen-up after it stays. *)
Lemma reselect_same_pen_is_still_witness :
  SvgToGcode.gcode_pen_up 1 600 {| SvgToGcode.z := Some 449 |}
  = (Ok ["G90"; "G1 Z449.000 F600"; "G91"]%string,
     {| SvgToGcode.z := Some 449 |}).
Proof.
  destruct (reselect_same_pen_is_still 1 89 eq_refl) as [H _].
  exact (H 600%Z {| SvgToGcode.z := Some 120 |}).
Defined.

(* ================================================================= *)
(** ** The terminal loop *)

Lemma min_from_spec {A : Type} (key : A -> Q) (rest : list A) :
  forall best : A,
    In (JogCli.min_from key best rest) (best :: rest)
    /\ forall c, In c (best :: rest) ->
                 key (JogCli.min_from key best rest) <= key c.
Proof.
  induction rest as [| c rest IH]; intros best.
  - simpl. split; [left; reflexivity |].
    intros c [<- | []]. lra.
  - cbn [JogCli.min_from].
    destruct (Qlt_le_dec (key c) (key best)) as [Hlt | Hle].
    + destruct (IH c) as [Hin Hmin]. split.
      * right. exact Hin.
      * intros d [<- | Hd]; [| apply Hmin, Hd].
        specialize (Hmin c (or_introl eq_refl)). lra.
    + destruct (IH best) as [Hin Hmin]. split.
      * destruct Hin as [<- | Hin]; [left; reflexivity | right; right; exact Hin].
      * intros d [<- | [<- | Hd]].
        -- apply Hmin. left. reflexivity.
        -- specialize (Hmin best (or_introl eq_refl)). lra.
        -- apply Hmin. right. exact Hd.
Qed.

(** [min] returns the first of the elements of the least key. *)
Lemma min_from_first {A : Type} (key : A -> Q) (rest : list A) :
  forall best : A,
    exists pre post : list A,
      best :: rest = pre ++ JogCli.min_from key best rest :: post
      /\ (forall c, In c pre -> key (JogCli.min_from key best rest) < key c)
      /\ (forall c, In c post ->
                    key (JogCli.min_from key best rest) <= key c).
Proof.
  induction rest as [| c rest IH]; intros best.
  - exists [], []. split; [reflexivity |]. split; intros c [].
  - cbn [JogCli.min_from].
    destruct (Qlt_le_dec (key c) (key best)) as [Hlt | Hle].
    + destruct (IH c) as (pre & post & E & Hpre & Hpost).
      destruct (min_from_spec key rest c) as [_ Hmin].
      specialize (Hmin c (or_introl eq_refl)).
      exists (best :: pre), post. split; [simpl; rewrite <- E; reflexivity |].
      split; [| exact Hpost].
      intros d [<- | Hd]; [lra | apply Hpre, Hd].
    + destruct (IH best) as (pre & post & E & Hpre & Hpost).
      destruct pre as [| b pre].
      * simpl in E. injection E as Eb Er.
        exists [], (c :: rest). rewrite <- Eb.
        split; [reflexivity |]. split; [intros d [] |].
        intros d [<- | Hd]; [exact Hle |].
        rewrite Eb. apply Hpost. rewrite <- Er. exact Hd.
      * simpl in E. injection E as Eb Er. subst b.
        exists (best :: c :: pre), post.
        split; [simpl; rewrite <- Er; reflexivity |].
        split; [| exact Hpost].
        pose proof (Hpre best (or_introl eq_refl)) as Hbest.
        intros d [<- | [<- | Hd]]; [exact Hbest | lra |].
        apply Hpre. right. exact Hd.
Qed.

(** The distance that [nearest] compares is the float [abs(c - val)],
    which is the distance up to one rounding. *)
Lemma fsub_distance (c val : Q) :
  Qabs (Qabs (fsub c val) - Qabs (c - val))
  <= Qabs (c - val) * pow2 (-53) + pow2 (-1075).
Proof.
  eapply Qle_trans; [| apply (round64_error (c - val))].
  apply Qabs_case; intros H.
  - apply Qabs_triangle_reverse.
  - assert (E1 : - (Qabs (fsub c val) - Qabs (c - val))
                 == Qabs (c - val) - Qabs (fsub c val)) by ring.
    assert (E2 : round64 (c - val) - (c - val)
                 == - ((c - val) - fsub c val)) by (unfold fsub; ring).
    rewrite E1, E2, Qabs_opp. apply Qabs_triangle_reverse.
Qed.

(** A step of [1e19]: every float distance is [1e19], and [nearest]
    returns the first choice, [0.5]. *)
Lemma nearest_step_far_value :
  exists s : Qc,
    JogCli.nearest_step 10000000000000000000 JogCli.step_choices = Ok s
    /\ this s = 1 # 2
    /\ Forall (fun c : Qc => fsub c 10000000000000000000
                             == - 10000000000000000000)
         JogCli.step_choices.
Proof.
  eexists. split; [reflexivity |]. split; [vm_compute; reflexivity |].
  repeat constructor; vm_compute; reflexivity.
Qed.

(** X7: [nearest] returns the first of the choices at the least float
    distance [abs(c - val)] from the requested value, so that no choice
    is closer to the value by more than the rounding of the two
    distances; on an empty list of choices it raises.  On the feeds,
    which are integers, no choice is closer.  The step and the feed the
    loop starts with are these choices for the values given on the
    command line. *)
Theorem nearest_is_a_closest_choice :
  (forall (val : Q) (choices : list Qc),
      match JogCli.nearest_step val choices with
      | Ok s =>
          (exists pre post : list Qc,
              choices = pre ++ s :: post
              /\ (forall c : Qc, In c pre ->
                     Qabs (fsub s val) < Qabs (fsub c val))
              /\ (forall c : Qc, In c post ->
                     Qabs (fsub s val) <= Qabs (fsub c val)))
          /\ (forall c : Qc, In c choices ->
                 Qabs (s - val)
                 <= Qabs (c - val)
                    + (Qabs (s - val) + Qabs (c - val)) * pow2 (-53)
                    + pow2 (-1074))
      | Raise _ => choices = []
      end)
  /\ (forall (val : Z) (choices : list Z),
         match JogCli.nearest_feed val choices with
         | Ok f =>
             In f choices
             /\ forall c : Z, In c choices ->
                              (Z.abs (f - val) <= Z.abs (c - val))%Z
         | Raise _ => choices = []
         end)
  /\ (forall (step0 : Q) (feed0 : Z) (w : JogCli.World),
         exists u : JogCli.Ui,
           JogCli.ui_start step0 feed0 w = Ok u
           /\ JogCli.nearest_step step0 JogCli.step_choices
              = Ok (JogCli.ui_step u)
           /\ JogCli.nearest_feed feed0 JogCli.feed_choices
              = Ok (JogCli.ui_feed u)
           /\ JogCli.CURRENT (JogCli.ui_world u)
              = {| JogCli.step := JogCli.ui_step u;
                   JogCli.feed := JogCli.ui_feed u |}).
Proof.
  split; [| split].
  - intros val [| c rest]; [reflexivity |].
    unfold JogCli.nearest_step, JogCli.py_min_by.
    set (key := fun c : Qc => Qabs (fsub c val)).
    set (s := JogCli.min_from key c rest).
    split; [exact (min_from_first key rest c) |].
    destruct (min_from_spec key rest c) as [_ Hmin]. fold s in Hmin.
    intros d Hd. specialize (Hmin d Hd). unfold key in Hmin.
    pose proof (fsub_distance s val) as Es.
    pose proof (fsub_distance d val) as Ed.
    apply Qabs_Qle_condition in Es, Ed.
    assert (Hp : pow2 (-1075) + pow2 (-1075) == pow2 (-1074))
      by (vm_compute; reflexivity).
    set (fs := Qabs (fsub s val)) in *. set (fd := Qabs (fsub d val)) in *.
    set (ds := Qabs (s - val)) in *. set (dd := Qabs (d - val)) in *.
    clearbody fs fd ds dd.
    set (p53 := pow2 (-53)) in *. set (p5 := pow2 (-1075)) in *.
    set (p4 := pow2 (-1074)) in *. clearbody p53 p5 p4.
    assert (Edist : (ds + dd) * p53 == ds * p53 + dd * p53) by ring.
    rewrite Edist.
    set (a := ds * p53) in *. set (b := dd * p53) in *. clearbody a b.
    lra.
  - intros val [| c rest]; [reflexivity |].
    unfold JogCli.nearest_feed, JogCli.py_min_by.
    destruct (min_from_spec (fun c : Z => inject_Z (Z.abs (c - val))) rest c)
      as [Hin Hmin].
    split; [exact Hin |].
    intros d Hd. rewrite Zle_Qle. apply Hmin, Hd.
  - intros step0 feed0 w. unfold JogCli.ui_start.
    unfold JogCli.nearest_step, JogCli.nearest_feed, JogCli.py_min_by.
    change JogCli.step_choices
      with (Q2Qc (1 # 2) :: tl JogCli.step_choices).
    change JogCli.feed_choices with (600%Z :: tl JogCli.feed_choices).
    cbv iota. eexists. repeat split.
Qed.

Lemma index_from_In {A : Type} `{EqDecision A} (x : A) (l : list A) :
  forall i : nat,
    In x l ->
    exists j : nat,
      JogCli.index_from x l i = Ok (i + j)%nat
      /\ l !! j = Some x /\ (j < length l)%nat.
Proof.
  induction l as [| y l IH]; intros i Hin; [destruct Hin |].
  cbn [JogCli.index_from].
  destruct (decide (y = x)) as [-> | Hne].
  - exists 0%nat. split; [f_equal; lia |]. split; [reflexivity | simpl; lia].
  - destruct Hin as [Hyx | Hin]; [contradiction |].
    destruct (IH (S i) Hin) as (j & Hj & Hl & Hlt).
    exists (S j). split; [rewrite Hj; f_equal; lia |].
    split; [exact Hl | simpl; lia].
Qed.

Lemma index_In {A : Type} `{EqDecision A} (x : A) (l : list A) :
  In x l ->
  exists j : nat,
    JogCli.index x l = Ok j /\ l !! j = Some x /\ (j < length l)%nat.
Proof. intros Hin. apply (index_from_In x l 0 Hin). Qed.

Lemma lookup_In {A : Type} (l : list A) (i : nat) (x : A) :
  l !! i = Some x -> In x l.
Proof.
  intros H. apply list_elem_of_In, list_elem_of_lookup. eauto.
Qed.

Lemma step_down_inv (u : JogCli.Ui) :
  ui_inv u -> exists u', JogCli.step_down u = Ok u' /\ ui_inv u'.
Proof.
  intros (Hs & Hf & Hcur). unfold JogCli.step_down.
  destruct (index_In _ _ Hs) as (i & -> & Hl & Hlt).
  destruct (0 <? i)%nat eqn:Hi; [| exists u; repeat split; assumption].
  apply Nat.ltb_lt in Hi.
  destruct (lookup_lt_is_Some_2 JogCli.step_choices (i - 1)) as [s Hsl];
    [lia |].
  rewrite Hsl. eexists. split; [reflexivity |].
  repeat split; simpl; [exact (lookup_In _ _ _ Hsl) | exact Hf].
Qed.

Lemma step_up_inv (u : JogCli.Ui) :
  ui_inv u -> exists u', JogCli.step_up u = Ok u' /\ ui_inv u'.
Proof.
  intros (Hs & Hf & Hcur). unfold JogCli.step_up.
  destruct (index_In _ _ Hs) as (i & -> & Hl & Hlt).
  destruct (i <? length JogCli.step_choices - 1)%nat eqn:Hi;
    [| exists u; repeat split; assumption].
  apply Nat.ltb_lt in Hi.
  destruct (lookup_lt_is_Some_2 JogCli.step_choices (i + 1)) as [s Hsl];
    [lia |].
  rewrite Hsl. eexists. split; [reflexivity |].
  repeat split; simpl; [exact (lookup_In _ _ _ Hsl) | exact Hf].
Qed.

Lemma feed_down_inv (u : JogCli.Ui) :
  ui_inv u -> exists u', JogCli.feed_down u = Ok u' /\ ui_inv u'.
Proof.
  intros (Hs & Hf & Hcur). unfold JogCli.feed_down.
  destruct (index_In _ _ Hf) as (i & -> & Hl & Hlt).
  destruct (0 <? i)%nat eqn:Hi; [| exists u; repeat split; assumption].
  apply Nat.ltb_lt in Hi.
  destruct (lookup_lt_is_Some_2 JogCli.feed_choices (i - 1)) as [f Hfl];
    [lia |].
  rewrite Hfl. eexists. split; [reflexivity |].
  repeat split; simpl; [exact Hs | exact (lookup_In _ _ _ Hfl)].
Qed.

Lemma feed_up_inv (u : JogCli.Ui) :
  ui_inv u -> exists u', JogCli.feed_up u = Ok u' /\ ui_inv u'.
Proof.
  intros (Hs & Hf & Hcur). unfold JogCli.feed_up.
  destruct (index_In _ _ Hf) as (i & -> & Hl & Hlt).
  destruct (i <? length JogCli.feed_choices - 1)%nat eqn:Hi;
    [| exists u; repeat split; assumption].
  apply Nat.ltb_lt in Hi.
  destruct (lookup_lt_is_Some_2 JogCli.feed_choices (i + 1)) as [f Hfl];
    [lia |].
  rewrite Hfl. eexists. split; [reflexivity |].
  repeat split; simpl; [exact Hs | exact (lookup_In _ _ _ Hfl)].
Qed.

Lemma ui_publish_inv (cmd : string) (u : JogCli.Ui) :
  cmd ∈ COMMAND_IDS -> ui_inv u ->
  exists u', JogCli.ui_publish cmd u = Ok (Some u') /\ ui_inv u'.
Proof.
  intros Hin (Hs & Hf & Hcur). unfold JogCli.ui_publish.
  destruct (publish_cmd_ok cmd (JogCli.ui_world u) Hin) as [Hok Hkeep].
  destruct (JogCli.publish_cmd cmd (JogCli.ui_world u)) as [r w].
  simpl in Hok, Hkeep. subst r. eexists. split; [reflexivity |].
  repeat split; simpl; [exact Hs | exact Hf |].
  rewrite Hkeep. exact Hcur.
Qed.

Ltac recognized :=
  apply (bool_decide_eq_true_1 (_ ∈ COMMAND_IDS)); vm_compute; reflexivity.

Lemma on_key_inv (KEY_UP KEY_DOWN KEY_LEFT KEY_RIGHT ch : Z)
    (u : JogCli.Ui) :
  ui_inv u ->
  exists r : option JogCli.Ui,
    JogCli.on_key KEY_UP KEY_DOWN KEY_LEFT KEY_RIGHT ch u = Ok r
    /\ forall u', r = Some u' -> ui_inv u'.
Proof.
  intros Hinv.
  assert (Hpub : forall cmd, cmd ∈ COMMAND_IDS ->
             exists r : option JogCli.Ui,
               JogCli.ui_publish cmd u = Ok r
               /\ forall u', r = Some u' -> ui_inv u').
  { intros cmd Hin. destruct (ui_publish_inv cmd u Hin Hinv) as (u' & -> & H).
    eexists. split; [reflexivity |]. intros ? [= <-]. exact H. }
  assert (Hkeep : forall r0 : result JogCli.Ui,
             (exists u', r0 = Ok u' /\ ui_inv u') ->
             exists r : option JogCli.Ui,
               JogCli.ui_keep r0 = Ok r
               /\ forall u', r = Some u' -> ui_inv u').
  { intros r0 (u' & -> & H). eexists. split; [reflexivity |].
    intros ? [= <-]. exact H. }
  unfold JogCli.on_key.
  repeat (case_decide; [apply Hpub; recognized |]).
  case_decide; [apply Hkeep, step_down_inv, Hinv |].
  case_decide; [apply Hkeep, step_up_inv, Hinv |].
  case_decide; [apply Hkeep, feed_down_inv, Hinv |].
  case_decide; [apply Hkeep, feed_up_inv, Hinv |].
  case_decide;
    [eexists; split; [reflexivity | intros ? [= <-]; exact Hinv] |].
  case_decide; [eexists; split; [reflexivity | discriminate] |].
  eexists; split; [reflexivity | intros ? [= <-]; exact Hinv].
Qed.

Lemma step_choices_positive (s : Qc) :
  In s JogCli.step_choices -> 0 < s.
Proof.
  intros Hin. unfold JogCli.step_choices in Hin. simpl in Hin.
  repeat (destruct Hin as [<- | Hin]; [vm_compute; reflexivity |]).
  destruct Hin.
Qed.

Lemma ui_start_inv (step0 : Q) (feed0 : Z) (w : JogCli.World) :
  exists u0 : JogCli.Ui, JogCli.ui_start step0 feed0 w = Ok u0 /\ ui_inv u0.
Proof.
  unfold JogCli.ui_start, JogCli.nearest_step, JogCli.nearest_feed,
    JogCli.py_min_by.
  change JogCli.step_choices with (Q2Qc (1 # 2) :: tl JogCli.step_choices).
  change JogCli.feed_choices with (600%Z :: tl JogCli.feed_choices).
  cbv iota. eexists. split; [reflexivity |].
  split; [| split; [| reflexivity]]; cbn [JogCli.ui_apply_settings
    JogCli.ui_step JogCli.ui_feed].
  - apply (min_from_spec (fun c : Qc => Qabs (fsub c step0))).
  - apply (min_from_spec (fun c : Z => inject_Z (Z.abs (c - feed0)))).
Qed.

(** X8: whatever keys are pressed, the terminal loop never raises: every
    command it publishes is in the closed set, and every change of step
    or feed stays inside the choices.  Throughout, the step is one of
    the step choices (so it is positive), the feed is one of the feed
    choices, and they are the settings the server builds jogs with. *)
Theorem terminal_loop_never_raises
    (KEY_UP KEY_DOWN KEY_LEFT KEY_RIGHT : Z) (step0 : Q) (feed0 : Z)
    (w : JogCli.World) (keys : list Z) :
  exists (u0 : JogCli.Ui) (r : option JogCli.Ui),
    JogCli.ui_start step0 feed0 w = Ok u0
    /\ JogCli.loop KEY_UP KEY_DOWN KEY_LEFT KEY_RIGHT keys u0 = Ok r
    /\ forall u : JogCli.Ui,
        r = Some u ->
        In (JogCli.ui_step u) JogCli.step_choices
        /\ In (JogCli.ui_feed u) JogCli.feed_choices
        /\ 0 < JogCli.ui_step u
        /\ JogCli.CURRENT (JogCli.ui_world u)
           = {| JogCli.step := JogCli.ui_step u;
                JogCli.feed := JogCli.ui_feed u |}.
Proof.
  destruct (ui_start_inv step0 feed0 w) as (u0 & Hstart & Hinv0).
  exists u0.
  assert (Hloop : forall keys u, ui_inv u ->
             exists r : option JogCli.Ui,
               JogCli.loop KEY_UP KEY_DOWN KEY_LEFT KEY_RIGHT keys u = Ok r
               /\ forall u', r = Some u' -> ui_inv u').
  { clear. induction keys as [| ch keys IH]; intros u Hinv.
    - eexists. split; [reflexivity |]. intros ? [= <-]. exact Hinv.
    - cbn [JogCli.loop].
      destruct (on_key_inv KEY_UP KEY_DOWN KEY_LEFT KEY_RIGHT ch u Hinv)
        as ([u1 |] & -> & H1).
      + apply IH, H1. reflexivity.
      + eexists. split; [reflexivity | discriminate]. }
  destruct (Hloop keys u0 Hinv0) as (r & Hr & Hfinal).
  exists r. split; [exact Hstart |]. split; [exact Hr |].
  intros u Hu. destruct (Hfinal u Hu) as (Hs & Hf & Hcur).
  repeat split; try assumption. apply step_choices_positive, Hs.
Qed.

(** X9: the step keys walk the sorted list of choices: below the largest
    choice [step_up] moves to a strictly larger step and [step_down]
    after it restores the step and the settings of the server; at the
    largest choice [step_up] changes nothing, and at the smallest
    [step_down] changes nothing. *)
Theorem step_up_then_down_restores (u : JogCli.Ui) :
  In (JogCli.ui_step u) JogCli.step_choices ->
  JogCli.CURRENT (JogCli.ui_world u)
  = {| JogCli.step := JogCli.ui_step u; JogCli.feed := JogCli.ui_feed u |} ->
  (JogCli.ui_step u <> Q2Qc 200 ->
   exists u1 u2 : JogCli.Ui,
     JogCli.step_up u = Ok u1
     /\ JogCli.step_down u1 = Ok u2
     /\ JogCli.ui_step u < JogCli.ui_step u1
     /\ JogCli.ui_step u2 = JogCli.ui_step u
     /\ JogCli.ui_feed u2 = JogCli.ui_feed u
     /\ JogCli.CURRENT (JogCli.ui_world u2) = JogCli.CURRENT (JogCli.ui_world u))
  /\ (JogCli.ui_step u = Q2Qc 200 -> JogCli.step_up u = Ok u)
  /\ (JogCli.ui_step u = Q2Qc (1 # 2) -> JogCli.step_down u = Ok u).
Proof.
  destruct u as [s f w]. cbn [JogCli.ui_step JogCli.ui_feed JogCli.ui_world].
  intros Hin Hcur. unfold JogCli.step_choices in Hin. simpl in Hin.
  split; [| split].
  - intros Hmax.
    repeat (destruct Hin as [<- | Hin];
            [first
               [ exfalso; apply Hmax; reflexivity
               | eexists _, _; split; [reflexivity |];
                 split; [reflexivity |];
                 split; [vm_compute; reflexivity |];
                 split; [reflexivity |]; split; [reflexivity |];
                 rewrite Hcur; reflexivity ] |]).
    destruct Hin.
  - intros ->. reflexivity.
  - intros ->. reflexivity.
Qed.

(** From the default step 2: up to 5 and back. *)
Lemma step_up_then_down_restores_witness :
  exists u1 : JogCli.Ui,
    JogCli.step_up {| JogCli.ui_step := Q2Qc 2; JogCli.ui_feed := 900;
                      JogCli.ui_world := JogCli.initial_world |} = Ok u1
    /\ JogCli.ui_step u1 = Q2Qc 5
    /\ exists u2 : JogCli.Ui,
        JogCli.step_down u1 = Ok u2 /\ JogCli.ui_step u2 = Q2Qc 2.
Proof.
  destruct (step_up_then_down_restores
              {| JogCli.ui_step := Q2Qc 2; JogCli.ui_feed := 900;
                 JogCli.ui_world := JogCli.initial_world |})
    as [H _].
  - unfold JogCli.step_choices. simpl. right. right. left. reflexivity.
  - reflexivity.
  - destruct H as (u1 & u2 & Hup & Hdown & _ & Hstep & _).
    + intros E. apply (f_equal this) in E. vm_compute in E. discriminate.
    + exists u1. split; [exact Hup |].
      split; [injection Hup as <-; reflexivity |].
      exists u2. split; [exact Hdown | exact Hstep].
Defined.

(* ================================================================= *)
(** ** Colours and pens *)

Section LoadingFacts.

Variable parse_color : option string -> result (option string).
Variable default_pen : Z.

Lemma load_step_stroke (acc : SvgToGcode.Loaded)
    (item : SvgToGcode.Path * gmap string string) :
  SvgToGcode.load_step parse_color default_pen acc item
  = match SvgToGcode.stroke_of parse_color (snd item) with
    | Raise e => Raise e
    | Ok None => Ok acc
    | Ok (Some stroke) =>
        if decide (SvgToGcode.color_to_pen acc !! stroke = None
                   /\ (SvgToGcode.next_pen acc <= 4)%Z)
        then
          Ok {| SvgToGcode.color_to_pen :=
                  <[stroke := SvgToGcode.next_pen acc]>
                    (SvgToGcode.color_to_pen acc);
                SvgToGcode.next_pen := (SvgToGcode.next_pen acc + 1)%Z;
                SvgToGcode.drawable :=
                  SvgToGcode.drawable acc
                  ++ [(fst item, SvgToGcode.next_pen acc)] |}
        else
          Ok {| SvgToGcode.color_to_pen := SvgToGcode.color_to_pen acc;
                SvgToGcode.next_pen := SvgToGcode.next_pen acc;
                SvgToGcode.drawable :=
                  SvgToGcode.drawable acc
                  ++ [(fst item,
                       default default_pen
                         (SvgToGcode.color_to_pen acc !! stroke))] |}
    end.
Proof.
  destruct item as [p a]. unfold SvgToGcode.load_step. cbn [fst snd].
  destruct (SvgToGcode.stroke_of parse_color a) as [[stroke |] | e];
    try reflexivity.
  case_decide; [rewrite lookup_insert_eq |]; reflexivity.
Qed.

Lemma load_step_inv (acc acc' : SvgToGcode.Loaded)
    (item : SvgToGcode.Path * gmap string string) :
  SvgToGcode.load_step parse_color default_pen acc item = Ok acc' ->
  pens_inv acc -> pens_inv acc'.
Proof.
  rewrite load_step_stroke. intros Hstep (Hnp & Hval & Hsurj & Hinj).
  destruct (SvgToGcode.stroke_of parse_color (snd item))
    as [[stroke |] | e]; [| injection Hstep as <- | discriminate].
  2: exact (conj Hnp (conj Hval (conj Hsurj Hinj))).
  destruct (decide _) as [[Hnone Hle] | Hgrow]; injection Hstep as <-;
    [| exact (conj Hnp (conj Hval (conj Hsurj Hinj)))].
  unfold pens_inv. cbn [SvgToGcode.color_to_pen SvgToGcode.next_pen].
  split; [lia |]. split; [| split].
  - intros c p H. destruct (decide (stroke = c)) as [<- | Hne].
    + rewrite lookup_insert_eq in H. injection H as <-. lia.
    + rewrite lookup_insert_ne in H by exact Hne.
      specialize (Hval _ _ H). lia.
  - intros p Hp.
    destruct (decide (p = SvgToGcode.next_pen acc)) as [-> | Hne].
    + exists stroke. apply lookup_insert_eq.
    + destruct (Hsurj p ltac:(lia)) as [c Hc]. exists c.
      rewrite lookup_insert_ne; [exact Hc |].
      intros <-. rewrite Hnone in Hc. discriminate.
  - intros c1 c2 p H1 H2.
    destruct (decide (stroke = c1)) as [<- | Hne1];
      destruct (decide (stroke = c2)) as [<- | Hne2]; [reflexivity | | |].
    + rewrite lookup_insert_eq in H1. injection H1 as <-.
      rewrite lookup_insert_ne in H2 by exact Hne2.
      specialize (Hval _ _ H2). lia.
    + rewrite lookup_insert_eq in H2. injection H2 as <-.
      rewrite lookup_insert_ne in H1 by exact Hne1.
      specialize (Hval _ _ H1). lia.
    + rewrite lookup_insert_ne in H1 by exact Hne1.
      rewrite lookup_insert_ne in H2 by exact Hne2.
      exact (Hinj _ _ _ H1 H2).
Qed.

Lemma load_fold_inv (items : list (SvgToGcode.Path * gmap string string)) :
  forall acc final : SvgToGcode.Loaded,
    SvgToGcode.for_each (SvgToGcode.load_step parse_color default_pen)
      items acc = Ok final ->
    pens_inv acc -> pens_inv final.
Proof.
  induction items as [| item items IH]; intros acc final Hrun Hinv.
  - injection Hrun as <-. exact Hinv.
  - cbn [SvgToGcode.for_each] in Hrun.
    destruct (SvgToGcode.load_step parse_color default_pen acc item)
      as [acc' |] eqn:Hstep; [| discriminate].
    exact (IH acc' final Hrun (load_step_inv _ _ _ Hstep Hinv)).
Qed.

(** The loop raises what [parse_color] raises on the stroke or the fill
    of a path, and only that. *)
Lemma load_fold_raises (items : list (SvgToGcode.Path * gmap string string)) :
  forall (acc : SvgToGcode.Loaded) (e : exn),
    SvgToGcode.for_each (SvgToGcode.load_step parse_color default_pen)
      items acc = Raise e ->
    exists item, In item items
                 /\ SvgToGcode.stroke_of parse_color (snd item) = Raise e.
Proof.
  induction items as [| item items IH]; intros acc e Hrun; [discriminate |].
  cbn [SvgToGcode.for_each] in Hrun.
  destruct (SvgToGcode.load_step parse_color default_pen acc item)
    as [acc' | e'] eqn:Hstep.
  - destruct (IH acc' e Hrun) as (it & Hin & Hit).
    exists it. split; [right; exact Hin | exact Hit].
  - injection Hrun as ->. exists item. split; [left; reflexivity |].
    rewrite load_step_stroke in Hstep.
    destruct (SvgToGcode.stroke_of parse_color (snd item))
      as [[stroke |] | e']; [| discriminate | congruence].
    destruct (decide _); discriminate.
Qed.

(** The colour map only grows, stops growing once four pens are taken,
    and every path gets the pen that the final map gives its colour. *)
Lemma load_fold_drawable
    (items : list (SvgToGcode.Path * gmap string string)) :
  forall acc final : SvgToGcode.Loaded,
    SvgToGcode.for_each (SvgToGcode.load_step parse_color default_pen)
      items acc = Ok final ->
    SvgToGcode.color_to_pen acc ⊆ SvgToGcode.color_to_pen final
    /\ ((4 < SvgToGcode.next_pen acc)%Z ->
        SvgToGcode.color_to_pen final = SvgToGcode.color_to_pen acc)
    /\ SvgToGcode.drawable final
       = SvgToGcode.drawable acc
         ++ flat_map (entry_of parse_color default_pen
                       (SvgToGcode.color_to_pen final)) items
    /\ (forall item, In item items ->
          exists r, SvgToGcode.stroke_of parse_color (snd item) = Ok r).
Proof.
  induction items as [| item items IH]; intros acc final Hrun.
  - injection Hrun as <-. cbn [flat_map]. rewrite app_nil_r.
    repeat split; try reflexivity. intros item [].
  - cbn [SvgToGcode.for_each flat_map] in *.
    destruct (SvgToGcode.load_step parse_color default_pen acc item)
      as [acc' |] eqn:Hstep; [| discriminate].
    destruct (IH acc' final Hrun) as (Hsub & Hfull & Hdraw & Hok).
    rewrite load_step_stroke in Hstep. unfold entry_of at 1.
    destruct (SvgToGcode.stroke_of parse_color (snd item))
      as [[stroke |] | e] eqn:Hstroke; [| | discriminate].
    + assert (Hall : forall it, In it (item :: items) ->
                exists r, SvgToGcode.stroke_of parse_color (snd it) = Ok r).
      { intros it [<- | Hin]; [eexists; exact Hstroke | exact (Hok it Hin)]. }
      destruct (decide _) as [[Hnone Hle] | Hgrow]; injection Hstep as <-;
        cbn [SvgToGcode.color_to_pen SvgToGcode.next_pen
               SvgToGcode.drawable] in *.
      * split; [| split; [lia | split; [| exact Hall]]].
        -- etransitivity; [| exact Hsub]. apply insert_subseteq, Hnone.
        -- rewrite Hdraw, <- app_assoc. cbn [app]. do 3 f_equal.
           assert (Hfin : SvgToGcode.color_to_pen final !! stroke
                          = Some (SvgToGcode.next_pen acc)).
           { eapply lookup_weaken; [| exact Hsub]. apply lookup_insert_eq. }
           rewrite Hfin. reflexivity.
      * split; [exact Hsub |]. split; [exact Hfull |].
        split; [| exact Hall].
        rewrite Hdraw, <- app_assoc. cbn [app]. do 3 f_equal.
        destruct (SvgToGcode.color_to_pen acc !! stroke) as [p |] eqn:Hc.
        -- rewrite (lookup_weaken _ _ _ _ Hc Hsub). reflexivity.
        -- rewrite Hfull; [rewrite Hc; reflexivity |].
           destruct (decide (SvgToGcode.next_pen acc <= 4)%Z) as [Hle | Hgt];
             [| lia].
           exfalso. apply Hgrow. split; [reflexivity | exact Hle].
    + injection Hstep as <-. cbn [app].
      split; [exact Hsub |]. split; [exact Hfull |]. split; [exact Hdraw |].
      intros it [<- | Hin]; [eexists; exact Hstroke | exact (Hok it Hin)].
Qed.

End LoadingFacts.

Lemma load_initial_inv :
  pens_inv {| SvgToGcode.color_to_pen := ∅; SvgToGcode.next_pen := 1;
              SvgToGcode.drawable := [] |}.
Proof.
  unfold pens_inv. cbn [SvgToGcode.color_to_pen SvgToGcode.next_pen].
  split; [lia |]. split; [| split].
  - intros c p H. rewrite lookup_empty in H. discriminate.
  - intros p Hp. lia.
  - intros c1 c2 p H. rewrite lookup_empty in H. discriminate.
Qed.


(** X10 ([load_drawable_paths]).  The function raises only what
    [parse_color] raises on the stroke or the fill of a path.  When it
    returns, the pens of the colour map are pens 1 to 4, handed out
    without gaps and never twice; a path is kept unless it has a fill and
    no stroke, the kept paths stay in the order of the file, and each is
    drawn with the pen that the returned map gives its colour, or with
    the default pen when the map has no pen for it. *)
Theorem load_drawable_paths_pens
    (parse_color : option string -> result (option string))
    (items : list (SvgToGcode.Path * gmap string string))
    (default_pen : Z) :
  match SvgToGcode.load_drawable_paths parse_color items default_pen with
  | Raise e =>
      exists item, In item items
                   /\ SvgToGcode.stroke_of parse_color (snd item) = Raise e
  | Ok (drawable, color_to_pen) =>
      (forall c p, color_to_pen !! c = Some p -> (1 <= p <= 4)%Z)
      /\ (forall c p q, color_to_pen !! c = Some p -> (1 <= q <= p)%Z ->
                        exists c', color_to_pen !! c' = Some q)
      /\ (forall c1 c2 p, color_to_pen !! c1 = Some p ->
                          color_to_pen !! c2 = Some p -> c1 = c2)
      /\ drawable
         = flat_map
             (fun item =>
                match SvgToGcode.stroke_of parse_color (snd item) with
                | Ok (Some stroke) =>
                    [(fst item,
                      default default_pen (color_to_pen !! stroke))]
                | _ => []
                end) items
  end.
Proof.
  unfold SvgToGcode.load_drawable_paths.
  destruct (SvgToGcode.for_each _ items _) as [final | e] eqn:Hrun.
  - destruct (load_fold_inv parse_color default_pen items _ _ Hrun
                load_initial_inv) as (Hnp & Hval & Hsurj & Hinj).
    destruct (load_fold_drawable parse_color default_pen items _ _ Hrun)
      as (_ & _ & Hdraw & _).
    split; [| split; [| split]].
    + intros c p H. specialize (Hval _ _ H). lia.
    + intros c p q H Hq. specialize (Hval _ _ H). apply Hsurj. lia.
    + exact Hinj.
    + rewrite Hdraw. reflexivity.
  - exact (load_fold_raises parse_color default_pen items _ e Hrun).
Qed.

(* ================================================================= *)
(** ** The bounding box *)

Section BoundingBox.

Variable bbox : SvgToGcode.Path -> Q * Q * Q * Q.

(** From finite accumulators the loop of [compute_svg_bbox] reaches
    finite ones, which bound the accumulators it started from and the box
    of every path, and each of which is the one it started from or a side
    of the box of a path. *)
Lemma bbox_fold_finite (drawable : list (SvgToGcode.Path * Z)) :
  forall a b c d : Q,
  exists a' b' c' d' : Q,
    fold_left (SvgToGcode.bbox_step bbox) drawable
      (SvgToGcode.Fin a, SvgToGcode.Fin b, SvgToGcode.Fin c,
       SvgToGcode.Fin d)
    = (SvgToGcode.Fin a', SvgToGcode.Fin b', SvgToGcode.Fin c',
       SvgToGcode.Fin d')
    /\ (a' <= a /\ b <= b' /\ c' <= c /\ d <= d')
    /\ (forall item, In item drawable ->
          a' <= (bbox (fst item)).1.1.1 /\ (bbox (fst item)).1.1.2 <= b'
          /\ c' <= (bbox (fst item)).1.2 /\ (bbox (fst item)).2 <= d')
    /\ (a' = a \/ exists item, In item drawable
                               /\ a' = (bbox (fst item)).1.1.1)
    /\ (b' = b \/ exists item, In item drawable
                               /\ b' = (bbox (fst item)).1.1.2)
    /\ (c' = c \/ exists item, In item drawable
                               /\ c' = (bbox (fst item)).1.2)
    /\ (d' = d \/ exists item, In item drawable
                               /\ d' = (bbox (fst item)).2).
Proof.
  induction drawable as [| item rest IH]; intros a b c d.
  - exists a, b, c, d. cbn [fold_left].
    split; [reflexivity |].
    split; [repeat split; apply Qle_refl |].
    split; [intros item [] |].
    repeat split; left; reflexivity.
  - cbn [fold_left]. unfold SvgToGcode.bbox_step at 2.
    destruct (bbox (fst item)) as [[[bx0 bx1] by0] by1] eqn:Hb.
    cbn [SvgToGcode.xmin SvgToGcode.xmax].
    destruct (IH (py_min a bx0) (py_max b bx1) (py_min c by0)
                (py_max d by1))
      as (a' & b' & c' & d' & Hfold & (Ha & Hb' & Hc & Hd) & Hall
          & Hxa & Hxb & Hxc & Hxd).
    exists a', b', c', d'. split; [exact Hfold |].
    assert (Hmin : forall x y, py_min x y <= x /\ py_min x y <= y
                               /\ (py_min x y = x \/ py_min x y = y)).
    { intros x y. unfold py_min. destruct (Qlt_le_dec y x); repeat split;
        try lra; auto. }
    assert (Hmax : forall x y, x <= py_max x y /\ y <= py_max x y
                               /\ (py_max x y = x \/ py_max x y = y)).
    { intros x y. unfold py_max. destruct (Qlt_le_dec x y); repeat split;
        try lra; auto. }
    destruct (Hmin a bx0) as (Ha1 & Ha2 & Ha3).
    destruct (Hmax b bx1) as (Hb1 & Hb2 & Hb3).
    destruct (Hmin c by0) as (Hc1 & Hc2 & Hc3).
    destruct (Hmax d by1) as (Hd1 & Hd2 & Hd3).
    split; [repeat split; lra |].
    split.
    { intros it [<- | Hin]; [rewrite Hb; cbn [fst snd]; repeat split; lra |].
      apply Hall, Hin. }
    assert (Hhere : forall (proj : Q * Q * Q * Q -> Q) (x x0 x' m : Q),
              proj (bbox (fst item)) = x0 ->
              (m = x \/ m = x0) ->
              (x' = m \/ exists it, In it rest
                                    /\ x' = proj (bbox (fst it))) ->
              x' = x \/ exists it, In it (item :: rest)
                                   /\ x' = proj (bbox (fst it))).
    { intros proj x x0 x' m Hp Hm [-> | (it & Hin & ->)].
      - destruct Hm as [-> | ->]; [left; reflexivity |].
        right. exists item. split; [left; reflexivity | symmetry; exact Hp].
      - right. exists it. split; [right; exact Hin | reflexivity]. }
    repeat split.
    + apply (Hhere (fun t => t.1.1.1) a bx0 a' _
               ltac:(rewrite Hb; reflexivity) Ha3 Hxa).
    + apply (Hhere (fun t => t.1.1.2) b bx1 b' _
               ltac:(rewrite Hb; reflexivity) Hb3 Hxb).
    + apply (Hhere (fun t => t.1.2) c by0 c' _
               ltac:(rewrite Hb; reflexivity) Hc3 Hxc).
    + apply (Hhere (fun t => t.2) d by1 d' _
               ltac:(rewrite Hb; reflexivity) Hd3 Hxd).
Qed.

(** The bounding box of a list of paths that is not empty. *)
Lemma compute_svg_bbox_cons (item : SvgToGcode.Path * Z)
    (rest : list (SvgToGcode.Path * Z)) :
  exists x_min x_max y_min y_max : Q,
    SvgToGcode.compute_svg_bbox bbox (item :: rest)
    = SvgToGcode.Finished
        (SvgToGcode.Fin x_min, SvgToGcode.Fin x_max, SvgToGcode.Fin y_min,
         SvgToGcode.Fin y_max)
    /\ (forall it, In it (item :: rest) ->
          x_min <= (bbox (fst it)).1.1.1 /\ (bbox (fst it)).1.1.2 <= x_max
          /\ y_min <= (bbox (fst it)).1.2 /\ (bbox (fst it)).2 <= y_max)
    /\ (exists it, In it (item :: rest) /\ x_min = (bbox (fst it)).1.1.1)
    /\ (exists it, In it (item :: rest) /\ x_max = (bbox (fst it)).1.1.2)
    /\ (exists it, In it (item :: rest) /\ y_min = (bbox (fst it)).1.2)
    /\ (exists it, In it (item :: rest) /\ y_max = (bbox (fst it)).2).
Proof.
  unfold SvgToGcode.compute_svg_bbox. cbn [fold_left].
  unfold SvgToGcode.bbox_step at 2.
  destruct (bbox (fst item)) as [[[bx0 bx1] by0] by1] eqn:Hb.
  cbn [SvgToGcode.xmin SvgToGcode.xmax].
  destruct (bbox_fold_finite rest bx0 bx1 by0 by1)
    as (a' & b' & c' & d' & Hfold & (Ha & Hb' & Hc & Hd) & Hall
        & Hxa & Hxb & Hxc & Hxd).
  exists a', b', c', d'. rewrite Hfold. split; [reflexivity |].
  split.
  { intros it [<- | Hin]; [rewrite Hb; cbn [fst snd]; repeat split; lra |].
    apply Hall, Hin. }
  repeat split.
  - destruct Hxa as [-> | (it & Hin & ->)].
    + exists item. split; [left; reflexivity | rewrite Hb; reflexivity].
    + exists it. split; [right; exact Hin | reflexivity].
  - destruct Hxb as [-> | (it & Hin & ->)].
    + exists item. split; [left; reflexivity | rewrite Hb; reflexivity].
    + exists it. split; [right; exact Hin | reflexivity].
  - destruct Hxc as [-> | (it & Hin & ->)].
    + exists item. split; [left; reflexivity | rewrite Hb; reflexivity].
    + exists it. split; [right; exact Hin | reflexivity].
  - destruct Hxd as [-> | (it & Hin & ->)].
    + exists item. split; [left; reflexivity | rewrite Hb; reflexivity].
    + exists it. split; [right; exact Hin | reflexivity].
Qed.

End BoundingBox.

(** X11 ([compute_svg_bbox]).  On an empty list the function exits with
    "No drawable paths."; on any other list it returns four finite
    numbers, each of them a side of the box of one of the paths, and the
    box they form contains the box of every path. *)
Theorem compute_svg_bbox_is_tight_hull
    (bbox : SvgToGcode.Path -> Q * Q * Q * Q)
    (drawable : list (SvgToGcode.Path * Z)) :
  match SvgToGcode.compute_svg_bbox bbox drawable with
  | SvgToGcode.SystemExit msg =>
      drawable = [] /\ msg = "No drawable paths."%string
  | SvgToGcode.Finished
      (SvgToGcode.Fin x_min, SvgToGcode.Fin x_max, SvgToGcode.Fin y_min,
       SvgToGcode.Fin y_max) =>
      (forall it, In it drawable ->
         x_min <= (bbox (fst it)).1.1.1 /\ (bbox (fst it)).1.1.2 <= x_max
         /\ y_min <= (bbox (fst it)).1.2 /\ (bbox (fst it)).2 <= y_max)
      /\ (exists it, In it drawable /\ x_min = (bbox (fst it)).1.1.1)
      /\ (exists it, In it drawable /\ x_max = (bbox (fst it)).1.1.2)
      /\ (exists it, In it drawable /\ y_min = (bbox (fst it)).1.2)
      /\ (exists it, In it drawable /\ y_max = (bbox (fst it)).2)
  | _ => False
  end.
Proof.
  destruct drawable as [| item rest].
  - split; reflexivity.
  - destruct (compute_svg_bbox_cons bbox item rest)
      as (x_min & x_max & y_min & y_max & -> & H). exact H.
Qed.

(* ================================================================= *)
(** ** Fitting the drawing on the wall *)




(* ================================================================= *)
(** ** The programs of [main] *)

Lemma modes_respected_app (a b : list string) :
  forall m,
    modes_respected m (a ++ b)
    = modes_respected m a && modes_respected (final_mode m a) b.
Proof.
  induction a as [| l a IH]; intros m; [reflexivity |].
  cbn [app modes_respected final_mode fold_left].
  rewrite IH. unfold final_mode. rewrite andb_assoc. reflexivity.
Qed.

Lemma final_mode_app (a b : list string) (m : option mode) :
  final_mode m (a ++ b) = final_mode (final_mode m a) b.
Proof. unfold final_mode. apply fold_left_app. Qed.

Lemma well_moded_block (lines block : list string) :
  well_moded lines -> block_ok block -> well_moded (lines ++ block).
Proof.
  intros [H1 H2] [B1 B2]. split.
  - rewrite modes_respected_app, H1, H2. exact B1.
  - rewrite final_mode_app, H2. exact B2.
Qed.

Lemma block_ok_app (a b : list string) :
  block_ok a -> block_ok b -> block_ok (a ++ b).
Proof.
  intros [A1 A2] [B1 B2]. split.
  - rewrite modes_respected_app, A1, A2. exact B1.
  - rewrite final_mode_app, A2. exact B2.
Qed.

Lemma block_ok_nil : block_ok [].
Proof. split; reflexivity. Qed.

Lemma prefix_nil (s : string) : String.prefix "" s = true.
Proof. destruct s; reflexivity. Qed.

Lemma block_ok_select (target : Q) (f_z : Z) :
  block_ok (select_lines target f_z).
Proof.
  unfold block_ok, select_lines, final_mode.
  cbn [modes_respected fold_left].
  change (mode_after (Some Incremental) "G90") with (Some Absolute).
  set (line := ("G1 Z" +:+ format_3f target +:+ " F" +:+ format_int f_z)%string).
  assert (Hm : mode_after (Some Absolute) line = Some Absolute)
    by reflexivity.
  assert (Hok : line_ok (Some Absolute) line = true).
  { unfold line_ok, line.
    change (String.prefix "G1 X" ("G1 Z" +:+ format_3f target +:+ " F"
                                    +:+ format_int f_z)) with false.
    change (String.prefix "G1 Z" ("G1 Z" +:+ format_3f target +:+ " F"
                                    +:+ format_int f_z))
      with (String.prefix "" (format_3f target +:+ " F" +:+ format_int f_z)).
    rewrite prefix_nil. reflexivity. }
  rewrite Hm, Hok. split; reflexivity.
Qed.

Lemma block_ok_xy (feed : Z) (lines : list string) :
  Forall (xy_move_line feed) lines -> block_ok lines.
Proof.
  induction 1 as [| line lines (dL & dR & ->) _ IH];
    [exact block_ok_nil |].
  destruct IH as [I1 I2]. unfold block_ok, final_mode.
  cbn [modes_respected fold_left].
  set (line := ("G1 X" +:+ format_3f dL +:+ " Y" +:+ format_3f_opp dR
                  +:+ " F" +:+ format_int feed)%string).
  assert (Hm : mode_after (Some Incremental) line = Some Incremental)
    by reflexivity.
  assert (Hok : line_ok (Some Incremental) line = true).
  { unfold line_ok, line.
    change (String.prefix "G1 X" ("G1 X" +:+ format_3f dL +:+ " Y"
                                    +:+ format_3f_opp dR +:+ " F"
                                    +:+ format_int feed))
      with (String.prefix "" (format_3f dL +:+ " Y" +:+ format_3f_opp dR
                                +:+ " F" +:+ format_int feed)).
    rewrite prefix_nil. reflexivity. }
  rewrite Hm, Hok. split; [exact I1 | exact I2].
Qed.

Lemma block_ok_pen_down : block_ok SvgToGcode.gcode_pen_down.
Proof. split; reflexivity. Qed.


Section ProgramFacts.

Variable hypot : Q -> Q -> Q.

Lemma wall_line (cur_xy next_xy : Q * Q) (D : Q) (feed : Z) :
  xy_move_line feed
    (fst (SvgToGcode.wall_xy_to_lr_delta_g1 hypot cur_xy next_xy D feed))
  /\ snd (SvgToGcode.wall_xy_to_lr_delta_g1 hypot cur_xy next_xy D feed)
     = next_xy.
Proof.
  destruct cur_xy as [x0 y0], next_xy as [x1 y1].
  split; [| reflexivity]. eexists _, _. reflexivity.
Qed.

Lemma draw_polyline_cons (xy p : Q * Q) (pts : list (Q * Q)) (D : Q)
    (feed : Z) :
  SvgToGcode.draw_polyline hypot xy (p :: pts) D feed
  = (fst (SvgToGcode.wall_xy_to_lr_delta_g1 hypot xy p D feed)
       :: fst (SvgToGcode.draw_polyline hypot p pts D feed),
     List.last pts p).
Proof.
  unfold SvgToGcode.draw_polyline at 1. cbn [fold_left].
  assert (Hstep : SvgToGcode.draw_step hypot D feed ([], xy) p
                  = ([fst (SvgToGcode.wall_xy_to_lr_delta_g1 hypot xy p
                             D feed)], p)).
  { destruct xy as [a b], p as [c d]. reflexivity. }
  rewrite Hstep.
  destruct (draw_fold hypot D feed pts
              [fst (SvgToGcode.wall_xy_to_lr_delta_g1 hypot xy p D feed)] p)
    as [E _].
  rewrite E. reflexivity.
Qed.

(** The drawing loop writes one move per point and stops on the last
    point. *)
Lemma draw_polyline_lines (pts : list (Q * Q)) (D : Q) (feed : Z) :
  forall xy : Q * Q,
    Forall (xy_move_line feed)
      (fst (SvgToGcode.draw_polyline hypot xy pts D feed))
    /\ length (fst (SvgToGcode.draw_polyline hypot xy pts D feed))
       = length pts
    /\ snd (SvgToGcode.draw_polyline hypot xy pts D feed)
       = List.last pts xy.
Proof.
  induction pts as [| p pts IH]; intros xy.
  - split; [constructor | split; reflexivity].
  - rewrite draw_polyline_cons. cbn [fst snd length].
    destruct (IH p) as (F & L & _).
    split; [| split].
    + constructor; [apply wall_line | exact F].
    + rewrite L. reflexivity.
    + rewrite last_cons_default. reflexivity.
Qed.

Lemma move_xy_segmented_lines (cur_xy target_xy : Q * Q) (D : Q) (feed : Z)
    (max_step_mm : Q) :
  Forall (xy_move_line feed)
    (fst (SvgToGcode.move_xy_segmented hypot cur_xy target_xy D feed
            max_step_mm)).
Proof.
  unfold SvgToGcode.move_xy_segmented.
  destruct cur_xy as [x0 y0], target_xy as [x1 y1].
  destruct (Qle_bool (hypot (fsub x1 x0) (fsub y1 y0)) float_1e_9);
    [constructor |].
  destruct (Qle_bool max_step_mm 0).
  - pose proof (wall_line (x0, y0) (x1, y1) D feed) as [Hl _].
    destruct (SvgToGcode.wall_xy_to_lr_delta_g1 hypot (x0, y0) (x1, y1)
                D feed) as [line xy].
    constructor; [exact Hl | constructor].
  - cbv zeta. rewrite segment_fold_draw.
    apply (draw_polyline_lines _ D feed (x0, y0)).
Qed.

Lemma emit_select (pen base f_z : Z) (p : SvgToGcode.Prog) :
  SvgToGcode.PEN_SLOTS_Z !! pen = Some base ->
  SvgToGcode.emit (SvgToGcode.gcode_pen_select_ccw pen f_z) p
  = Ok {| SvgToGcode.g_lines :=
            SvgToGcode.g_lines p
            ++ select_lines
                 (SvgToGcode.ccw_only_target
                    (SvgToGcode.z (SvgToGcode.g_st p)) (inject_Z base)) f_z;
          SvgToGcode.g_st :=
            {| SvgToGcode.z :=
                 Some (SvgToGcode.ccw_only_target
                         (SvgToGcode.z (SvgToGcode.g_st p))
                         (inject_Z base)) |};
          SvgToGcode.g_xy := SvgToGcode.g_xy p |}.
Proof.
  intros Hpen. unfold SvgToGcode.emit, SvgToGcode.gcode_pen_select_ccw.
  rewrite Hpen. reflexivity.
Qed.

(** Selecting the pen that is selected leaves the angle where it is. *)
Lemma ccw_only_target_again (current : option Q) (slot : Q) :
  SvgToGcode.ccw_only_target
    (Some (SvgToGcode.ccw_only_target current slot)) slot
  = SvgToGcode.ccw_only_target current slot.
Proof.
  destruct current as [c |]; cbn [SvgToGcode.ccw_only_target].
  - apply ccw_loop_again.
  - apply ccw_loop_reached, Qle_refl.
Qed.

Lemma ccw_only_target_ge (current slot : Q) :
  current <= SvgToGcode.ccw_only_target (Some current) slot.
Proof. apply ccw_loop_ge. Qed.

Lemma travel_lines (args : SvgToGcode.Args) (target : Q * Q)
    (p : SvgToGcode.Prog) :
  SvgToGcode.travel hypot args target p
  = {| SvgToGcode.g_lines :=
         SvgToGcode.g_lines p
         ++ fst (SvgToGcode.move_xy_segmented hypot (SvgToGcode.g_xy p)
                   target (SvgToGcode.D_mm args) (SvgToGcode.f_travel args)
                   (SvgToGcode.travel_step_mm args));
       SvgToGcode.g_st := SvgToGcode.g_st p;
       SvgToGcode.g_xy :=
         snd (SvgToGcode.move_xy_segmented hypot (SvgToGcode.g_xy p)
                target (SvgToGcode.D_mm args) (SvgToGcode.f_travel args)
                (SvgToGcode.travel_step_mm args)) |}.
Proof.
  unfold SvgToGcode.travel.
  destruct (SvgToGcode.move_xy_segmented _ _ _ _ _ _); reflexivity.
Qed.

End ProgramFacts.

(** The wall polyline of a path: the images of the [n + 1] points at the
    parameters [0/n] to [n/n], the floats 0 to 1. *)
Lemma poly_wall_shape (mapper : SvgToGcode.SvgToWallMapper)
    (path : SvgToGcode.Path) (step_mm : Q) :
  let n := SvgToGcode.sample_count (SvgToGcode.length_svg path)
             (SvgToGcode.scale mapper) step_mm in
  let at_ := fun t : Q =>
    SvgToGcode.map_uv mapper (fst (SvgToGcode.point path t))
      (snd (SvgToGcode.point path t)) in
  exists rest : list (Q * Q),
    SvgToGcode.poly_wall mapper path step_mm = at_ 0 :: rest
    /\ length rest = Z.to_nat n
    /\ forall d, List.last rest d = at_ 1.
Proof.
  intros n at_.
  pose proof (sample_count_ge_1 (SvgToGcode.length_svg path)
                (SvgToGcode.scale mapper) step_mm) as Hn.
  fold n in Hn.
  unfold SvgToGcode.poly_wall, SvgToGcode.sample_path_uniform_t.
  fold n. cbv zeta. replace (Z.max 1 n) with n by lia.
  unfold range. replace (Z.to_nat (n + 1 - 0)) with (S (Z.to_nat n)) by lia.
  rewrite !map_map. cbn [seq map].
  exists (map (fun k => at_ (fdiv (inject_Z (0 + Z.of_nat k)) (inject_Z n)))
            (seq 1 (Z.to_nat n))).
  split; [| split; [rewrite length_map, length_seq; lia |]].
  - change (0 + Z.of_nat 0)%Z with 0%Z. rewrite fdiv_0_l. reflexivity.
  - intros d.
    replace (Z.to_nat n) with (S (Z.to_nat (n - 1))) by lia.
    rewrite seq_S, map_app. cbn [map]. rewrite last_last.
    replace (0 + Z.of_nat (1 + Z.to_nat (n - 1)))%Z with n by lia.
    rewrite (fdiv_self n Hn). reflexivity.
Qed.

Section ProgramSteps.

Variable hypot : Q -> Q -> Q.

(** One path of the drawing, for a pen of the table. *)
Lemma path_step_ok (args : SvgToGcode.Args)
    (mapper : SvgToGcode.SvgToWallMapper) (p : SvgToGcode.Prog)
    (path : SvgToGcode.Path) (pen base : Z) :
  SvgToGcode.PEN_SLOTS_Z !! pen = Some base ->
  let target :=
    SvgToGcode.ccw_only_target (SvgToGcode.z (SvgToGcode.g_st p))
      (inject_Z base) in
  let n := SvgToGcode.sample_count (SvgToGcode.length_svg path)
             (SvgToGcode.scale mapper) (SvgToGcode.step_mm args) in
  let at_ := fun t : Q =>
    SvgToGcode.map_uv mapper (fst (SvgToGcode.point path t))
      (snd (SvgToGcode.point path t)) in
  let moved :=
    SvgToGcode.move_xy_segmented hypot (SvgToGcode.g_xy p)
      (at_ 0) (SvgToGcode.D_mm args)
      (SvgToGcode.f_travel args) (SvgToGcode.travel_step_mm args) in
  exists draw_lines : list string,
    SvgToGcode.path_step hypot args mapper p (path, pen)
    = Ok {| SvgToGcode.g_lines :=
              SvgToGcode.g_lines p
              ++ select_lines target (SvgToGcode.f_z args)
              ++ fst moved
              ++ SvgToGcode.gcode_pen_down
              ++ draw_lines
              ++ select_lines target (SvgToGcode.f_z args);
            SvgToGcode.g_st := {| SvgToGcode.z := Some target |};
            SvgToGcode.g_xy := at_ 1 |}
    /\ Forall (xy_move_line (SvgToGcode.f_draw args)) draw_lines
    /\ length draw_lines = Z.to_nat n.
Proof.
  intros Hpen target n at_ moved.
  destruct (poly_wall_shape mapper path (SvgToGcode.step_mm args))
    as (rest & Hpoly & Hlen & Hlast).
  fold n in Hpoly, Hlen, Hlast. cbv beta zeta in Hpoly, Hlast.
  subst at_. cbv beta in *.
  destruct (draw_polyline_lines hypot rest (SvgToGcode.D_mm args)
              (SvgToGcode.f_draw args) (snd moved)) as (HF & HL & HS).
  exists (fst (SvgToGcode.draw_polyline hypot (snd moved) rest
                 (SvgToGcode.D_mm args) (SvgToGcode.f_draw args))).
  split; [| split; [exact HF | rewrite HL; exact Hlen]].
  unfold SvgToGcode.path_step.
  rewrite (emit_select pen base _ p Hpen), Hpoly, travel_lines.
  fold target. unfold SvgToGcode.add_lines.
  cbn [SvgToGcode.g_lines SvgToGcode.g_st SvgToGcode.g_xy].
  fold moved.
  destruct (SvgToGcode.draw_polyline hypot (snd moved) rest
              (SvgToGcode.D_mm args) (SvgToGcode.f_draw args))
    as [ls xy] eqn:Hdraw.
  cbn [fst snd] in *. unfold SvgToGcode.gcode_pen_up.
  rewrite (emit_select pen base _ _ Hpen).
  cbn [SvgToGcode.g_lines SvgToGcode.g_st SvgToGcode.g_xy SvgToGcode.z].
  unfold target. rewrite ccw_only_target_again.
  rewrite HS, Hlast. rewrite <- !app_assoc. reflexivity.
Qed.

(** One dot of the bounding box, for a pen of the table. *)
Lemma dot_step_ok (args : SvgToGcode.Args) (p : SvgToGcode.Prog)
    (xy : Q * Q) (pen base : Z) :
  SvgToGcode.PEN_SLOTS_Z !! pen = Some base ->
  let target :=
    SvgToGcode.ccw_only_target (SvgToGcode.z (SvgToGcode.g_st p))
      (inject_Z base) in
  let moved :=
    SvgToGcode.move_xy_segmented hypot (SvgToGcode.g_xy p) xy
      (SvgToGcode.D_mm args) (SvgToGcode.f_travel args)
      (SvgToGcode.travel_step_mm args) in
  SvgToGcode.dot_step hypot args pen p xy
  = Ok {| SvgToGcode.g_lines :=
            SvgToGcode.g_lines p
            ++ fst moved
            ++ SvgToGcode.gcode_pen_down
            ++ SvgToGcode.gcode_dwell (SvgToGcode.dot_dwell_s args)
            ++ select_lines target (SvgToGcode.f_z args);
          SvgToGcode.g_st := {| SvgToGcode.z := Some target |};
          SvgToGcode.g_xy := snd moved |}.
Proof.
  intros Hpen target moved. unfold SvgToGcode.dot_step.
  rewrite travel_lines. fold moved. unfold SvgToGcode.add_lines.
  cbn [SvgToGcode.g_lines SvgToGcode.g_st SvgToGcode.g_xy].
  unfold SvgToGcode.gcode_pen_up.
  rewrite (emit_select pen base _ _ Hpen).
  cbn [SvgToGcode.g_lines SvgToGcode.g_st SvgToGcode.g_xy].
  rewrite <- !app_assoc. reflexivity.
Qed.

End ProgramSteps.

Lemma for_each_app {A S : Type} (body : S -> A -> result S)
    (l1 l2 : list A) :
  forall s : S,
    SvgToGcode.for_each body (l1 ++ l2) s
    = match SvgToGcode.for_each body l1 s with
      | Ok s1 => SvgToGcode.for_each body l2 s1
      | Raise e => Raise e
      end.
Proof.
  induction l1 as [| a l1 IH]; intros s; [reflexivity |].
  cbn [app SvgToGcode.for_each].
  destruct (body s a) as [s' | e]; [apply IH | reflexivity].
Qed.

(** A loop whose body never raises on its items and steps along a
    preorder ends, along the preorder. *)
Lemma for_each_rel {A S : Type} (body : S -> A -> result S)
    (R : S -> S -> Prop) (items : list A) :
  (forall s, R s s) ->
  (forall s1 s2 s3, R s1 s2 -> R s2 s3 -> R s1 s3) ->
  (forall s a, In a items -> exists s', body s a = Ok s' /\ R s s') ->
  forall s, exists s', SvgToGcode.for_each body items s = Ok s' /\ R s s'.
Proof.
  intros Hrefl Htrans. induction items as [| a items IH]; intros Hbody s.
  - exists s. split; [reflexivity | apply Hrefl].
  - destruct (Hbody s a (or_introl eq_refl)) as (s1 & E1 & R1).
    destruct (IH (fun s a Hin => Hbody s a (or_intror Hin)) s1)
      as (s2 & E2 & R2).
    exists s2. cbn [SvgToGcode.for_each]. rewrite E1.
    split; [exact E2 | exact (Htrans _ _ _ R1 R2)].
Qed.

Lemma continues_refl (p : SvgToGcode.Prog) : continues p p.
Proof.
  split; [exists []; rewrite app_nil_r; reflexivity |].
  destruct (SvgToGcode.z (SvgToGcode.g_st p)) as [a |]; [| exact I].
  exists a. split; [reflexivity | apply Qle_refl].
Qed.

Lemma continues_trans (p1 p2 p3 : SvgToGcode.Prog) :
  continues p1 p2 -> continues p2 p3 -> continues p1 p3.
Proof.
  intros [[m1 L1] Z1] [[m2 L2] Z2]. split.
  - exists (m1 ++ m2). rewrite L2, L1, app_assoc. reflexivity.
  - destruct (SvgToGcode.z (SvgToGcode.g_st p1)) as [a |]; [| exact I].
    destruct Z1 as (b & Hb & Hab). rewrite Hb in Z2.
    destruct Z2 as (c & Hc & Hbc). exists c.
    split; [exact Hc | exact (Qle_trans _ _ _ Hab Hbc)].
Qed.

Lemma advances_refl (p : SvgToGcode.Prog) : advances p p.
Proof. split; [apply continues_refl | tauto]. Qed.

Lemma advances_trans (p1 p2 p3 : SvgToGcode.Prog) :
  advances p1 p2 -> advances p2 p3 -> advances p1 p3.
Proof.
  intros [C1 W1] [C2 W2].
  split; [exact (continues_trans _ _ _ C1 C2) | tauto].
Qed.

Lemma target_continues (current : option Q) (slot : Q) :
  match current with
  | None => True
  | Some a =>
      exists b, Some (SvgToGcode.ccw_only_target current slot) = Some b
                /\ a <= b
  end.
Proof.
  destruct current as [a |]; [| exact I].
  eexists. split; [reflexivity | apply ccw_only_target_ge].
Qed.

Section ProgramRuns.

Variable hypot : Q -> Q -> Q.

Lemma path_step_advances (args : SvgToGcode.Args)
    (mapper : SvgToGcode.SvgToWallMapper) (p : SvgToGcode.Prog)
    (item : SvgToGcode.Path * Z) :
  (1 <= snd item <= 4)%Z ->
  exists p', SvgToGcode.path_step hypot args mapper p item = Ok p'
             /\ advances p p'.
Proof.
  destruct item as [path pen]. cbn [snd]. intros Hpen.
  apply pen_slot_table in Hpen. destruct Hpen as [base Hpen].
  destruct (path_step_ok hypot args mapper p path pen base Hpen)
    as (draw_lines & E & HF & _).
  eexists. split; [exact E |].
  split; [split |]; cbn [SvgToGcode.g_lines SvgToGcode.g_st SvgToGcode.z].
  - eexists. reflexivity.
  - apply target_continues.
  - intros Hw. apply well_moded_block; [exact Hw |].
    repeat apply block_ok_app;
      first [ apply block_ok_select
            | apply block_ok_pen_down
            | eapply block_ok_xy, move_xy_segmented_lines
            | eapply block_ok_xy, HF ].
Qed.



(** Both programs start with the header and, unless disabled, the
    homing of the carousel, which leaves the angle at -56. *)
Lemma start_program_ok (home : bool) (cx cy : Q) :
  exists p,
    SvgToGcode.start_program home cx cy = Ok p
    /\ well_moded (SvgToGcode.g_lines p)
    /\ SvgToGcode.g_lines p
       = SvgToGcode.gcode_header
         ++ (if home
             then ["G21"; "G90"; "M17"; "G77"; "G92 Z-56"; "G91"]%string
             else [])
    /\ SvgToGcode.z (SvgToGcode.g_st p)
       = (if home then Some SvgToGcode.Z_AFTER_G77 else None)
    /\ SvgToGcode.g_xy p = (cx, cy).
Proof.
  destruct home; eexists; (split; [reflexivity |]);
    cbn [SvgToGcode.g_lines SvgToGcode.g_st SvgToGcode.g_xy SvgToGcode.z];
    (split; [split; reflexivity |]); repeat split; reflexivity.
Qed.

Lemma draw_program_from (args : SvgToGcode.Args)
    (mapper : SvgToGcode.SvgToWallMapper)
    (drawable : list (SvgToGcode.Path * Z)) :
  (forall item, In item drawable -> (1 <= snd item <= 4)%Z) ->
  forall p, exists p',
    SvgToGcode.for_each (SvgToGcode.path_step hypot args mapper) drawable p
    = Ok p'
    /\ advances p p'.
Proof.
  intros Hpens.
  apply (for_each_rel _ advances drawable advances_refl advances_trans).
  intros s a Hin. apply path_step_advances, Hpens, Hin.
Qed.



End ProgramRuns.






(** X16 ([main], the drawing program).  Drawing more paths only adds
    lines after the program of the first paths, and never turns the
    carousel back: its angle at the end is at least its angle after the
    first paths. *)
Theorem draw_program_continues (hypot : Q -> Q -> Q)
    (args : SvgToGcode.Args) (mapper : SvgToGcode.SvgToWallMapper)
    (first more : list (SvgToGcode.Path * Z)) :
  (forall item, In item (first ++ more) -> (1 <= snd item <= 4)%Z) ->
  exists p1 p2 : SvgToGcode.Prog,
    SvgToGcode.draw_program hypot args mapper first = Ok p1
    /\ SvgToGcode.draw_program hypot args mapper (first ++ more) = Ok p2
    /\ (exists lines,
          SvgToGcode.g_lines p2 = SvgToGcode.g_lines p1 ++ lines)
    /\ match SvgToGcode.z (SvgToGcode.g_st p1) with
       | None => True
       | Some a =>
           exists b, SvgToGcode.z (SvgToGcode.g_st p2) = Some b /\ a <= b
       end.
Proof.
  intros Hpens. unfold SvgToGcode.draw_program.
  destruct (start_program_ok (SvgToGcode.home_carousel args)
              (SvgToGcode.wall_cx mapper) (SvgToGcode.wall_cy mapper))
    as (p0 & -> & _).
  destruct (draw_program_from hypot args mapper first
              (fun item Hin => Hpens item (in_or_app _ _ _ (or_introl Hin)))
              p0) as (p1 & E1 & _).
  destruct (draw_program_from hypot args mapper more
              (fun item Hin => Hpens item (in_or_app _ _ _ (or_intror Hin)))
              p1) as (p2 & E2 & [Hlines Hz] & _).
  exists p1, p2. rewrite for_each_app, E1.
  split; [reflexivity |]. split; [exact E2 |].
  split; [exact Hlines | exact Hz].
Qed.

Lemma draw_program_continues_witness :
  exists p1 p2 : SvgToGcode.Prog,
    SvgToGcode.draw_program hypot_dyadic demo_args
      (main_mapper demo_args 0 30 0 40) [(demo_path, 2%Z)] = Ok p1
    /\ SvgToGcode.draw_program hypot_dyadic demo_args
         (main_mapper demo_args 0 30 0 40)
         ([(demo_path, 2%Z)] ++ [(demo_path, 1%Z)]) = Ok p2
    /\ (exists lines,
          SvgToGcode.g_lines p2 = SvgToGcode.g_lines p1 ++ lines)
    /\ match SvgToGcode.z (SvgToGcode.g_st p1) with
       | None => True
       | Some a =>
           exists b, SvgToGcode.z (SvgToGcode.g_st p2) = Some b /\ a <= b
       end.
Proof.
  apply (draw_program_continues hypot_dyadic demo_args
           (main_mapper demo_args 0 30 0 40)
           [(demo_path, 2%Z)] [(demo_path, 1%Z)]).
  intros item [<- | [<- | []]]; cbn; lia.
Defined.

(** From the start of a program a pen of the table is reached at its
    table angle. *)
Lemma select_from_start (home : bool) (pen base : Z) :
  SvgToGcode.PEN_SLOTS_Z !! pen = Some base ->
  SvgToGcode.ccw_only_target
    (if home then Some SvgToGcode.Z_AFTER_G77 else None) (inject_Z base)
  = inject_Z base.
Proof.
  intros Hpen. destruct home; [| reflexivity].
  cbn [SvgToGcode.ccw_only_target]. apply ccw_loop_reached.
  apply pen_slot_table_values in Hpen. destruct Hpen as [Hp ->].
  unfold SvgToGcode.Z_AFTER_G77.
  apply Qle_trans with (inject_Z 0); [vm_compute; discriminate |].
  rewrite <- Zle_Qle. lia.
Qed.

Section Dots.

Variable hypot : Q -> Q -> Q.

(** A dot made with the pen that is selected. *)
Lemma dot_step_same (args : SvgToGcode.Args) (p : SvgToGcode.Prog)
    (xy : Q * Q) (pen base : Z) :
  SvgToGcode.PEN_SLOTS_Z !! pen = Some base ->
  SvgToGcode.z (SvgToGcode.g_st p) = Some (inject_Z base) ->
  exists (t : list string) (p' : SvgToGcode.Prog),
    SvgToGcode.dot_step hypot args pen p xy = Ok p'
    /\ Forall (xy_move_line (SvgToGcode.f_travel args)) t
    /\ SvgToGcode.g_lines p'
       = SvgToGcode.g_lines p
         ++ t ++ ["G101"; "G101"; "G101"]%string
         ++ SvgToGcode.gcode_dwell (SvgToGcode.dot_dwell_s args)
         ++ select_lines (inject_Z base) (SvgToGcode.f_z args)
    /\ SvgToGcode.z (SvgToGcode.g_st p') = Some (inject_Z base).
Proof.
  intros Hpen Hz.
  pose proof (dot_step_ok hypot args p xy pen base Hpen) as E.
  cbv zeta in E. rewrite Hz in E.
  assert (Hsame : SvgToGcode.ccw_only_target (Some (inject_Z base))
                    (inject_Z base) = inject_Z base)
    by (apply ccw_loop_reached, Qle_refl).
  rewrite Hsame in E.
  eexists _, _. split; [exact E |].
  cbn [SvgToGcode.g_lines SvgToGcode.g_st SvgToGcode.z].
  split; [apply move_xy_segmented_lines |]. split; reflexivity.
Qed.

End Dots.

(** X17 ([main], the bounding-box program).  For a pen of the table the
    program of the dots is: the header, the homing unless disabled, one
    pen select at the table angle of the pen, and for each of the four
    corners its travel moves, three [G101], one dwell and a pen up at
    that same angle; the carousel turns once. *)
Theorem bbox_program_four_dots (hypot : Q -> Q -> Q)
    (args : SvgToGcode.Args) (mapper : SvgToGcode.SvgToWallMapper)
    (x_min x_max y_min y_max : Q) (base : Z) :
  SvgToGcode.PEN_SLOTS_Z !! SvgToGcode.bbox_pen args = Some base ->
  let up := select_lines (inject_Z base) (SvgToGcode.f_z args) in
  let dot := fun t : list string =>
    t ++ ["G101"; "G101"; "G101"]%string
      ++ SvgToGcode.gcode_dwell (SvgToGcode.dot_dwell_s args) ++ up in
  exists (p : SvgToGcode.Prog) (t1 t2 t3 t4 : list string),
    SvgToGcode.bbox_program hypot args mapper x_min x_max y_min y_max = Ok p
    /\ Forall (Forall (xy_move_line (SvgToGcode.f_travel args)))
         [t1; t2; t3; t4]
    /\ SvgToGcode.g_lines p
       = ["G21"; "G91"; "M17"]%string
         ++ (if SvgToGcode.home_carousel args
             then ["G21"; "G90"; "M17"; "G77"; "G92 Z-56"; "G91"]%string
             else [])
         ++ up ++ dot t1 ++ dot t2 ++ dot t3 ++ dot t4
    /\ SvgToGcode.z (SvgToGcode.g_st p) = Some (inject_Z base).
Proof.
  intros Hpen up dot. unfold SvgToGcode.bbox_program. cbv zeta.
  destruct (start_program_ok (SvgToGcode.home_carousel args)
              (SvgToGcode.wall_cx mapper) (SvgToGcode.wall_cy mapper))
    as (p0 & -> & _ & L0 & Z0 & _).
  rewrite (emit_select _ base _ p0 Hpen), Z0,
    (select_from_start _ _ base Hpen).
  set (p1 := {| SvgToGcode.g_lines := _ |}).
  destruct (dot_step_same hypot args p1 (SvgToGcode.map_uv mapper x_min y_min)
              _ base Hpen eq_refl) as (t1 & p2 & E1 & F1 & L1 & Z1).
  destruct (dot_step_same hypot args p2 (SvgToGcode.map_uv mapper x_max y_min)
              _ base Hpen Z1) as (t2 & p3 & E2 & F2 & L2 & Z2).
  destruct (dot_step_same hypot args p3 (SvgToGcode.map_uv mapper x_max y_max)
              _ base Hpen Z2) as (t3 & p4 & E3 & F3 & L3 & Z3).
  destruct (dot_step_same hypot args p4 (SvgToGcode.map_uv mapper x_min y_max)
              _ base Hpen Z3) as (t4 & p5 & E4 & F4 & L4 & Z4).
  exists p5, t1, t2, t3, t4. cbn [SvgToGcode.for_each].
  rewrite E1, E2, E3, E4. split; [reflexivity |].
  split; [repeat constructor; assumption |]. split; [| exact Z4].
  rewrite L4, L3, L2, L1. unfold p1. cbn [SvgToGcode.g_lines].
  rewrite L0. unfold dot, up, SvgToGcode.gcode_header.
  rewrite <- !app_assoc. reflexivity.
Qed.

Lemma bbox_program_four_dots_witness :
  exists (p : SvgToGcode.Prog) (t1 t2 t3 t4 : list string),
    SvgToGcode.bbox_program hypot_dyadic demo_args
      (main_mapper demo_args 0 30 0 40) 0 30 0 40 = Ok p
    /\ SvgToGcode.z (SvgToGcode.g_st p) = Some (inject_Z 89)
    /\ length (SvgToGcode.g_lines p)
       = (3 + 6 + 3 + (length t1 + 7) + (length t2 + 7) + (length t3 + 7)
          + (length t4 + 7))%nat.
Proof.
  destruct (bbox_program_four_dots hypot_dyadic demo_args
              (main_mapper demo_args 0 30 0 40) 0 30 0 40 89 eq_refl)
    as (p & t1 & t2 & t3 & t4 & E & _ & L & Hz).
  exists p, t1, t2, t3, t4. split; [exact E |]. split; [exact Hz |].
  rewrite L. cbn [SvgToGcode.home_carousel demo_args].
  unfold select_lines, SvgToGcode.gcode_dwell.
  rewrite !length_app. cbn [length]. lia.
Defined.

(* ================================================================= *)
(** ** Colour attributes *)

Lemma lower_char_idem (c : ascii) : lower_char (lower_char c) = lower_char c.
Proof. destruct c as [[] [] [] [] [] [] [] []]; reflexivity. Qed.

Lemma isspace_lower_char (c : ascii) : isspace (lower_char c) = isspace c.
Proof. destruct c as [[] [] [] [] [] [] [] []]; reflexivity. Qed.

Lemma lower_idem (s : string) : lower (lower s) = lower s.
Proof.
  induction s as [| c s IH]; [reflexivity |].
  cbn [lower]. rewrite lower_char_idem, IH. reflexivity.
Qed.

Lemma lstrip_lower (s : string) : lstrip (lower s) = lower (lstrip s).
Proof.
  induction s as [| c s IH]; [reflexivity |].
  cbn [lower lstrip]. rewrite isspace_lower_char.
  destruct (isspace c); [exact IH | reflexivity].
Qed.

Lemma rstrip_cons (c : ascii) (s : string) :
  rstrip (String c s)
  = match rstrip s with
    | EmptyString => if isspace c then EmptyString else String c EmptyString
    | r => String c r
    end.
Proof. reflexivity. Qed.

Lemma rstrip_lower (s : string) : rstrip (lower s) = lower (rstrip s).
Proof.
  induction s as [| c s IH]; [reflexivity |].
  cbn [lower]. rewrite !rstrip_cons, IH, isspace_lower_char.
  destruct (rstrip s); cbn [lower]; [destruct (isspace c) |]; reflexivity.
Qed.

Lemma strip_lower (s : string) : strip (lower s) = lower (strip s).
Proof. unfold strip. rewrite lstrip_lower, rstrip_lower. reflexivity. Qed.

Lemma rstrip_idem (s : string) : rstrip (rstrip s) = rstrip s.
Proof.
  induction s as [| c s IH]; [reflexivity |].
  rewrite rstrip_cons. destruct (rstrip s) as [| d r] eqn:Hr.
  - destruct (isspace c) eqn:Hc; [reflexivity |].
    rewrite rstrip_cons. cbn [rstrip]. rewrite Hc. reflexivity.
  - rewrite rstrip_cons, IH. reflexivity.
Qed.

(** What [lstrip] leaves starts with a character that is not blank. *)
Lemma lstrip_head (s : string) :
  lstrip s = EmptyString
  \/ exists c t, lstrip s = String c t /\ isspace c = false.
Proof.
  induction s as [| c s IH]; [left; reflexivity |].
  cbn [lstrip]. destruct (isspace c) eqn:Hc; [exact IH |].
  right. exists c, s. split; [reflexivity | exact Hc].
Qed.

Lemma rstrip_head (c : ascii) (t : string) :
  isspace c = false -> exists r, rstrip (String c t) = String c r.
Proof.
  intros Hc. rewrite rstrip_cons, Hc.
  destruct (rstrip t); eexists; reflexivity.
Qed.

Lemma strip_idem (s : string) : strip (strip s) = strip s.
Proof.
  unfold strip. destruct (lstrip_head s) as [-> | (c & t & -> & Hc)];
    [reflexivity |].
  destruct (rstrip_head c t Hc) as [r Hr].
  assert (Hl : lstrip (rstrip (String c t)) = rstrip (String c t))
    by (rewrite Hr; cbn [lstrip]; rewrite Hc; reflexivity).
  rewrite Hl. apply rstrip_idem.
Qed.

(** The text that [parse_color] works on is normalised. *)
Lemma normalised_again (s : string) :
  lower (strip (lower (strip s))) = lower (strip s).
Proof. rewrite strip_lower, strip_idem. apply lower_idem. Qed.

Lemma span_all (f : ascii -> bool) (s : string) :
  forallb f (list_ascii_of_string (fst (span f s))) = true.
Proof.
  induction s as [| c s IH]; [reflexivity |].
  cbn [span]. destruct (f c) eqn:Hc; [| reflexivity].
  destruct (span f s) as [a b]. cbn [fst list_ascii_of_string forallb] in *.
  rewrite Hc, IH. reflexivity.
Qed.

Lemma re_number_digits (s ds rest : string) :
  SvgToGcode.re_number s = Some (ds, rest) ->
  ds <> EmptyString
  /\ forallb isdigit (list_ascii_of_string ds) = true.
Proof.
  unfold SvgToGcode.re_number. pose proof (span_all isdigit (lstrip s)) as H.
  destruct (span isdigit (lstrip s)) as [d r]. cbn [fst] in H.
  destruct d as [| c d]; [discriminate |].
  intros [= <- <-]. split; [discriminate | exact H].
Qed.

Lemma re_match_rgb_digits (s r g b : string) :
  SvgToGcode.re_match_rgb s = Some (r, g, b) ->
  forall ds, ds = r \/ ds = g \/ ds = b ->
    ds <> EmptyString /\ forallb isdigit (list_ascii_of_string ds) = true.
Proof.
  unfold SvgToGcode.re_match_rgb. intros H.
  repeat match type of H with
         | match ?x with _ => _ end = _ =>
             let E := fresh "E" in
             destruct x eqn:E; try discriminate
         | (if ?x then _ else _) = _ =>
             destruct x; try discriminate
         end.
  injection H as <- <- <-.
  intros ds [-> | [-> | ->]]; eapply re_number_digits; eassumption.
Qed.

Lemma clamp_int_bounds (v lo hi : Z) :
  (lo <= hi)%Z ->
  (lo <= SvgToGcode.clamp_int v lo hi <= hi)%Z.
Proof. unfold SvgToGcode.clamp_int. lia. Qed.

Lemma hex_digit_plain (d : Z) :
  (0 <= d <= 15)%Z ->
  isspace (hex_digit d) = false /\ lower_char (hex_digit d) = hex_digit d.
Proof.
  intros Hd.
  assert (H : (d = 0 \/ d = 1 \/ d = 2 \/ d = 3 \/ d = 4 \/ d = 5 \/ d = 6
              \/ d = 7 \/ d = 8 \/ d = 9 \/ d = 10 \/ d = 11 \/ d = 12
              \/ d = 13 \/ d = 14 \/ d = 15)%Z) by lia.
  repeat (destruct H as [-> | H]; [split; reflexivity |]).
  subst d. split; reflexivity.
Qed.

(** [parse_color] raises only what [int] raises on one of the three
    numbers of [rgb(...)]. *)
Lemma parse_color_raises (py_int : string -> result Z) (s : option string)
    (e : exn) :
  SvgToGcode.parse_color py_int s = Raise e ->
  exists ds, digits ds /\ py_int ds = Raise e.
Proof.
  unfold SvgToGcode.parse_color.
  destruct s as [[| c s] |]; try discriminate. cbv zeta.
  set (s1 := lower (strip (String c s))).
  destruct (String.eqb s1 "none" || String.eqb s1 "transparent");
    [discriminate |].
  destruct (startswith s1 "#").
  { destruct s1 as [| h [| r [| g [| b [| x s1']]]]]; discriminate. }
  destruct (SvgToGcode.re_match_rgb s1) as [[[r g] b] |] eqn:Hre;
    [| discriminate].
  pose proof (re_match_rgb_digits s1 r g b Hre) as Hdig.
  destruct (py_int r) as [nr | e1] eqn:Er.
  2: { intros [= ->]. exists r. split; [apply Hdig; auto | exact Er]. }
  destruct (py_int g) as [ng | e1] eqn:Eg.
  2: { intros [= ->]. exists g. split; [apply Hdig; auto | exact Eg]. }
  destruct (py_int b) as [nb | e1] eqn:Eb.
  2: { intros [= ->]. exists b. split; [apply Hdig; auto | exact Eb]. }
  discriminate.
Qed.

Section ColourFacts.

Variable py_int : string -> result Z.

(** [parse_color] sees an attribute that is not empty through its
    normalised text only. *)
Lemma parse_color_normalised (s t : string) :
  s <> EmptyString -> t <> EmptyString ->
  lower (strip s) = lower (strip t) ->
  SvgToGcode.parse_color py_int (Some s)
  = SvgToGcode.parse_color py_int (Some t).
Proof.
  intros Hs Ht H. destruct s as [| c s]; [congruence |].
  destruct t as [| d t]; [congruence |].
  unfold SvgToGcode.parse_color. cbv zeta. rewrite H. reflexivity.
Qed.

Lemma parse_color_of_normalised (s : string) :
  lower (strip s) <> EmptyString ->
  SvgToGcode.parse_color py_int (Some s)
  = SvgToGcode.parse_color py_int (Some (lower (strip s))).
Proof.
  intros H. apply parse_color_normalised.
  - intros ->. apply H. reflexivity.
  - exact H.
  - symmetry. apply normalised_again.
Qed.

(** A hash and six characters that are normalised are a colour as they
    are. *)
Lemma parse_color_hash6 (a1 a2 a3 a4 a5 a6 : ascii) :
  isspace a6 = false ->
  lower_char a1 = a1 -> lower_char a2 = a2 -> lower_char a3 = a3 ->
  lower_char a4 = a4 -> lower_char a5 = a5 -> lower_char a6 = a6 ->
  let c := String "#" (String a1 (String a2 (String a3 (String a4
             (String a5 (String a6 EmptyString)))))) in
  SvgToGcode.parse_color py_int (Some c) = Ok (Some c).
Proof.
  intros Hs H1 H2 H3 H4 H5 H6 c.
  assert (Hn : lower (strip c) = c).
  { unfold c, strip.
    change (lstrip (String "#" ?x)) with (String "#" x).
    rewrite !rstrip_cons. cbn [rstrip]. rewrite Hs.
    cbn [lower]. rewrite H1, H2, H3, H4, H5, H6. reflexivity. }
  unfold SvgToGcode.parse_color. cbv zeta. fold c. rewrite Hn.
  reflexivity.
Qed.

(** A stripped text of a hash and three characters. *)
Lemma strip_hash3 (h r g b : ascii) :
  strip (String h (String r (String g (String b EmptyString))))
  = String h (String r (String g (String b EmptyString))) ->
  isspace b = false.
Proof.
  unfold strip. intros H.
  destruct (isspace b) eqn:Hb; [exfalso | reflexivity].
  assert (Hlen : forall s,
             (String.length (rstrip s) <= String.length s)%nat).
  { induction s as [| c s IH]; [reflexivity |]. rewrite rstrip_cons.
    destruct (rstrip s); [destruct (isspace c) |]; cbn [String.length] in *;
      lia. }
  assert (Hl : forall s,
             (String.length (lstrip s) <= String.length s)%nat).
  { induction s as [| c s IH]; [reflexivity |]. cbn [lstrip].
    destruct (isspace c); cbn [String.length] in *; lia. }
  assert (Hlast : forall s,
             rstrip (s +:+ String b EmptyString) = rstrip s).
  { induction s as [| c s IH].
    - change (EmptyString +:+ String b EmptyString)
        with (String b EmptyString).
      rewrite rstrip_cons. cbn [rstrip]. rewrite Hb. reflexivity.
    - change (String c s +:+ String b EmptyString)
        with (String c (s +:+ String b EmptyString)).
      rewrite !rstrip_cons, IH. reflexivity. }
  set (s := String h (String r (String g (String b EmptyString)))) in *.
  assert (Hcons : forall c t,
             lstrip (String c t) = if isspace c then lstrip t
                                   else String c t) by reflexivity.
  assert (Hshort : (String.length (rstrip (lstrip s)) <= 3)%nat).
  { unfold s. rewrite Hcons. destruct (isspace h) eqn:Hh.
    - eapply Nat.le_trans; [apply Hlen |].
      eapply Nat.le_trans; [apply Hl |]. cbn [String.length]. lia.
    - change (String h (String r (String g (String b EmptyString))))
        with (String h (String r (String g EmptyString))
              +:+ String b EmptyString).
      rewrite Hlast. eapply Nat.le_trans; [apply Hlen |].
      cbn [String.length]. lia. }
  rewrite H in Hshort. unfold s in Hshort. cbn [String.length] in Hshort.
  lia.
Qed.

(** What [parse_color] returns as a colour: the normalised text, the
    doubled characters of a hash and three characters, or the hexadecimal
    digits of three numbers cut to 255. *)
Lemma parse_color_some (s c : string) :
  SvgToGcode.parse_color py_int (Some s) = Ok (Some c) ->
  let s1 := lower (strip s) in
  s <> EmptyString
  /\ s1 <> "none"%string /\ s1 <> "transparent"%string
  /\ (c = s1
      \/ (exists r g b : ascii,
            s1 = String "#" (String r (String g (String b EmptyString)))
            /\ c = String "#" (String r (String r (String g (String g
                     (String b (String b EmptyString)))))))
      \/ (exists nr ng nb : Z,
            c = ("#" +:+ format_02x (SvgToGcode.clamp_int nr 0 255)
                   +:+ format_02x (SvgToGcode.clamp_int ng 0 255)
                   +:+ format_02x (SvgToGcode.clamp_int nb 0 255))%string)).
Proof.
  unfold SvgToGcode.parse_color.
  destruct s as [| c0 s0]; [discriminate |]. cbv zeta.
  set (s1 := lower (strip (String c0 s0))).
  destruct (String.eqb s1 "none" || String.eqb s1 "transparent") eqn:Hnt;
    [discriminate |].
  apply orb_false_iff in Hnt. destruct Hnt as [Hn1 Hn2].
  apply String.eqb_neq in Hn1, Hn2. intros H.
  split; [discriminate |]. split; [exact Hn1 |]. split; [exact Hn2 |].
  destruct (startswith s1 "#") eqn:Hstart.
  - destruct s1 as [| h [| r [| g [| b [| x s1']]]]];
      try (left; congruence).
    right; left. exists r, g, b. split; [| congruence].
    unfold startswith in Hstart. cbn [String.prefix] in Hstart.
    destruct (ascii_dec "#" h) as [<- | _]; [reflexivity | discriminate].
  - destruct (SvgToGcode.re_match_rgb s1) as [[[r g] b] |];
      [| left; congruence].
    destruct (py_int r) as [nr |]; [| discriminate].
    destruct (py_int g) as [ng |]; [| discriminate].
    destruct (py_int b) as [nb |]; [| discriminate].
    right; right. exists nr, ng, nb. congruence.
Qed.

Lemma parse_color_none (s : string) :
  SvgToGcode.parse_color py_int (Some s) = Ok None ->
  s = EmptyString
  \/ lower (strip s) = "none"%string
  \/ lower (strip s) = "transparent"%string.
Proof.
  unfold SvgToGcode.parse_color.
  destruct s as [| c0 s0]; [left; reflexivity |]. cbv zeta.
  set (s1 := lower (strip (String c0 s0))).
  destruct (String.eqb s1 "none" || String.eqb s1 "transparent") eqn:Hnt.
  { intros _. right. apply orb_true_iff in Hnt.
    destruct Hnt as [H | H]; apply String.eqb_eq in H; auto. }
  destruct (startswith s1 "#").
  { destruct s1 as [| h [| r [| g [| b [| x s1']]]]]; discriminate. }
  destruct (SvgToGcode.re_match_rgb s1) as [[[r g] b] |]; [| discriminate].
  destruct (py_int r); [| discriminate].
  destruct (py_int g); [| discriminate].
  destruct (py_int b); discriminate.
Qed.

(** The two hexadecimal digits of a number cut to 255 are normalised. *)
Lemma format_02x_plain (n : Z) :
  let d1 := hex_digit (SvgToGcode.clamp_int n 0 255 / 16) in
  let d2 := hex_digit (SvgToGcode.clamp_int n 0 255 mod 16) in
  format_02x (SvgToGcode.clamp_int n 0 255)
  = String d1 (String d2 EmptyString)
  /\ isspace d2 = false /\ lower_char d1 = d1 /\ lower_char d2 = d2.
Proof.
  intros d1 d2.
  pose proof (clamp_int_bounds n 0 255 ltac:(lia)) as Hc.
  assert (H1 : (0 <= SvgToGcode.clamp_int n 0 255 / 16 <= 15)%Z).
  { split; [apply Z.div_pos; lia |].
    apply Z.lt_succ_r, Z.div_lt_upper_bound; lia. }
  assert (H2 : (0 <= SvgToGcode.clamp_int n 0 255 mod 16 <= 15)%Z).
  { pose proof (Z.mod_pos_bound (SvgToGcode.clamp_int n 0 255) 16
                  ltac:(lia)). lia. }
  apply hex_digit_plain in H1, H2.
  split; [reflexivity |].
  split; [exact (proj1 H2) |]. split; [exact (proj2 H1) | exact (proj2 H2)].
Qed.

(** The attributes without a colour: missing, empty, or [none] or
    [transparent] in any letter case and between blanks. *)
Lemma parse_color_none_iff (s : option string) :
  SvgToGcode.parse_color py_int s = Ok None
  <-> (s = None \/ s = Some EmptyString
       \/ exists t, s = Some t
                    /\ (lower (strip t) = "none"%string
                        \/ lower (strip t) = "transparent"%string)).
Proof.
  split.
  - destruct s as [s |]; [| left; reflexivity]. intros Hp.
    destruct (parse_color_none s Hp) as [-> | H];
      [right; left; reflexivity |].
    right; right. exists s. split; [reflexivity | exact H].
  - intros [-> | [-> | (t & -> & H)]]; [reflexivity | reflexivity |].
    destruct t as [| c0 t0]; [reflexivity |].
    unfold SvgToGcode.parse_color. cbv zeta.
    destruct H as [-> | ->]; reflexivity.
Qed.

(** X18 ([parse_color], text of ASCII characters).  [parse_color] gives
    no colour exactly for a missing or empty attribute and for [none] and
    [transparent] in any case and between blanks; it raises only what
    [int] raises on a string of digits; and a colour that it returns is
    never [none] or [transparent] and, unless it is the empty text, is
    returned as it is when parsed again. *)
Theorem parse_color_normal_form (s : option string) :
  (SvgToGcode.parse_color py_int s = Ok None
   <-> (s = None \/ s = Some EmptyString
        \/ exists t, s = Some t
                     /\ (lower (strip t) = "none"%string
                         \/ lower (strip t) = "transparent"%string)))
  /\ match SvgToGcode.parse_color py_int s with
     | Ok None => True
     | Ok (Some c) =>
         c <> "none"%string /\ c <> "transparent"%string
         /\ (c <> EmptyString ->
             SvgToGcode.parse_color py_int (Some c) = Ok (Some c))
     | Raise e =>
         exists ds, ds <> EmptyString
                    /\ forallb isdigit (list_ascii_of_string ds) = true
                    /\ py_int ds = Raise e
     end.
Proof.
  split; [apply parse_color_none_iff |].
  destruct s as [s |]; [| exact I].
  destruct (SvgToGcode.parse_color py_int (Some s)) as [[c |] | e] eqn:Hp.
  - pose proof (parse_color_some s c Hp) as Hc. cbv zeta in Hc.
    destruct Hc as (Hs & Hn1 & Hn2 & [-> | [(r & g & b & Hs1 & ->)
                                            | (nr & ng & nb & ->)]]).
    + split; [exact Hn1 |]. split; [exact Hn2 |]. intros Hne.
      rewrite <- (parse_color_of_normalised s Hne). exact Hp.
    + split; [discriminate |]. split; [discriminate |]. intros _.
      assert (Hstrip : strip (lower (strip s)) = lower (strip s))
        by (rewrite strip_lower, strip_idem; reflexivity).
      pose proof (lower_idem (strip s)) as Hlower.
      rewrite Hs1 in Hstrip, Hlower.
      pose proof (strip_hash3 _ r g b Hstrip) as Hb.
      cbn [lower] in Hlower. injection Hlower as Hr Hg Hlb.
      exact (parse_color_hash6 r r g g b b Hb Hr Hr Hg Hg Hlb Hlb).
    + split; [discriminate |]. split; [discriminate |]. intros _.
      destruct (format_02x_plain nr) as (-> & _ & R1 & R2).
      destruct (format_02x_plain ng) as (-> & _ & G1 & G2).
      destruct (format_02x_plain nb) as (-> & B0 & B1 & B2).
      exact (parse_color_hash6 _ _ _ _ _ _ B0 R1 R2 G1 G2 B1 B2).
  - exact I.
  - destruct (parse_color_raises py_int (Some s) e Hp) as (ds & [H1 H2] & H3).
    exists ds. repeat split; assumption.
Qed.

End ColourFacts.

Lemma isdigit_plain (c : ascii) :
  isdigit c = true -> isspace c = false /\ lower_char c = c.
Proof.
  destruct c as [[] [] [] [] [] [] [] []]; intros H;
    first [discriminate H | split; reflexivity].
Qed.

Lemma isspace_plain (c : ascii) :
  isspace c = true -> isdigit c = false /\ lower_char c = c.
Proof.
  destruct c as [[] [] [] [] [] [] [] []]; intros H;
    first [discriminate H | split; reflexivity].
Qed.

Lemma append_cons (c : ascii) (s t : string) :
  (String c s +:+ t)%string = String c (s +:+ t)%string.
Proof. reflexivity. Qed.

Lemma append_nil (t : string) : (EmptyString +:+ t)%string = t.
Proof. reflexivity. Qed.

Lemma append_assoc (a b c : string) :
  ((a +:+ b) +:+ c)%string = (a +:+ (b +:+ c))%string.
Proof.
  induction a as [| x a IH]; [reflexivity |].
  rewrite !append_cons, IH. reflexivity.
Qed.

Lemma lower_app (s t : string) :
  lower (s +:+ t) = (lower s +:+ lower t)%string.
Proof.
  induction s as [| c s IH]; [reflexivity |].
  rewrite append_cons. cbn [lower]. rewrite append_cons, IH. reflexivity.
Qed.

Lemma lower_blanks (p : string) : blanks p -> lower p = p.
Proof.
  unfold blanks. induction p as [| c p IH]; [reflexivity |].
  cbn [list_ascii_of_string forallb]. intros H.
  apply andb_true_iff in H. destruct H as [Hc Hp].
  cbn [lower]. rewrite (proj2 (isspace_plain c Hc)), (IH Hp). reflexivity.
Qed.

Lemma lower_digits (d : string) :
  forallb isdigit (list_ascii_of_string d) = true -> lower d = d.
Proof.
  induction d as [| c d IH]; [reflexivity |].
  cbn [list_ascii_of_string forallb]. intros H.
  apply andb_true_iff in H. destruct H as [Hc Hd].
  cbn [lower]. rewrite (proj2 (isdigit_plain c Hc)), (IH Hd). reflexivity.
Qed.

Lemma lstrip_blanks (p x : string) :
  blanks p -> lstrip (p +:+ x) = lstrip x.
Proof.
  unfold blanks. induction p as [| c p IH]; [reflexivity |].
  cbn [list_ascii_of_string forallb]. intros H.
  apply andb_true_iff in H. destruct H as [Hc Hp].
  rewrite append_cons. cbn [lstrip]. rewrite Hc. exact (IH Hp).
Qed.

Lemma span_digits (d y : string) :
  forallb isdigit (list_ascii_of_string d) = true ->
  match y with
  | EmptyString => True
  | String c _ => isdigit c = false
  end ->
  span isdigit (d +:+ y) = (d, y).
Proof.
  intros Hd Hy. induction d as [| c d IH].
  - rewrite append_nil. destruct y as [| c y]; [reflexivity |].
    cbn [span]. rewrite Hy. reflexivity.
  - cbn [list_ascii_of_string forallb] in Hd.
    apply andb_true_iff in Hd. destruct Hd as [Hc Hd].
    rewrite append_cons. cbn [span]. rewrite Hc, (IH Hd). reflexivity.
Qed.

(** A number between blanks, before a comma or a parenthesis. *)
Lemma re_number_padded (t d : string) (c : ascii) (rest : string) :
  padded_number t d ->
  isspace c = false -> isdigit c = false ->
  SvgToGcode.re_number (t +:+ String c rest) = Some (d, String c rest).
Proof.
  intros (p & q & Hp & Hq & [Hne Hd] & ->) Hs Hc.
  unfold SvgToGcode.re_number.
  rewrite !append_assoc, (lstrip_blanks p _ Hp).
  destruct d as [| c0 d]; [congruence |].
  assert (H0 : isdigit c0 = true).
  { cbn [list_ascii_of_string forallb] in Hd.
    apply andb_true_iff in Hd. exact (proj1 Hd). }
  assert (Hl : lstrip (String c0 d +:+ (q +:+ String c rest))
               = (String c0 d +:+ (q +:+ String c rest))%string).
  { rewrite append_cons. cbn [lstrip].
    rewrite (proj1 (isdigit_plain c0 H0)). reflexivity. }
  rewrite Hl, (span_digits (String c0 d) (q +:+ String c rest) Hd).
  - rewrite (lstrip_blanks q _ Hq). cbn [lstrip]. rewrite Hs. reflexivity.
  - destruct q as [| c1 q]; [rewrite append_nil; exact Hc |].
    rewrite append_cons. unfold blanks in Hq.
    cbn [list_ascii_of_string forallb] in Hq.
    apply andb_true_iff in Hq. exact (proj1 (isspace_plain c1 (proj1 Hq))).
Qed.

Lemma lower_padded (t d : string) : padded_number t d -> lower t = t.
Proof.
  intros (p & q & Hp & Hq & [_ Hd] & ->).
  rewrite !lower_app, (lower_blanks p Hp), (lower_blanks q Hq),
    (lower_digits d Hd). reflexivity.
Qed.

(** A text that ends on a character that is not blank keeps its end. *)
Lemma rstrip_keeps (x y : string) :
  y <> EmptyString /\ rstrip y = y ->
  (x +:+ y)%string <> EmptyString
  /\ rstrip (x +:+ y) = (x +:+ y)%string.
Proof.
  intros [Hy Hr]. induction x as [| c x IH]; [split; assumption |].
  destruct IH as [Hne IH]. split; [discriminate |].
  rewrite append_cons, rstrip_cons, IH.
  destruct (x +:+ y)%string as [| c' s] eqn:E; [congruence | reflexivity].
Qed.

Section ColourSpellings.

Variable py_int : string -> result Z.

(** The three-character hash form is the six-character form with each
    character doubled. *)
Lemma parse_color_hash3 (r g b : ascii) :
  isspace b = false ->
  let long :=
    String "#" (String r (String r (String g (String g
      (String b (String b EmptyString)))))) in
  SvgToGcode.parse_color py_int
    (Some (String "#" (String r (String g (String b EmptyString)))))
  = Ok (Some (lower long))
  /\ SvgToGcode.parse_color py_int (Some long) = Ok (Some (lower long)).
Proof.
  intros Hb long.
  assert (Hlb : isspace (lower_char b) = false)
    by (rewrite isspace_lower_char; exact Hb).
  split.
  - assert (Hn : lower (strip (String "#" (String r (String g
                           (String b EmptyString)))))
                 = String "#" (String (lower_char r) (String (lower_char g)
                     (String (lower_char b) EmptyString)))).
    { unfold strip. change (lstrip (String "#" ?x)) with (String "#" x).
      rewrite !rstrip_cons. cbn [rstrip]. rewrite Hb. reflexivity. }
    unfold SvgToGcode.parse_color. cbv zeta. rewrite Hn. reflexivity.
  - assert (Hn : lower (strip long) = lower long).
    { unfold strip, long. change (lstrip (String "#" ?x)) with (String "#" x).
      rewrite !rstrip_cons. cbn [rstrip]. rewrite Hb. reflexivity. }
    rewrite (parse_color_of_normalised py_int long);
      [| rewrite Hn; discriminate].
    rewrite Hn.
    exact (parse_color_hash6 py_int _ _ _ _ _ _ Hlb
             (lower_char_idem r) (lower_char_idem r)
             (lower_char_idem g) (lower_char_idem g)
             (lower_char_idem b) (lower_char_idem b)).
Qed.

(** X19 ([parse_color], text of ASCII characters).  An attribute of
    blanks only is a colour, the empty text, where the empty attribute is
    no colour; an attribute is read through its text in lower case and
    without the blanks around it; and [#rgb] is the colour [#rrggbb]. *)
Theorem parse_color_spellings :
  (forall s, s <> EmptyString -> strip s = EmptyString ->
     SvgToGcode.parse_color py_int (Some s) = Ok (Some EmptyString)
     /\ SvgToGcode.parse_color py_int (Some EmptyString) = Ok None)
  /\ (forall s, lower (strip s) <> EmptyString ->
        SvgToGcode.parse_color py_int (Some s)
        = SvgToGcode.parse_color py_int (Some (lower (strip s))))
  /\ (forall r g b : ascii, isspace b = false ->
        let long :=
          String "#" (String r (String r (String g (String g
            (String b (String b EmptyString)))))) in
        SvgToGcode.parse_color py_int
          (Some (String "#" (String r (String g (String b EmptyString)))))
        = Ok (Some (lower long))
        /\ SvgToGcode.parse_color py_int (Some long)
           = Ok (Some (lower long))).
Proof.
  split; [| split].
  - intros s Hne Hs. split; [| reflexivity].
    destruct s as [| c s]; [congruence |].
    unfold SvgToGcode.parse_color. cbv zeta. rewrite Hs. reflexivity.
  - apply parse_color_of_normalised.
  - exact parse_color_hash3.
Qed.

(** X20 ([parse_color], [clamp_int], text of ASCII characters).  The
    form [rgb(r, g, b)], with blanks or none around the three numbers, is
    the colour of the three values cut to 255 and written as two
    hexadecimal digits each, when [int] returns the values. *)
Theorem parse_color_rgb (tr tg tb dr dg db : string) (nr ng nb : Z) :
  padded_number tr dr -> padded_number tg dg -> padded_number tb db ->
  py_int dr = Ok nr -> py_int dg = Ok ng -> py_int db = Ok nb ->
  SvgToGcode.parse_color py_int
    (Some ("rgb(" +:+ tr +:+ "," +:+ tg +:+ "," +:+ tb +:+ ")")%string)
  = Ok (Some ("#" +:+ format_02x (SvgToGcode.clamp_int nr 0 255)
                +:+ format_02x (SvgToGcode.clamp_int ng 0 255)
                +:+ format_02x (SvgToGcode.clamp_int nb 0 255))%string).
Proof.
  intros Hr Hg Hb Er Eg Eb.
  set (s := ("rgb(" +:+ tr +:+ "," +:+ tg +:+ "," +:+ tb +:+ ")")%string).
  assert (Hlow : lower s = s).
  { unfold s. rewrite !lower_app, (lower_padded tr dr Hr),
      (lower_padded tg dg Hg), (lower_padded tb db Hb). reflexivity. }
  assert (Hstrip : strip s = s).
  { unfold strip, s.
    change (lstrip ("rgb(" +:+ ?x)) with ("rgb(" +:+ x)%string.
    refine (proj2 (rstrip_keeps _ _ _)). do 5 apply rstrip_keeps.
    split; [discriminate | reflexivity]. }
  assert (Hre : SvgToGcode.re_match_rgb s = Some (dr, dg, db)).
  { unfold s. rewrite !append_cons, !append_nil.
    unfold SvgToGcode.re_match_rgb. cbv beta iota.
    rewrite (re_number_padded tr dr "," _ Hr eq_refl eq_refl).
    cbv beta iota.
    rewrite (re_number_padded tg dg "," _ Hg eq_refl eq_refl).
    cbv beta iota.
    rewrite (re_number_padded tb db ")" _ Hb eq_refl eq_refl).
    reflexivity. }
  assert (Hshape : exists s', s = String "r" s')
    by (unfold s; rewrite append_cons; eexists; reflexivity).
  destruct Hshape as [s' Hs']. clearbody s.
  unfold SvgToGcode.parse_color. cbv zeta.
  destruct s as [| c s0]; [discriminate Hs' |].
  rewrite Hstrip, Hlow, Hre, Er, Eg, Eb.
  injection Hs' as -> ->. reflexivity.
Qed.

End ColourSpellings.

Lemma parse_color_rgb_witness :
  SvgToGcode.parse_color (fun ds => Ok (digits_value ds))
    (Some ("rgb(" +:+ "255" +:+ "," +:+ " 0" +:+ "," +:+ " 300 " +:+ ")")
       %string)
  = Ok (Some ("#" +:+ format_02x (SvgToGcode.clamp_int 255 0 255)
                +:+ format_02x (SvgToGcode.clamp_int 0 0 255)
                +:+ format_02x (SvgToGcode.clamp_int 300 0 255))%string).
Proof.
  apply (parse_color_rgb (fun ds => Ok (digits_value ds))
           "255" " 0" " 300 " "255" "0" "300" 255 0 300).
  - exists EmptyString, EmptyString.
    split; [reflexivity |]. split; [reflexivity |].
    split; [split; [discriminate | reflexivity] | reflexivity].
  - exists " "%string, EmptyString.
    split; [reflexivity |]. split; [reflexivity |].
    split; [split; [discriminate | reflexivity] | reflexivity].
  - exists " "%string, " "%string.
    split; [reflexivity |]. split; [reflexivity |].
    split; [split; [discriminate | reflexivity] | reflexivity].
  - reflexivity.
  - reflexivity.
  - reflexivity.
Defined.


